(** * Gemini Code Autocomplete: the debounce, cancel and accept rules

    A shallow embedding of the two front ends of the repository:

    - the standalone React editor ([App.tsx] with its [geminiService]
      module, of which the repository holds two copies), and
    - the Acode plugin ([main.js], class [GeminiAutocompletePlugin]).

    Both are event driven and single threaded.  Each handler runs to its
    next [await] without interruption, so a handler is one transition of a
    state machine whose events are what the JavaScript event loop delivers:
    a user edit, a key press, an invocation by the host, the settlement of
    an outstanding call to the remote service, and the passing of time.
    Time is a clock in milliseconds; when it passes, the timers that come
    due run, in the order of their due times.  In the React component a
    handler, the render it causes and the effects of that render make one
    transition.

    The browser's timer table, the [AbortController] objects and the
    promises handed to the host are stores indexed by allocation order; a
    closure holds indices into them, which is how the aliasing of the source
    is kept.

    The two presentational components ([components/Editor.tsx] and
    [components/Suggestion.tsx]) are embedded as what they lay out. *)

From Stdlib Require Import NArith String Ascii Lia.
From stdpp Require Import base list.

Set Default Proof Using "Type".

(** ** JavaScript strings *)

(** A JavaScript string is a sequence of UTF-16 code units; [length] is the
    source's [.length]. *)
Abbreviation jsstring := (list N).

Module JS.

Fixpoint lit (s : string) : jsstring :=
  match s with
  | EmptyString => []
  | String a r => N_of_ascii a :: lit r
  end.

Arguments lit : simpl never.

(** A string is falsy exactly when it is empty. *)
Definition truthy (s : jsstring) : bool :=
  match s with [] => false | _ :: _ => true end.

(** [WhiteSpace] and [LineTerminator] of ECMA-262, the code units that
    [String.prototype.trim] and its variants strip. *)
Definition is_white_space (c : N) : bool :=
  ((9 <=? c) && (c <=? 13) || (c =? 32) || (c =? 160) || (c =? 5760)
   || (8192 <=? c) && (c <=? 8202) || (c =? 8232) || (c =? 8233)
   || (c =? 8239) || (c =? 8287) || (c =? 12288) || (c =? 65279))%N.

Fixpoint trimStart (s : jsstring) : jsstring :=
  match s with
  | [] => []
  | c :: r => if is_white_space c then trimStart r else s
  end.

Definition trimEnd (s : jsstring) : jsstring := rev (trimStart (rev s)).

Definition trim (s : jsstring) : jsstring := trimEnd (trimStart s).

Fixpoint starts_with (p s : jsstring) : bool :=
  match p, s with
  | [], _ => true
  | _ :: _, [] => false
  | a :: p', b :: s' => (a =? b)%N && starts_with p' s'
  end.

(** [s.includes(sub)] *)
Fixpoint includes (s sub : jsstring) : bool :=
  starts_with sub s ||
  match s with
  | [] => false
  | _ :: r => includes r sub
  end.

(** [s.split('\n')[0]]: the text before the first line feed. *)
Fixpoint first_line (s : jsstring) : jsstring :=
  match s with
  | [] => []
  | c :: r => if (c =? 10)%N then [] else c :: first_line r
  end.

(** [s.split('/').pop()]: the text after the last slash. *)
Fixpoint last_segment (s : jsstring) : jsstring :=
  match s with
  | [] => []
  | c :: r => if includes r [47%N] then last_segment r
              else if (c =? 47)%N then r else s
  end.

(** [s.substring(0, n)] *)
Definition substring0 (n : nat) (s : jsstring) : jsstring := take n s.

Definition eqb (a b : jsstring) : bool := bool_decide (a = b).

(** Thrown values.  [Error] objects carry a [name] and a [message].  Any
    value can be thrown, though: an [Object] that is no [Error], with what
    it holds under [name] and [message] ([None] where that is no string),
    and [Other], which is [null], [undefined] or a primitive and has
    neither.  A [message] that is no string but has an [includes] method of
    its own, as an array has, is left out. *)
Record Error := mkError { name : jsstring; message : jsstring }.

Definition new_Error (msg : jsstring) : Error :=
  {| name := lit "Error"; message := msg |}.

Inductive thrown :=
  | ErrorObject (e : Error)
  | Object (n m : option jsstring)
  | Other.

(** [error.name] and [error.message], read without an [instanceof] test:
    the string found there, if any. *)
Definition name_of (t : thrown) : option jsstring :=
  match t with
  | ErrorObject e => Some (name e)
  | Object n _ => n
  | Other => None
  end.

Definition message_of (t : thrown) : option jsstring :=
  match t with
  | ErrorObject e => Some (message e)
  | Object _ m => m
  | Other => None
  end.

End JS.

(** ** The remote call *)

(** What [ai.models.generateContent] can do once awaited: answer with a
    response whose [text] may be absent, or fail. *)
Inductive transport_outcome :=
  | Response (text : option jsstring)
  | Failure (t : JS.thrown).

(** What an [async] function settles to. *)
Inductive settled (A : Type) :=
  | Fulfilled (v : A)
  | Rejected (t : JS.thrown).
Arguments Fulfilled {A} v.
Arguments Rejected {A} t.

(** One outbound [generateContent] call.  The prompt is a fixed template
    around the snippet (and, in the plugin, the language name); the model
    name and the sampling numbers are constants of each call site. *)
Record generateContent := {
  call_snippet : jsstring;
  call_language : option jsstring
}.

(** ** [services/geminiService]: the standalone client *)

(** The interface [App.tsx] imports.  The two copies of the module differ
    only in what [getCodeSuggestions] does with the response, that is, from
    its [await] on. *)
Class GeminiService := {
  getCodeSuggestions_resume : transport_outcome -> settled jsstring
}.

Definition missing_API_KEY (env_API_KEY : option jsstring) : bool :=
  match env_API_KEY with
  | None => true
  | Some k => negb (JS.truthy k)
  end.

Definition API_key_not_valid : jsstring := JS.lit "API key not valid".

(** The [catch] block, the same in both copies. *)
Definition friendly_error (t : JS.thrown) : JS.Error :=
  match t with
  | JS.ErrorObject e =>
      if JS.includes (JS.message e) API_key_not_valid
      then JS.new_Error (JS.lit "Invalid API Key. Please check your configuration.")
      else JS.new_Error (JS.lit "Failed to get suggestions from Gemini.")
  | JS.Object _ _ | JS.Other =>
      JS.new_Error (JS.lit "Failed to get suggestions from Gemini.")
  end.

(** [getCodeSuggestions] up to its [await], the same in both copies: the
    key is checked, then the call goes out. *)
Definition getCodeSuggestions_call (env_API_KEY : option jsstring)
    (codeSnippet : jsstring) : JS.Error + generateContent :=
  if missing_API_KEY env_API_KEY
  then inl (JS.new_Error (JS.lit "API_KEY environment variable is not set."))
  else inr {| call_snippet := codeSnippet; call_language := None |}.

(** The copy that reads [response.text?.trimStart() ?? ''] . *)
Module GeminiService1.

Definition resume (o : transport_outcome) : settled jsstring :=
  match o with
  | Response text =>
      let text := match text with Some t => JS.trimStart t | None => [] end in
      if negb (JS.truthy text) then Fulfilled [] else Fulfilled text
  | Failure t => Rejected (JS.ErrorObject (friendly_error t))
  end.

Definition service : GeminiService := {|
  getCodeSuggestions_resume := resume
|}.

End GeminiService1.

(** The copy that reads [text ? text.trim() : ''] . *)
Module GeminiService2.

Definition resume (o : transport_outcome) : settled jsstring :=
  match o with
  | Response text =>
      match text with
      | Some t => if JS.truthy t then Fulfilled (JS.trim t) else Fulfilled []
      | None => Fulfilled []
      end
  | Failure t => Rejected (JS.ErrorObject (friendly_error t))
  end.

Definition service : GeminiService := {|
  getCodeSuggestions_resume := resume
|}.

End GeminiService2.

(** ** Timers *)

(** An entry of the timer table: the callback given to [setTimeout] and the
    time from which it may run.  A table is a list indexed by timer id; an
    entry is [None] once the timer has run or was cleared. *)
Record timer (C : Type) := { due : nat; callback : C }.
Arguments due {C} _.
Arguments callback {C} _.

(** The pending timer that runs next: the least [due], and among equals the
    one set first.  [i] is the id of the head of [ts]. *)
Fixpoint next_timer {C} (ts : list (option (timer C))) (i : nat)
  : option (nat * timer C) :=
  match ts with
  | [] => None
  | o :: ts' =>
      match o, next_timer ts' (S i) with
      | None, rest => rest
      | Some t, Some (j, u) => if due u <? due t then Some (j, u) else Some (i, t)
      | Some t, None => Some (i, t)
      end
  end.

(** ** [App.tsx]: the standalone editor *)

Module App.

(** The part of the [<textarea>] the component writes through [editorRef]. *)
Record TextArea := { selectionStart : nat; selectionEnd : nat }.

(** The two closures the component hands to [setTimeout]. *)
Inductive task :=
  | FetchTask (currentCode : jsstring) (controller : nat)
  | CursorTask (position : nat).

Record state := {
  (* useState *)
  code : jsstring;
  inlineSuggestion : jsstring;
  isLoading : bool;
  error : option jsstring;
  (* useRef *)
  editorRef : option TextArea;
  requestAbortController : option nat;
  (* what the last run of the effect returned: its timer and controller *)
  cleanup : option (nat * nat);
  (* the world *)
  env_API_KEY : option jsstring;
  now : nat;
  timers : list (option (timer task));
  controllers : list bool;            (* [signal.aborted] of each controller *)
  awaiting : list (option nat);       (* signal of each suspended fetch *)
  calls : list generateContent
}.

Definition set_code (v : jsstring) (st : state) : state :=
  {| code := v; inlineSuggestion := inlineSuggestion st;
     isLoading := isLoading st; error := error st; editorRef := editorRef st;
     requestAbortController := requestAbortController st;
     cleanup := cleanup st; env_API_KEY := env_API_KEY st; now := now st;
     timers := timers st; controllers := controllers st;
     awaiting := awaiting st; calls := calls st |}.

Definition set_inlineSuggestion (v : jsstring) (st : state) : state :=
  {| code := code st; inlineSuggestion := v; isLoading := isLoading st;
     error := error st; editorRef := editorRef st;
     requestAbortController := requestAbortController st;
     cleanup := cleanup st; env_API_KEY := env_API_KEY st; now := now st;
     timers := timers st; controllers := controllers st;
     awaiting := awaiting st; calls := calls st |}.

Definition set_isLoading (v : bool) (st : state) : state :=
  {| code := code st; inlineSuggestion := inlineSuggestion st;
     isLoading := v; error := error st; editorRef := editorRef st;
     requestAbortController := requestAbortController st;
     cleanup := cleanup st; env_API_KEY := env_API_KEY st; now := now st;
     timers := timers st; controllers := controllers st;
     awaiting := awaiting st; calls := calls st |}.

Definition set_error (v : option jsstring) (st : state) : state :=
  {| code := code st; inlineSuggestion := inlineSuggestion st;
     isLoading := isLoading st; error := v; editorRef := editorRef st;
     requestAbortController := requestAbortController st;
     cleanup := cleanup st; env_API_KEY := env_API_KEY st; now := now st;
     timers := timers st; controllers := controllers st;
     awaiting := awaiting st; calls := calls st |}.

Definition set_editorRef (v : option TextArea) (st : state) : state :=
  {| code := code st; inlineSuggestion := inlineSuggestion st;
     isLoading := isLoading st; error := error st; editorRef := v;
     requestAbortController := requestAbortController st;
     cleanup := cleanup st; env_API_KEY := env_API_KEY st; now := now st;
     timers := timers st; controllers := controllers st;
     awaiting := awaiting st; calls := calls st |}.

Definition set_requestAbortController (v : option nat) (st : state) : state :=
  {| code := code st; inlineSuggestion := inlineSuggestion st;
     isLoading := isLoading st; error := error st; editorRef := editorRef st;
     requestAbortController := v; cleanup := cleanup st;
     env_API_KEY := env_API_KEY st; now := now st; timers := timers st;
     controllers := controllers st; awaiting := awaiting st;
     calls := calls st |}.

Definition set_cleanup (v : option (nat * nat)) (st : state) : state :=
  {| code := code st; inlineSuggestion := inlineSuggestion st;
     isLoading := isLoading st; error := error st; editorRef := editorRef st;
     requestAbortController := requestAbortController st; cleanup := v;
     env_API_KEY := env_API_KEY st; now := now st; timers := timers st;
     controllers := controllers st; awaiting := awaiting st;
     calls := calls st |}.

Definition set_now (v : nat) (st : state) : state :=
  {| code := code st; inlineSuggestion := inlineSuggestion st;
     isLoading := isLoading st; error := error st; editorRef := editorRef st;
     requestAbortController := requestAbortController st;
     cleanup := cleanup st; env_API_KEY := env_API_KEY st; now := v;
     timers := timers st; controllers := controllers st;
     awaiting := awaiting st; calls := calls st |}.

Definition set_timers (v : list (option (timer task))) (st : state) : state :=
  {| code := code st; inlineSuggestion := inlineSuggestion st;
     isLoading := isLoading st; error := error st; editorRef := editorRef st;
     requestAbortController := requestAbortController st;
     cleanup := cleanup st; env_API_KEY := env_API_KEY st; now := now st;
     timers := v; controllers := controllers st; awaiting := awaiting st;
     calls := calls st |}.

Definition set_controllers (v : list bool) (st : state) : state :=
  {| code := code st; inlineSuggestion := inlineSuggestion st;
     isLoading := isLoading st; error := error st; editorRef := editorRef st;
     requestAbortController := requestAbortController st;
     cleanup := cleanup st; env_API_KEY := env_API_KEY st; now := now st;
     timers := timers st; controllers := v; awaiting := awaiting st;
     calls := calls st |}.

Definition set_awaiting (v : list (option nat)) (st : state) : state :=
  {| code := code st; inlineSuggestion := inlineSuggestion st;
     isLoading := isLoading st; error := error st; editorRef := editorRef st;
     requestAbortController := requestAbortController st;
     cleanup := cleanup st; env_API_KEY := env_API_KEY st; now := now st;
     timers := timers st; controllers := controllers st; awaiting := v;
     calls := calls st |}.

Definition set_calls (v : list generateContent) (st : state) : state :=
  {| code := code st; inlineSuggestion := inlineSuggestion st;
     isLoading := isLoading st; error := error st; editorRef := editorRef st;
     requestAbortController := requestAbortController st;
     cleanup := cleanup st; env_API_KEY := env_API_KEY st; now := now st;
     timers := timers st; controllers := controllers st;
     awaiting := awaiting st; calls := v |}.

Definition visible (st : state) : jsstring * jsstring * bool * option jsstring :=
  (code st, inlineSuggestion st, isLoading st, error st).

Definition aborted (c : nat) (st : state) : bool :=
  bool_decide (controllers st !! c = Some true).

Definition abort (c : nat) (st : state) : state :=
  set_controllers (<[c:=true]> (controllers st)) st.

Definition clearTimeout (id : nat) (st : state) : state :=
  set_timers (<[id:=None]> (timers st)) st.

Definition setTimeout (f : task) (delay : nat) (st : state) : state :=
  set_timers (timers st ++ [Some {| due := now st + delay; callback := f |}]) st.

(** The body of [useEffect] and the function it returns. *)
Definition effect (st : state) : state :=
  let st := match requestAbortController st with
            | Some c => abort c st
            | None => st
            end in
  let controller := length (controllers st) in
  let st := set_controllers (controllers st ++ [false]) st in
  let st := set_requestAbortController (Some controller) st in
  let handler := length (timers st) in
  let st := setTimeout (FetchTask (code st) controller) 500 st in
  set_cleanup (Some (handler, controller)) st.

Definition run_cleanup (st : state) : state :=
  match cleanup st with
  | Some (handler, controller) => abort controller (clearTimeout handler st)
  | None => st
  end.

(** The render that follows an event.  The effect depends on
    [[code, fetchSuggestions]] and [fetchSuggestions] is the same function
    in every render, so the effect runs again exactly when [code] differs
    from the render before. *)
Definition rerender (previous_code : jsstring) (st : state) : state :=
  if JS.eqb previous_code (code st) then st else effect (run_cleanup st).

Definition initial_code : jsstring :=
  JS.lit "function greet(name) {" ++ [10%N] ++ JS.lit "  ".

Definition mount (API_KEY : option jsstring) : state :=
  effect {| code := initial_code; inlineSuggestion := []; isLoading := false;
            error := None;
            editorRef := Some {| selectionStart := 0; selectionEnd := 0 |};
            requestAbortController := None; cleanup := None;
            env_API_KEY := API_KEY; now := 0; timers := [];
            controllers := []; awaiting := []; calls := [] |}.

Definition handleCodeChange (value : jsstring) (st : state) : state :=
  set_inlineSuggestion [] (set_code value st).

(** [handleKeyDown]; the boolean tells whether [e.preventDefault()] ran. *)
Definition handleKeyDown (key : jsstring) (st : state) : state * bool :=
  if JS.eqb key (JS.lit "Tab") && JS.truthy (inlineSuggestion st) then
    let newCode := code st ++ inlineSuggestion st in
    let st := set_code newCode st in
    let st := set_inlineSuggestion [] st in
    let st := setTimeout (CursorTask (length newCode)) 0 st in
    (st, true)
  else (st, false).

Section WithService.
Context {service : GeminiService}.

(** [fetchSuggestions] from its [await] on. *)
Definition fetchSuggestions_resume (signal : nat) (r : settled jsstring)
    (st : state) : state :=
  let st :=
    match r with
    | Fulfilled result =>
        if negb (aborted signal st) then set_inlineSuggestion result st else st
    | Rejected err =>
        if negb (aborted signal st) then
          let msg := match err with
                     | JS.ErrorObject e => JS.message e
                     | JS.Object _ _ | JS.Other =>
                         JS.lit "An unknown error occurred."
                     end in
          set_inlineSuggestion [] (set_error (Some msg) st)
        else st
    end in
  if negb (aborted signal st) then set_isLoading false st else st.

(** [fetchSuggestions] up to its [await].  A missing key makes
    [getCodeSuggestions] reject before any call goes out. *)
Definition fetchSuggestions (currentCode : jsstring) (signal : nat)
    (st : state) : state :=
  if length (JS.trim currentCode) <? 3 then set_inlineSuggestion [] st
  else
    let st := set_isLoading true st in
    let st := set_error None st in
    match getCodeSuggestions_call (env_API_KEY st) currentCode with
    | inl e => fetchSuggestions_resume signal (Rejected (JS.ErrorObject e)) st
    | inr call =>
        set_awaiting (awaiting st ++ [Some signal])
          (set_calls (calls st ++ [call]) st)
    end.

Definition fire (f : task) (st : state) : state :=
  match f with
  | FetchTask currentCode controller => fetchSuggestions currentCode controller st
  | CursorTask position =>
      match editorRef st with
      | Some _ =>
          set_editorRef
            (Some {| selectionStart := position; selectionEnd := position |}) st
      | None => st
      end
  end.

(** Time passes up to [deadline]: the timers due by then run, in order. *)
Fixpoint run_timers (fuel deadline : nat) (st : state) : state :=
  match fuel with
  | 0 => st
  | S fuel' =>
      match next_timer (timers st) 0 with
      | Some (id, t) =>
          if due t <=? deadline then
            run_timers fuel' deadline
              (fire (callback t)
                 (clearTimeout id (set_now (now st `max` due t) st)))
          else st
      | None => st
      end
  end.

Definition elapse (ms : nat) (st : state) : state :=
  let deadline := now st + ms in
  set_now deadline (run_timers (length (timers st)) deadline st).

Inductive event :=
  | Change (value : jsstring)
  | KeyDown (key : jsstring)
  | Elapse (ms : nat)
  | Settle (r : nat) (o : transport_outcome).

Definition step (st : state) (e : event) : option state :=
  match e with
  | Change value => Some (rerender (code st) (handleCodeChange value st))
  | KeyDown key => Some (rerender (code st) (fst (handleKeyDown key st)))
  | Elapse ms => Some (elapse ms st)
  | Settle r o =>
      match awaiting st !! r with
      | Some (Some signal) =>
          Some (fetchSuggestions_resume signal (getCodeSuggestions_resume o)
                  (set_awaiting (<[r:=None]> (awaiting st)) st))
      | _ => None
      end
  end.

Fixpoint run (st : state) (evs : list event) : option state :=
  match evs with
  | [] => Some st
  | e :: evs' =>
      match step st e with
      | Some st' => run st' evs'
      | None => None
      end
  end.

Definition reachable (st : state) : Prop :=
  exists API_KEY evs, run (mount API_KEY) evs = Some st.

End WithService.

End App.

(** ** [main.js]: the Acode plugin *)

Module Plugin.

(** A completion item as Acode takes it. *)
Record candidate := {
  caption : jsstring;
  value : jsstring;
  score : nat;
  meta : jsstring
}.

(** The client object; of [new GoogleGenAI({ apiKey })] only the key is
    kept. *)
Record GoogleGenAI := { apiKey : jsstring }.

(** A [#provideCompletions] suspended at its [await]: the signal it handed
    to [#getCodeSuggestion] and the [resolve] of the promise it gave back. *)
Record request := { rq_signal : nat; rq_resolve : nat }.

Definition completion_item (suggestion : jsstring) : candidate :=
  {| caption := JS.substring0 50 (JS.first_line suggestion) ++ JS.lit "...";
     value := suggestion;
     score := 1000;
     meta := JS.lit "Gemini AI" |}.

(** The message the [catch] block of [#provideCompletions] puts after
    ["Gemini Error: "]. *)
Definition errorMessage (message : jsstring) : jsstring :=
  if JS.includes message API_key_not_valid
  then JS.lit "Invalid API Key. Please check your plugin settings."
  else message.

(** [#getCodeSuggestion] from its [await] on, given [signal.aborted]. *)
Definition getCodeSuggestion_resume (signal_aborted : bool)
    (o : transport_outcome) : settled jsstring :=
  match o with
  | Response text =>
      if signal_aborted then Fulfilled []
      else match text with
           | Some t => if JS.truthy t then Fulfilled t else Fulfilled []
           | None => Fulfilled []
           end
  | Failure t => Rejected t
  end.

Section Host.

(** Ace's edit sessions and cursor positions, and the two session methods
    the plugin calls: [session.getTextRange({start: {row: 0, column: 0},
    end: pos})] and [session.getMode().$id]. *)
Context {Session Pos : Type}.
Variable getTextRange : Session -> Pos -> jsstring.
Variable getModeId : Session -> jsstring.

(** The arrow function given to [setTimeout]: it closes over the session
    object, the position and the promise's [resolve]. *)
Record closure := { cl_session : nat; cl_pos : Pos; cl_resolve : nat }.

Record state := {
  (* private fields *)
  ai : option GoogleGenAI;
  abortController : option nat;
  debounceTimeout : option nat;
  isLoading : bool;
  (* the host *)
  providers : nat;                    (* registered completion providers *)
  alerts : list (jsstring * jsstring);
  toasts : list jsstring;
  sessions : nat -> Session;          (* the session objects, by identity *)
  promises : list (option (list candidate));  (* [None]: still pending *)
  (* the world *)
  now : nat;
  timers : list (option (timer closure));
  controllers : list bool;
  awaiting : list (option request);
  calls : list generateContent
}.

Definition set_ai (v : option GoogleGenAI) (st : state) : state :=
  {| ai := v; abortController := abortController st;
     debounceTimeout := debounceTimeout st; isLoading := isLoading st;
     providers := providers st; alerts := alerts st; toasts := toasts st;
     sessions := sessions st; promises := promises st; now := now st;
     timers := timers st; controllers := controllers st;
     awaiting := awaiting st; calls := calls st |}.

Definition set_abortController (v : option nat) (st : state) : state :=
  {| ai := ai st; abortController := v;
     debounceTimeout := debounceTimeout st; isLoading := isLoading st;
     providers := providers st; alerts := alerts st; toasts := toasts st;
     sessions := sessions st; promises := promises st; now := now st;
     timers := timers st; controllers := controllers st;
     awaiting := awaiting st; calls := calls st |}.

Definition set_debounceTimeout (v : option nat) (st : state) : state :=
  {| ai := ai st; abortController := abortController st;
     debounceTimeout := v; isLoading := isLoading st;
     providers := providers st; alerts := alerts st; toasts := toasts st;
     sessions := sessions st; promises := promises st; now := now st;
     timers := timers st; controllers := controllers st;
     awaiting := awaiting st; calls := calls st |}.

Definition set_isLoading (v : bool) (st : state) : state :=
  {| ai := ai st; abortController := abortController st;
     debounceTimeout := debounceTimeout st; isLoading := v;
     providers := providers st; alerts := alerts st; toasts := toasts st;
     sessions := sessions st; promises := promises st; now := now st;
     timers := timers st; controllers := controllers st;
     awaiting := awaiting st; calls := calls st |}.

Definition set_providers (v : nat) (st : state) : state :=
  {| ai := ai st; abortController := abortController st;
     debounceTimeout := debounceTimeout st; isLoading := isLoading st;
     providers := v; alerts := alerts st; toasts := toasts st;
     sessions := sessions st; promises := promises st; now := now st;
     timers := timers st; controllers := controllers st;
     awaiting := awaiting st; calls := calls st |}.

Definition set_alerts (v : list (jsstring * jsstring)) (st : state) : state :=
  {| ai := ai st; abortController := abortController st;
     debounceTimeout := debounceTimeout st; isLoading := isLoading st;
     providers := providers st; alerts := v; toasts := toasts st;
     sessions := sessions st; promises := promises st; now := now st;
     timers := timers st; controllers := controllers st;
     awaiting := awaiting st; calls := calls st |}.

Definition set_toasts (v : list jsstring) (st : state) : state :=
  {| ai := ai st; abortController := abortController st;
     debounceTimeout := debounceTimeout st; isLoading := isLoading st;
     providers := providers st; alerts := alerts st; toasts := v;
     sessions := sessions st; promises := promises st; now := now st;
     timers := timers st; controllers := controllers st;
     awaiting := awaiting st; calls := calls st |}.

Definition set_sessions (v : nat -> Session) (st : state) : state :=
  {| ai := ai st; abortController := abortController st;
     debounceTimeout := debounceTimeout st; isLoading := isLoading st;
     providers := providers st; alerts := alerts st; toasts := toasts st;
     sessions := v; promises := promises st; now := now st;
     timers := timers st; controllers := controllers st;
     awaiting := awaiting st; calls := calls st |}.

Definition set_promises (v : list (option (list candidate))) (st : state) : state :=
  {| ai := ai st; abortController := abortController st;
     debounceTimeout := debounceTimeout st; isLoading := isLoading st;
     providers := providers st; alerts := alerts st; toasts := toasts st;
     sessions := sessions st; promises := v; now := now st;
     timers := timers st; controllers := controllers st;
     awaiting := awaiting st; calls := calls st |}.

Definition set_now (v : nat) (st : state) : state :=
  {| ai := ai st; abortController := abortController st;
     debounceTimeout := debounceTimeout st; isLoading := isLoading st;
     providers := providers st; alerts := alerts st; toasts := toasts st;
     sessions := sessions st; promises := promises st; now := v;
     timers := timers st; controllers := controllers st;
     awaiting := awaiting st; calls := calls st |}.

Definition set_timers (v : list (option (timer closure))) (st : state) : state :=
  {| ai := ai st; abortController := abortController st;
     debounceTimeout := debounceTimeout st; isLoading := isLoading st;
     providers := providers st; alerts := alerts st; toasts := toasts st;
     sessions := sessions st; promises := promises st; now := now st;
     timers := v; controllers := controllers st; awaiting := awaiting st;
     calls := calls st |}.

Definition set_controllers (v : list bool) (st : state) : state :=
  {| ai := ai st; abortController := abortController st;
     debounceTimeout := debounceTimeout st; isLoading := isLoading st;
     providers := providers st; alerts := alerts st; toasts := toasts st;
     sessions := sessions st; promises := promises st; now := now st;
     timers := timers st; controllers := v; awaiting := awaiting st;
     calls := calls st |}.

Definition set_awaiting (v : list (option request)) (st : state) : state :=
  {| ai := ai st; abortController := abortController st;
     debounceTimeout := debounceTimeout st; isLoading := isLoading st;
     providers := providers st; alerts := alerts st; toasts := toasts st;
     sessions := sessions st; promises := promises st; now := now st;
     timers := timers st; controllers := controllers st; awaiting := v;
     calls := calls st |}.

Definition set_calls (v : list generateContent) (st : state) : state :=
  {| ai := ai st; abortController := abortController st;
     debounceTimeout := debounceTimeout st; isLoading := isLoading st;
     providers := providers st; alerts := alerts st; toasts := toasts st;
     sessions := sessions st; promises := promises st; now := now st;
     timers := timers st; controllers := controllers st;
     awaiting := awaiting st; calls := v |}.

Definition aborted (c : nat) (st : state) : bool :=
  bool_decide (controllers st !! c = Some true).

Definition abort (c : nat) (st : state) : state :=
  set_controllers (<[c:=true]> (controllers st)) st.

(** [clearTimeout] of a field that may still be [null]. *)
Definition clearTimeout (id : option nat) (st : state) : state :=
  match id with
  | Some id => set_timers (<[id:=None]> (timers st)) st
  | None => st
  end.

Definition toast (msg : jsstring) (st : state) : state :=
  set_toasts (toasts st ++ [msg]) st.

Definition alert (title msg : jsstring) (st : state) : state :=
  set_alerts (alerts st ++ [(title, msg)]) st.

(** Calling a promise's [resolve]; only the first call has an effect. *)
Definition resolve (p : nat) (items : list candidate) (st : state) : state :=
  match promises st !! p with
  | Some None => set_promises (<[p:=Some items]> (promises st)) st
  | _ => st
  end.

(** The plugin object after [new GeminiAutocompletePlugin()]. *)
Definition constructed (sessions0 : nat -> Session) : state :=
  {| ai := None; abortController := None; debounceTimeout := None;
     isLoading := false; providers := 0; alerts := []; toasts := [];
     sessions := sessions0; promises := []; now := 0; timers := [];
     controllers := []; awaiting := []; calls := [] |}.

(** [init]; [settings] is [acode.require('settings').plugins[this.id]],
    absent when the host holds no settings for the plugin, and then reading
    [geminiApiKey] throws into the [catch]. *)
Definition init (settings : option (option jsstring)) (st : state) : state :=
  match settings with
  | None =>
      alert (JS.lit "Error")
        (JS.lit "Failed to initialize Gemini Autocomplete plugin. Check the Acode app console for details.")
        st
  | Some geminiApiKey =>
      match geminiApiKey with
      | Some (c :: k) =>
          let st := set_ai (Some {| apiKey := c :: k |}) st in
          let st := set_providers (S (providers st)) st in
          toast (JS.lit "Gemini Autocomplete is active.") st
      | _ =>
          alert (JS.lit "Error")
            (JS.lit "Gemini API Key is not set. Please configure it in the plugin settings.")
            st
      end
  end.

Definition destroy (st : state) : state :=
  let st := match abortController st with
            | Some c => abort c st
            | None => st
            end in
  clearTimeout (debounceTimeout st) st.

(** [#getCodeSuggestion] up to its [await]. *)
Definition getCodeSuggestion_call (st : state) (codeSnippet language : jsstring)
  : JS.Error + generateContent :=
  match ai st with
  | None => inl (JS.new_Error (JS.lit "Gemini AI client not initialized."))
  | Some _ =>
      inr {| call_snippet := codeSnippet;
             call_language := Some (JS.last_segment language) |}
  end.

(** The [catch] block.  It makes no [instanceof] test: [name] and [message]
    are read from whatever was thrown.  Where [message] holds no string,
    [errorMessage.includes] throws out of the block, before the toast and
    before [resolve] is reached; reading [name] of [null] or [undefined]
    throws out of it as well. *)
Definition catch_block (t : JS.thrown) (p : nat) (st : state) : state :=
  if negb (bool_decide (JS.name_of t = Some (JS.lit "AbortError"))) then
    match JS.message_of t with
    | Some message =>
        resolve p []
          (toast (JS.lit "Gemini Error: " ++ errorMessage message) st)
    | None => st
    end
  else resolve p [] st.

(** Reading [.signal] of a [null] controller. *)
Definition null_signal : JS.Error :=
  {| JS.name := JS.lit "TypeError";
     JS.message := JS.lit "Cannot read properties of null (reading 'signal')" |}.

(** The timer callback from the [await] on: the rest of [try], the [catch]
    and the [finally]. *)
Definition completion_resume (r : settled jsstring) (p : nat) (st : state)
  : state :=
  let st :=
    match r with
    | Fulfilled suggestion =>
        if JS.truthy suggestion then
          match abortController st with
          | Some c =>
              if negb (aborted c st)
              then resolve p [completion_item suggestion] st
              else resolve p [] st
          | None => catch_block (JS.ErrorObject null_signal) p st
          end
        else resolve p [] st
    | Rejected t => catch_block t p st
    end in
  set_isLoading false st.

(** The timer callback up to its [await]. *)
Definition on_timeout (cl : closure) (st : state) : state :=
  let st := if isLoading st then
              match abortController st with
              | Some c => abort c st
              | None => st
              end
            else st in
  let st := set_isLoading true st in
  let signal := length (controllers st) in
  let st := set_controllers (controllers st ++ [false]) st in
  let st := set_abortController (Some signal) st in
  let session := sessions st (cl_session cl) in
  let codeBeforeCursor := getTextRange session (cl_pos cl) in
  if length (JS.trim codeBeforeCursor) <? 10 then
    set_isLoading false (resolve (cl_resolve cl) [] st)
  else
    let st := toast (JS.lit "Gemini is thinking...") st in
    match getCodeSuggestion_call st codeBeforeCursor (getModeId session) with
    | inl e =>
        completion_resume (Rejected (JS.ErrorObject e)) (cl_resolve cl) st
    | inr call =>
        set_awaiting
          (awaiting st ++ [Some {| rq_signal := signal;
                                   rq_resolve := cl_resolve cl |}])
          (set_calls (calls st ++ [call]) st)
    end.

(** [#provideCompletions(editor, session, pos, prefix)]: a new promise, the
    pending timer cleared, a new timer set. *)
Definition provideCompletions (session : nat) (pos : Pos) (st : state) : state :=
  let p := length (promises st) in
  let st := set_promises (promises st ++ [None]) st in
  let st := clearTimeout (debounceTimeout st) st in
  let id := length (timers st) in
  let st := set_timers
              (timers st ++
                 [Some {| due := now st + 700;
                          callback := {| cl_session := session; cl_pos := pos;
                                         cl_resolve := p |} |}]) st in
  set_debounceTimeout (Some id) st.

Fixpoint run_timers (fuel deadline : nat) (st : state) : state :=
  match fuel with
  | 0 => st
  | S fuel' =>
      match next_timer (timers st) 0 with
      | Some (id, t) =>
          if due t <=? deadline then
            run_timers fuel' deadline
              (on_timeout (callback t)
                 (set_timers (<[id:=None]> (timers st))
                    (set_now (now st `max` due t) st)))
          else st
      | None => st
      end
  end.

Definition elapse (ms : nat) (st : state) : state :=
  let deadline := now st + ms in
  set_now deadline (run_timers (length (timers st)) deadline st).

(** What the host and the world can do.  The host calls the provider only
    once it is registered. *)
Inductive event :=
  | Init (settings : option (option jsstring))
  | Destroy
  | HostEdit (session : nat) (content : Session)
  | ProvideCompletions (session : nat) (pos : Pos)
  | Elapse (ms : nat)
  | Settle (r : nat) (o : transport_outcome).

Definition step (st : state) (e : event) : option state :=
  match e with
  | Init settings => Some (init settings st)
  | Destroy => Some (destroy st)
  | HostEdit s content =>
      Some (set_sessions
              (fun i => if bool_decide (i = s) then content else sessions st i) st)
  | ProvideCompletions s pos =>
      if 0 <? providers st then Some (provideCompletions s pos st) else None
  | Elapse ms => Some (elapse ms st)
  | Settle r o =>
      match awaiting st !! r with
      | Some (Some rq) =>
          let st := set_awaiting (<[r:=None]> (awaiting st)) st in
          Some (completion_resume
                  (getCodeSuggestion_resume (aborted (rq_signal rq) st) o)
                  (rq_resolve rq) st)
      | _ => None
      end
  end.

Fixpoint run (st : state) (evs : list event) : option state :=
  match evs with
  | [] => Some st
  | e :: evs' =>
      match step st e with
      | Some st' => run st' evs'
      | None => None
      end
  end.

Definition reachable (st : state) : Prop :=
  exists sessions0 evs, run (constructed sessions0) evs = Some st.

End Host.

End Plugin.


(** ** [components/Editor.tsx]: the editor pane *)

Module Editor.

(** What the component lays out: in the backdrop, a transparent copy of the
    code followed by the suggestion in grey; over it the textarea, whose
    value is the code. *)
Record view := {
  hidden_copy : jsstring;
  visible_suggestion : jsstring;
  textarea_value : jsstring
}.

Definition render (code inlineSuggestion : jsstring) : view :=
  {| hidden_copy := code;
     visible_suggestion := inlineSuggestion;
     textarea_value := code |}.

(** The text of the backdrop, span after span. *)
Definition backdrop_text (v : view) : jsstring :=
  hidden_copy v ++ visible_suggestion v.

End Editor.

(** The [<Editor>] element of [App]'s render. *)
Definition editor_of (st : App.state) : Editor.view :=
  Editor.render (App.code st) (App.inlineSuggestion st).

(** ** [components/Suggestion.tsx]: the list of suggestions *)

Module SuggestionsList.

Record props := {
  suggestions : list jsstring;
  isLoading : bool;
  error : option jsstring
}.

(** What the component renders inside its box: the "thinking" line, the
    error line with its text, and one button for each suggestion, whose
    click hands that suggestion to [onSuggestionClick]. *)
Record panel := {
  thinking : bool;
  error_line : option jsstring;
  buttons : list jsstring
}.

(** [error] as a condition: [null] and the empty string are falsy. *)
Definition error_truthy (e : option jsstring) : bool :=
  match e with
  | Some m => JS.truthy m
  | None => false
  end.

(** [None] is the component returning [null]. *)
Definition render (p : props) : option panel :=
  let hasContent :=
    (0 <? length (suggestions p)) || isLoading p || error_truthy (error p) in
  if negb hasContent then None
  else
    Some {| thinking := isLoading p;
            error_line := if error_truthy (error p) then error p else None;
            buttons := if negb (isLoading p) && (0 <? length (suggestions p))
                       then suggestions p else [] |}.

(** The argument [onSuggestionClick] gets from a click on the button at
    [index]. *)
Definition click (p : props) (index : nat) : option jsstring :=
  match render p with
  | Some v => buttons v !! index
  | None => None
  end.

End SuggestionsList.
(** * Vocabulary of the properties *)

(** A string of white space only; a string that does not begin, or end,
    with white space. *)
Definition white (s : jsstring) : Prop :=
  Forall (fun c => JS.is_white_space c = true) s.

Definition starts_clean (s : jsstring) : Prop :=
  match s with
  | [] => True
  | c :: _ => JS.is_white_space c = false
  end.

Definition ends_clean (s : jsstring) : Prop := starts_clean (rev s).

(** The number of timers still pending in a table. *)
Fixpoint pending {C} (ts : list (option (timer C))) : nat :=
  match ts with
  | [] => 0
  | Some _ :: ts' => S (pending ts')
  | None :: ts' => pending ts'
  end.

Definition tab : jsstring := JS.lit "Tab".

(** What holds of every state of the standalone editor (see
    [app_reachable_wf]): the effect's cleanup names an allocated timer and the
    current controller; a pending fetch timer is the one of the last run of
    the effect and carries the text [prev] of the last render; cursor timers
    are due at once; the textarea stays mounted; a suspended fetch listens
    to the current controller or to an aborted one. *)
Record app_wf_at (prev : jsstring) (st : App.state) : Prop := {
  wf_cleanup :
    exists h c, App.cleanup st = Some (h, c) /\
      h < length (App.timers st) /\ c < length (App.controllers st) /\
      App.requestAbortController st = Some c;
  wf_fetch : forall id d code' c',
    App.timers st !! id =
      Some (Some {| due := d; callback := App.FetchTask code' c' |}) ->
    App.cleanup st = Some (id, c') /\ code' = prev /\
    App.controllers st !! c' = Some false;
  wf_cursor : forall id d n,
    App.timers st !! id =
      Some (Some {| due := d; callback := App.CursorTask n |}) ->
    d <= App.now st;
  wf_editor : is_Some (App.editorRef st);
  wf_awaiting : forall r s,
    App.awaiting st !! r = Some (Some s) ->
    s < length (App.controllers st) /\
    (App.controllers st !! s = Some true \/
     exists h, App.cleanup st = Some (h, s))
}.

Definition app_wf (st : App.state) : Prop := app_wf_at (App.code st) st.

(** What the two halves of [fetchSuggestions] leave alone. *)
Definition same_world (st st' : App.state) : Prop :=
  App.code st' = App.code st /\ App.editorRef st' = App.editorRef st /\
  App.requestAbortController st' = App.requestAbortController st /\
  App.cleanup st' = App.cleanup st /\ App.env_API_KEY st' = App.env_API_KEY st /\
  App.now st' = App.now st /\ App.timers st' = App.timers st /\
  App.controllers st' = App.controllers st.

(** A burst of edits in the standalone editor: a first edit, then each later
    edit with the time since the edit before it. *)
Fixpoint app_burst (later : list (nat * jsstring)) : list App.event :=
  match later with
  | [] => []
  | (gap, value) :: rest => App.Elapse gap :: App.Change value :: app_burst rest
  end.

(** Every edit of the burst falls within [window] of the one before and
    changes the text. *)
Fixpoint app_burst_ok (window : nat) (prev : jsstring)
    (later : list (nat * jsstring)) : Prop :=
  match later with
  | [] => True
  | (gap, value) :: rest =>
      gap < window /\ value <> prev /\ app_burst_ok window value rest
  end.

Fixpoint app_burst_last (first : jsstring) (later : list (nat * jsstring))
  : jsstring :=
  match later with
  | [] => first
  | (_, value) :: rest => app_burst_last value rest
  end.

(** The calls that go out when the debounce timer of the standalone editor
    runs on [text]. *)
Definition app_calls (API_KEY : option jsstring) (text : jsstring)
  : list generateContent :=
  if (length (JS.trim text) <? 3) || missing_API_KEY API_KEY then []
  else [{| call_snippet := text; call_language := None |}].

Definition no_fetch_pending (st : App.state) : Prop :=
  forall id d text c,
    App.timers st !! id <>
      Some (Some {| due := d; callback := App.FetchTask text c |}).

(** The state of the standalone editor right after an edit of a burst whose
    timers start at id [first_id]: the timer of this edit is the last one
    set, carries [text] and is due in 500 ms; the burst's earlier timers are
    gone. *)
Definition armed (st : App.state) (first_id : nat) (text : jsstring) : Prop :=
  exists h c,
    App.cleanup st = Some (h, c) /\
    App.timers st !! h =
      Some (Some {| due := App.now st + 500; callback := App.FetchTask text c |}) /\
    length (App.timers st) = S h /\ first_id <= h /\
    forall id, first_id <= id -> id < h -> App.timers st !! id = Some None.

(** The thrown values that the plugin's [catch] block takes through to its
    [resolve]: those named [AbortError], whose [message] is not read, and
    those with a string under [message].  Every [Error] object is one. *)
Definition caught (t : JS.thrown) : Prop :=
  JS.name_of t = Some (JS.lit "AbortError") \/ is_Some (JS.message_of t).

(** What the plugin may resolve a promise with. *)
Definition well_formed_items (items : list Plugin.candidate) : Prop :=
  items = [] \/
  exists suggestion, suggestion <> [] /\ items = [Plugin.completion_item suggestion].

(** What holds of every state of the plugin (see [plugin_reachable_wf]):
    without a client nothing is registered and no timer was ever set, and a
    client holds a key; the only timer that can be pending is the one in
    [#debounceTimeout]; the promise held by a pending timer or by a
    suspended call is pending, and no two of them hold the same promise; a
    promise is resolved with no item or with one item built from a
    suggestion that is not empty. *)
Record plugin_wf {Session Pos : Type} (st : @Plugin.state Session Pos) : Prop := {
  pw_client :
    match Plugin.ai st with
    | None => Plugin.providers st = 0 /\ Plugin.timers st = []
    | Some client => Plugin.apiKey client <> []
    end;
  pw_timer : forall id t,
    Plugin.timers st !! id = Some (Some t) ->
    Plugin.debounceTimeout st = Some id /\
    Plugin.promises st !! Plugin.cl_resolve (callback t) = Some None;
  pw_awaiting : forall r rq,
    Plugin.awaiting st !! r = Some (Some rq) ->
    Plugin.promises st !! Plugin.rq_resolve rq = Some None;
  pw_timer_awaiting : forall id t r rq,
    Plugin.timers st !! id = Some (Some t) ->
    Plugin.awaiting st !! r = Some (Some rq) ->
    Plugin.cl_resolve (callback t) <> Plugin.rq_resolve rq;
  pw_awaiting_inj : forall r r' rq rq',
    Plugin.awaiting st !! r = Some (Some rq) ->
    Plugin.awaiting st !! r' = Some (Some rq') ->
    Plugin.rq_resolve rq = Plugin.rq_resolve rq' -> r = r';
  pw_items : forall p items,
    Plugin.promises st !! p = Some (Some items) -> well_formed_items items
}.

(** What the plugin's timer callback and the settlement of a call leave
    alone. *)
Definition same_host {Session Pos : Type} (st st' : @Plugin.state Session Pos)
  : Prop :=
  Plugin.ai st' = Plugin.ai st /\
  Plugin.debounceTimeout st' = Plugin.debounceTimeout st /\
  Plugin.providers st' = Plugin.providers st /\
  Plugin.sessions st' = Plugin.sessions st /\
  Plugin.now st' = Plugin.now st /\ Plugin.timers st' = Plugin.timers st /\
  length (Plugin.promises st') = length (Plugin.promises st).

(** How the promise table moves when promise [p] is the one at stake: any
    other promise stays as it is, and [p] stays or goes from pending to
    resolved. *)
Definition settles_only {Session Pos : Type} (p : nat)
    (st st' : @Plugin.state Session Pos) : Prop :=
  forall q,
    Plugin.promises st' !! q = Plugin.promises st !! q \/
    q = p /\ Plugin.promises st !! p = Some None /\
    exists items,
      Plugin.promises st' !! q = Some (Some items) /\ well_formed_items items.

(** Promise [p] of the plugin is pending and nothing holds its [resolve]
    any more: no pending timer, no suspended call. *)
Definition orphan {Session Pos : Type} (p : nat)
    (st : @Plugin.state Session Pos) : Prop :=
  Plugin.promises st !! p = Some None /\
  (forall id t, Plugin.timers st !! id = Some (Some t) ->
     Plugin.cl_resolve (callback t) <> p) /\
  (forall r rq, Plugin.awaiting st !! r = Some (Some rq) ->
     Plugin.rq_resolve rq <> p).

(** An edit in the host: the session's content changes and the host asks the
    provider for completions at a position. *)
Definition plugin_edit {Session Pos : Type} (e : nat * Session * Pos)
  : list (@Plugin.event Session Pos) :=
  let '(s, content, pos) := e in
  [Plugin.HostEdit s content; Plugin.ProvideCompletions s pos].

(** The later edits of a burst, each with the time since the edit before. *)
Fixpoint plugin_burst {Session Pos : Type}
    (later : list (nat * (nat * Session * Pos)))
  : list (@Plugin.event Session Pos) :=
  match later with
  | [] => []
  | (gap, e) :: rest => Plugin.Elapse gap :: plugin_edit e ++ plugin_burst rest
  end.

Definition plugin_burst_ok {Session Pos : Type} (window : nat)
    (later : list (nat * (nat * Session * Pos))) : Prop :=
  Forall (fun ge => fst ge < window) later.

Fixpoint plugin_burst_last {Session Pos : Type} (first : nat * Session * Pos)
    (later : list (nat * (nat * Session * Pos))) : nat * Session * Pos :=
  match later with
  | [] => first
  | (_, e) :: rest => plugin_burst_last e rest
  end.

(** The calls that go out when the plugin's debounce timer runs on a
    session with this content, for this position. *)
Definition plugin_calls {Session Pos : Type}
    (getTextRange : Session -> Pos -> jsstring) (getModeId : Session -> jsstring)
    (e : nat * Session * Pos) : list generateContent :=
  let '(_, content, pos) := e in
  let text := getTextRange content pos in
  if length (JS.trim text) <? 10 then []
  else [{| call_snippet := text;
           call_language := Some (JS.last_segment (getModeId content)) |}].

(** The state of the plugin right after an edit of a burst whose timers
    start at id [first_id]. *)
Definition plugin_armed {Session Pos : Type} (st : @Plugin.state Session Pos)
    (first_id : nat) (e : nat * Session * Pos) : Prop :=
  let '(s, content, pos) := e in
  Plugin.sessions st s = content /\
  exists h p,
    Plugin.debounceTimeout st = Some h /\
    Plugin.timers st !! h =
      Some (Some {| due := Plugin.now st + 700;
                    callback := {| Plugin.cl_session := s; Plugin.cl_pos := pos;
                                   Plugin.cl_resolve := p |} |}) /\
    length (Plugin.timers st) = S h /\ first_id <= h /\
    forall id, first_id <= id -> id < h -> Plugin.timers st !! id = Some None.


(** A host to run the plugin on: a session is a text with a mode id, a
    position is an offset into the text. *)
Definition flat_getTextRange (session : jsstring * jsstring) (pos : nat)
  : jsstring := take pos (fst session).

Definition flat_getModeId (session : jsstring * jsstring) : jsstring :=
  snd session.

Definition greet : jsstring * jsstring :=
  (JS.lit "function greet(name) {", JS.lit "ace/mode/javascript").

(** The plugin initialised with a key, on a host whose sessions all hold
    [greet]. *)
Definition plugin_started : @Plugin.state (jsstring * jsstring) nat :=
  Plugin.init (Some (Some (JS.lit "key"))) (Plugin.constructed (fun _ => greet)).

Definition flat_run :=
  Plugin.run flat_getTextRange flat_getModeId.

(** Three invocations, each after the timer of the one before has run; the
    first two calls are answered late. *)
Definition three_requests (first second : transport_outcome)
  : list (@Plugin.event (jsstring * jsstring) nat) :=
  [Plugin.ProvideCompletions 0 22; Plugin.Elapse 700;
   Plugin.ProvideCompletions 0 22; Plugin.Elapse 700;
   Plugin.Settle 0 first;
   Plugin.ProvideCompletions 0 22; Plugin.Elapse 700;
   Plugin.Settle 1 second].

(** The standalone editor, mounted with a key, once the service has
    answered the first request. *)
Definition app_suggesting : App.state :=
  default (App.mount None)
    (App.run (service := GeminiService2.service) (App.mount (Some (JS.lit "key")))
       [App.Elapse 500;
        App.Settle 0 (Response (Some (JS.lit "console.log(name);" ++ [10%N] ++
                                      JS.lit "}")))]).

(** Two invocations 100 ms apart, the call answered with ["foo"]. *)
Definition two_invocations : list (@Plugin.event (jsstring * jsstring) nat) :=
  [Plugin.ProvideCompletions 0 22; Plugin.Elapse 100;
   Plugin.ProvideCompletions 0 22; Plugin.Elapse 700;
   Plugin.Settle 0 (Response (Some (JS.lit "foo")))].

Definition plugin_answered : @Plugin.state (jsstring * jsstring) nat :=
  default plugin_started (flat_run plugin_started two_invocations).




(** Either front end with its first call out and not yet answered. *)
Definition app_requesting : App.state :=
  App.elapse 500 (App.mount (Some (JS.lit "key"))).

Definition plugin_requesting : @Plugin.state (jsstring * jsstring) nat :=
  Plugin.elapse flat_getTextRange flat_getModeId 700
    (Plugin.provideCompletions 0 22 plugin_started).

(** * Vocabulary of the further properties *)

(** What a run of [fetchSuggestions] can change: the three pieces of React
    state it sets, the suspended fetches and the calls made. *)
Definition app_status (st : App.state) :=
  (App.inlineSuggestion st, App.isLoading st, App.error st,
   App.awaiting st, App.calls st).

(** The messages of the errors [getCodeSuggestions] raises. *)
Definition service_messages : list jsstring :=
  [JS.lit "API_KEY environment variable is not set.";
   JS.lit "Invalid API Key. Please check your configuration.";
   JS.lit "Failed to get suggestions from Gemini."].

(** A client whose rejections all come out of the [catch] block of
    [getCodeSuggestions]. *)
Definition friendly_service (service : GeminiService) : Prop :=
  forall o t,
    getCodeSuggestions_resume o = Rejected t ->
    exists t0, t = JS.ErrorObject (friendly_error t0).

(** The events of the standalone editor that come from the keyboard, and
    their number in a run. *)
Definition app_edit (e : App.event) : bool :=
  match e with
  | App.Change _ | App.KeyDown _ => true
  | _ => false
  end.

Fixpoint app_edits (evs : list App.event) : nat :=
  match evs with
  | [] => 0
  | e :: evs' => (if app_edit e then 1 else 0) + app_edits evs'
  end.

(** A run of the standalone editor in which the text is not typed into. *)
Definition no_change (evs : list App.event) : Prop :=
  Forall (fun e => forall value, e <> App.Change value) evs.

(** The state of the standalone editor while a short text waits, or has
    waited, for its timer: nothing shown, the loading flag and the error as
    they were ([loading], [shown]), and every suspended fetch aborted. *)
Definition stalled (value : jsstring) (loading : bool) (shown : option jsstring)
    (sent : list generateContent) (s : App.state) : Prop :=
  app_wf s /\ App.code s = value /\ App.inlineSuggestion s = [] /\
  App.isLoading s = loading /\ App.error s = shown /\ App.calls s = sent /\
  forall r sig, App.awaiting s !! r = Some (Some sig) ->
    App.controllers s !! sig = Some true.

(** The calls of the standalone editor and its suspended fetches go in
    step; a fetch that is not aborted waits on the call made for the text
    now in the editor; a suggestion on display means such a call was made. *)
Definition answers_current_text (s : App.state) : Prop :=
  length (App.awaiting s) = length (App.calls s) /\
  (forall r sig,
     App.awaiting s !! r = Some (Some sig) -> App.aborted sig s = false ->
     call_snippet <$> App.calls s !! r = Some (App.code s)) /\
  (App.inlineSuggestion s <> [] ->
   exists r, call_snippet <$> App.calls s !! r = Some (App.code s)).

(** The calls made so far stay within [n], with room for one more while a
    fetch timer is pending. *)
Definition within_budget (n : nat) (s : App.state) : Prop :=
  length (App.calls s) <= n /\
  (length (App.calls s) < n \/ no_fetch_pending s).

(** One controller is live: the one in [requestAbortController]. *)
Definition one_live_controller (s : App.state) : Prop :=
  exists c,
    App.requestAbortController s = Some c /\
    App.controllers s !! c = Some false /\
    forall c', App.controllers s !! c' = Some false -> c' = c.

(** The plugin's timer callback up to its reading of the text: a request
    said to be in flight is aborted, the flag goes up, a new controller is
    made. *)
Definition fresh_controller {Session Pos : Type}
    (st : @Plugin.state Session Pos) : @Plugin.state Session Pos :=
  let st := if Plugin.isLoading st then
              match Plugin.abortController st with
              | Some c => Plugin.abort c st
              | None => st
              end
            else st in
  let st := Plugin.set_isLoading true st in
  let signal := length (Plugin.controllers st) in
  let st := Plugin.set_controllers (Plugin.controllers st ++ [false]) st in
  Plugin.set_abortController (Some signal) st.

Definition thinking : jsstring := JS.lit "Gemini is thinking...".

(** Events of the plugin counted by kind. *)
Fixpoint count_events {Session Pos : Type}
    (kind : @Plugin.event Session Pos -> bool)
    (evs : list (@Plugin.event Session Pos)) : nat :=
  match evs with
  | [] => 0
  | e :: evs' => (if kind e then 1 else 0) + count_events kind evs'
  end.

(** [init] with a key that is set, and [init] without one. *)
Definition init_with_key {Session Pos : Type} (e : @Plugin.event Session Pos)
  : bool :=
  match e with
  | Plugin.Init (Some (Some (_ :: _))) => true
  | _ => false
  end.

Definition init_without_key {Session Pos : Type} (e : @Plugin.event Session Pos)
  : bool :=
  match e with
  | Plugin.Init (Some (Some (_ :: _))) => false
  | Plugin.Init _ => true
  | _ => false
  end.

(** A run of the plugin in which the host does not ask for completions. *)
Definition no_invocation {Session Pos : Type}
    (evs : list (@Plugin.event Session Pos)) : Prop :=
  Forall (fun e => forall s pos, e <> Plugin.ProvideCompletions s pos) evs.

(** The plugin after [destroy], until it is invoked again: no timer is
    pending, the controller in [#abortController] is aborted, the calls are
    those made [before], and a promise resolved since is resolved with no
    item. *)
Definition silenced {Session Pos : Type} (before st : @Plugin.state Session Pos)
  : Prop :=
  (forall id t, Plugin.timers st !! id <> Some (Some t)) /\
  match Plugin.abortController st with
  | Some c => Plugin.controllers st !! c = Some true
  | None => True
  end /\
  Plugin.calls st = Plugin.calls before /\
  forall p items,
    Plugin.promises st !! p = Some (Some items) ->
    Plugin.promises before !! p = Some (Some items) \/ items = [].

(** The code unit of ["/"] and of the line feed. *)
Definition slash : N := 47.
Definition line_feed : N := 10.

(** A fetch of the standalone editor that still listens: it is suspended
    and its signal is not aborted. *)
Definition listening (s : App.state) (r : nat) : Prop :=
  exists sig, App.awaiting s !! r = Some (Some sig) /\ App.aborted sig s = false.

(** While a fetch listens it is the only one that does, the loading flag
    is up, no error is shown and no fetch timer is pending; while a
    suggestion is on display no fetch listens, the flag is down, no error
    is shown and no fetch timer is pending. *)
Definition display_consistent (s : App.state) : Prop :=
  (forall r, listening s r ->
     App.isLoading s = true /\ App.error s = None /\ no_fetch_pending s /\
     forall r', listening s r' -> r' = r) /\
  (App.inlineSuggestion s <> [] ->
     App.isLoading s = false /\ App.error s = None /\ no_fetch_pending s /\
     forall r, ~ listening s r).

(** The standalone editor started without a key, once its first timer has
    run. *)
Definition app_keyless : App.state := App.elapse 500 (App.mount None).

(** With the first call out, the text is replaced by ["a"]; the timer of
    that edit runs, the first call is answered, and time passes. *)
Definition stalled_events : list App.event :=
  [App.Elapse 500; App.Settle 0 (Response (Some (JS.lit "x"))); App.Elapse 3000].

Definition app_stalled : App.state :=
  default (App.mount None)
    (App.run (service := GeminiService2.service) app_requesting
       (App.Change (JS.lit "a") :: stalled_events)).

(** With the first call out, the text is replaced by ["let x"], and the
    first call is answered 100 ms later. *)
Definition app_retyped : App.state :=
  default (App.mount None)
    (App.step (service := GeminiService2.service) app_requesting
       (App.Change (JS.lit "let x"))).

Definition app_retyped_later : App.state := App.elapse 100 app_retyped.

(** The plugin, its first call out, then destroyed; the call is answered
    and time passes. *)
Definition silent_events : list (@Plugin.event (jsstring * jsstring) nat) :=
  [Plugin.Settle 0 (Response (Some (JS.lit "foo"))); Plugin.Elapse 1000].

Definition plugin_destroyed : @Plugin.state (jsstring * jsstring) nat :=
  default plugin_started
    (flat_run plugin_requesting (Plugin.Destroy :: silent_events)).

(** The plugin initialised, destroyed, initialised without a key and
    initialised again. *)
Definition init_events : list (@Plugin.event (jsstring * jsstring) nat) :=
  [Plugin.Init (Some (Some (JS.lit "key"))); Plugin.Destroy;
   Plugin.Init (Some None); Plugin.Init (Some (Some (JS.lit "key")))].

Definition plugin_reinitialised : @Plugin.state (jsstring * jsstring) nat :=
  default plugin_started
    (flat_run (Plugin.constructed (fun _ => greet)) init_events).

(** The first call of the plugin answered with ["foo"]. *)
Definition plugin_first_answered : @Plugin.state (jsstring * jsstring) nat :=
  default plugin_started
    (Plugin.step flat_getTextRange flat_getModeId plugin_requesting
       (Plugin.Settle 0 (Response (Some (JS.lit "foo"))))).

(** A session whose text was edited while the timer was pending. *)
Definition answer_42 : jsstring * jsstring :=
  (JS.lit "const answer = 42;", JS.lit "ace/mode/typescript").

(** The controller the plugin holds while its first call is out. *)
Definition first_request : Plugin.request :=
  {| Plugin.rq_signal := 0; Plugin.rq_resolve := 0 |}.

(** The plugin destroyed while its first call is out. *)
Definition plugin_cancelled : @Plugin.state (jsstring * jsstring) nat :=
  Plugin.destroy plugin_requesting.

Definition plugin_cancelled_answered : @Plugin.state (jsstring * jsstring) nat :=
  default plugin_started
    (Plugin.step flat_getTextRange flat_getModeId plugin_cancelled
       (Plugin.Settle 0 (Response (Some (JS.lit "foo"))))).

(** Two suggestions to list, neither loading nor in error. *)
Definition two_suggestions : SuggestionsList.props :=
  {| SuggestionsList.suggestions := [JS.lit "foo()"; JS.lit "bar()"];
     SuggestionsList.isLoading := false;
     SuggestionsList.error := None |}.

Definition two_buttons : SuggestionsList.panel :=
  {| SuggestionsList.thinking := false;
     SuggestionsList.error_line := None;
     SuggestionsList.buttons := [JS.lit "foo()"; JS.lit "bar()"] |}.
(** * Properties *)

(** ** Strings *)

Lemma trimStart_split (s : jsstring) :
  exists lead, s = lead ++ JS.trimStart s /\ white lead /\ starts_clean (JS.trimStart s).
Proof.
  induction s as [|c r IH]; simpl.
  - exists []. repeat split; constructor.
  - destruct (JS.is_white_space c) eqn:Hc.
    + destruct IH as (lead & Heq & Hw & Hs).
      exists (c :: lead). repeat split; [simpl; congruence | by constructor | done].
    + exists []. repeat split; [constructor | done].
Qed.

Lemma trimEnd_split (s : jsstring) :
  exists trail, s = JS.trimEnd s ++ trail /\ white trail /\ ends_clean (JS.trimEnd s).
Proof.
  unfold JS.trimEnd, ends_clean.
  destruct (trimStart_split (rev s)) as (lead & Heq & Hw & Hs).
  exists (rev lead). repeat split.
  - rewrite <- rev_app_distr, <- Heq. by rewrite rev_involutive.
  - by apply Forall_rev.
  - by rewrite rev_involutive.
Qed.

Lemma starts_clean_trimEnd (s : jsstring) :
  starts_clean s -> starts_clean (JS.trimEnd s).
Proof.
  intros Hs. destruct (trimEnd_split s) as (trail & Heq & Hw & _).
  destruct (JS.trimEnd s) as [|c r] eqn:E; [done|].
  rewrite Heq in Hs. exact Hs.
Qed.

Lemma trim_split (s : jsstring) :
  exists lead trail,
    s = lead ++ JS.trim s ++ trail /\ white lead /\ white trail /\
    starts_clean (JS.trim s) /\ ends_clean (JS.trim s).
Proof.
  unfold JS.trim.
  destruct (trimStart_split s) as (lead & Heq & Hw & Hs).
  destruct (trimEnd_split (JS.trimStart s)) as (trail & Heq' & Hw' & He).
  exists lead, trail. repeat split; try done.
  - by rewrite <- Heq'.
  - by apply starts_clean_trimEnd.
Qed.

Lemma eqb_true (a b : jsstring) : JS.eqb a b = true <-> a = b.
Proof. unfold JS.eqb. by rewrite bool_decide_eq_true. Qed.

Lemma eqb_false (a b : jsstring) : JS.eqb a b = false <-> a <> b.
Proof. unfold JS.eqb. by rewrite bool_decide_eq_false. Qed.

Lemma truthy_true (s : jsstring) : JS.truthy s = true <-> s <> [].
Proof. by destruct s. Qed.

(** ** The clients' handling of the response text *)

(** C3, as the code has it: of the two copies of the standalone client one
    strips leading white space only and the other strips both ends (what is
    stripped is white space, and nothing white is left at a stripped end);
    the plugin's client returns the text of the response as it came. *)
Theorem response_text_trimming (t : jsstring) :
  (exists lead,
     GeminiService1.resume (Response (Some t)) = Fulfilled (JS.trimStart t) /\
     t = lead ++ JS.trimStart t /\ white lead /\ starts_clean (JS.trimStart t)) /\
  (exists lead trail,
     GeminiService2.resume (Response (Some t)) = Fulfilled (JS.trim t) /\
     t = lead ++ JS.trim t ++ trail /\ white lead /\ white trail /\
     starts_clean (JS.trim t) /\ ends_clean (JS.trim t)) /\
  Plugin.getCodeSuggestion_resume false (Response (Some t)) = Fulfilled t.
Proof.
  split; [|split].
  - destruct (trimStart_split t) as (lead & Heq & Hw & Hs).
    exists lead. repeat split; try done.
    simpl. by destruct (JS.trimStart t).
  - destruct (trim_split t) as (lead & trail & Heq & Hw & Hw' & Hs & He).
    exists lead, trail. repeat split; try done.
    simpl. by destruct t.
  - simpl. by destruct t.
Qed.

(** C3 as stated fails for the plugin: leading white space of the response
    stays in what its client returns. *)
Lemma plugin_keeps_leading_space :
  Plugin.getCodeSuggestion_resume false (Response (Some (JS.lit " x")))
  <> Fulfilled (JS.trimStart (JS.lit " x")).
Proof. vm_compute. discriminate. Qed.

(** ** The timer table *)

Section Timers.
Context {C : Type}.
Implicit Types (ts : list (option (timer C))) (t u : timer C).

Lemma next_timer_lookup ts i id t :
  next_timer ts i = Some (id, t) -> i <= id /\ ts !! (id - i) = Some (Some t).
Proof.
  revert i. induction ts as [|o ts IH]; intros i; simpl; [done|].
  destruct o as [t0|].
  - destruct (next_timer ts (S i)) as [[j u]|] eqn:E.
    + destruct (due u <? due t0) eqn:Hlt; intros [= <- <-].
      * destruct (IH _ E) as [Hle Hl]. split; [lia|].
        replace (j - i) with (S (j - S i)) by lia. done.
      * split; [lia|]. by rewrite Nat.sub_diag.
    + intros [= <- <-]. split; [lia|]. by rewrite Nat.sub_diag.
  - intros E. destruct (IH _ E) as [Hle Hl]. split; [lia|].
    replace (id - i) with (S (id - S i)) by lia. done.
Qed.

Lemma next_timer_None ts i j u :
  next_timer ts i = None -> ts !! j = Some (Some u) -> False.
Proof.
  revert i j. induction ts as [|o ts IH]; intros i j; simpl; [done|].
  destruct o as [t0|].
  - by destruct (next_timer ts (S i)) as [[? ?]|]; [destruct (_ <? _)|].
  - intros E Hj. destruct j; [done|]. eauto.
Qed.

Lemma next_timer_least ts i id t j u :
  next_timer ts i = Some (id, t) -> ts !! j = Some (Some u) ->
  due t < due u \/ (due t = due u /\ id <= i + j).
Proof.
  revert i j id t. induction ts as [|o ts IH]; intros i j id t; simpl; [done|].
  destruct o as [t0|].
  - destruct (next_timer ts (S i)) as [[k v]|] eqn:E.
    + destruct (due v <? due t0) eqn:Hlt; intros [= <- <-] Hj.
      * apply Nat.ltb_lt in Hlt. destruct j as [|j]; simpl in Hj.
        -- injection Hj as <-. lia.
        -- destruct (IH _ _ _ _ E Hj); lia.
      * apply Nat.ltb_ge in Hlt. destruct j as [|j]; simpl in Hj.
        -- injection Hj as <-. lia.
        -- destruct (IH _ _ _ _ E Hj); lia.
    + intros [= <- <-] Hj. destruct j as [|j]; simpl in Hj.
      * injection Hj as <-. lia.
      * destruct (next_timer_None _ _ _ _ E Hj).
  - intros E Hj. destruct j as [|j]; simpl in Hj; [done|].
    destruct (IH _ _ _ _ E Hj); lia.
Qed.

Lemma pending_clear ts id t :
  ts !! id = Some (Some t) -> S (pending (<[id:=None]> ts)) = pending ts.
Proof.
  revert id. induction ts as [|o ts IH]; intros id; [done|].
  destruct id as [|id]; simpl.
  - by intros [= ->].
  - intros H. destruct o; simpl; by rewrite <- (IH _ H).
Qed.

Lemma pending_le_length ts : pending ts <= length ts.
Proof. induction ts as [|[?|] ts IH]; simpl; lia. Qed.

Lemma pending_pos ts id t : ts !! id = Some (Some t) -> 0 < pending ts.
Proof. intros H. rewrite <- (pending_clear _ _ _ H). lia. Qed.

End Timers.

(** ** The standalone editor *)

Section AppProperties.
Context {service : GeminiService}.
Import App.
Implicit Types (st : App.state).

Lemma rerender_same st0 st : code st = code st0 -> rerender (code st0) st = st.
Proof.
  intros H. unfold rerender. rewrite <- H.
  by replace (JS.eqb (code st) (code st)) with true by (symmetry; by apply eqb_true).
Qed.

Lemma rerender_changed prev st :
  prev <> code st -> rerender prev st = effect (run_cleanup st).
Proof. intros H. unfold rerender. by apply eqb_false in H as ->. Qed.

Lemma handleKeyDown_accept st :
  inlineSuggestion st <> [] ->
  handleKeyDown tab st =
    (setTimeout (CursorTask (length (code st ++ inlineSuggestion st))) 0
       (set_inlineSuggestion [] (set_code (code st ++ inlineSuggestion st) st)),
     true).
Proof.
  intros H. unfold handleKeyDown.
  apply truthy_true in H. rewrite H.
  replace (JS.eqb tab (JS.lit "Tab")) with true; [done|].
  symmetry. by apply eqb_true.
Qed.

Lemma handleKeyDown_ignore key st :
  key <> tab \/ inlineSuggestion st = [] -> handleKeyDown key st = (st, false).
Proof.
  intros H. unfold handleKeyDown.
  destruct H as [H| ->].
  - apply eqb_false in H. unfold tab in H. by rewrite H.
  - simpl. by rewrite andb_false_r.
Qed.

Lemma effect_fields st :
  code (effect st) = code st /\
  inlineSuggestion (effect st) = inlineSuggestion st /\
  isLoading (effect st) = isLoading st /\
  error (effect st) = error st /\
  editorRef (effect st) = editorRef st /\
  now (effect st) = now st /\
  awaiting (effect st) = awaiting st /\
  calls (effect st) = calls st /\
  env_API_KEY (effect st) = env_API_KEY st.
Proof. unfold effect. by destruct (requestAbortController st). Qed.

Lemma run_cleanup_fields st :
  code (run_cleanup st) = code st /\
  inlineSuggestion (run_cleanup st) = inlineSuggestion st /\
  isLoading (run_cleanup st) = isLoading st /\
  error (run_cleanup st) = error st /\
  editorRef (run_cleanup st) = editorRef st /\
  now (run_cleanup st) = now st /\
  awaiting (run_cleanup st) = awaiting st /\
  calls (run_cleanup st) = calls st /\
  env_API_KEY (run_cleanup st) = env_API_KEY st /\
  requestAbortController (run_cleanup st) = requestAbortController st.
Proof. unfold run_cleanup. by destruct (cleanup st) as [[? ?]|]. Qed.

(** The effect run again from a state whose cleanup holds timer [h] and
    controller [c], the controller being the one in the ref. *)
Lemma effect_after_cleanup st h c :
  cleanup st = Some (h, c) -> requestAbortController st = Some c ->
  let st' := effect (run_cleanup st) in
  timers st' =
    <[h:=None]> (timers st) ++
      [Some {| due := now st + 500;
               callback := FetchTask (code st) (length (controllers st)) |}] /\
  controllers st' = <[c:=true]> (controllers st) ++ [false] /\
  cleanup st' = Some (length (timers st), length (controllers st)) /\
  requestAbortController st' = Some (length (controllers st)).
Proof.
  intros Hc Hr. unfold effect, run_cleanup. rewrite Hc. simpl. rewrite Hr. simpl.
  rewrite !length_insert, list_insert_insert_eq. done.
Qed.

Lemma wf_handleCodeChange value st :
  app_wf st -> app_wf_at (code st) (handleCodeChange value st).
Proof. intros [H1 H2 H3 H4 H5]. by split. Qed.

Lemma wf_handleKeyDown key st :
  app_wf st -> app_wf_at (code st) (fst (handleKeyDown key st)).
Proof.
  intros Hwf. unfold handleKeyDown.
  destruct (_ && _); [|exact Hwf].
  destruct Hwf as [(h & c & Hc & Hh & Hlt & Hr) H2 H3 H4 H5].
  split; simpl; try done.
  - exists h, c. rewrite length_app. repeat split; try done. lia.
  - intros id d code' c' [[_ Hl]|[_ [=]]]%lookup_snoc_Some. eauto.
  - intros id d n [[_ Hl]|[_ [= <- _]]]%lookup_snoc_Some; [eauto | lia].
Qed.

Lemma wf_rerender prev st : app_wf_at prev st -> app_wf (rerender prev st).
Proof.
  intros Hwf. unfold rerender. destruct (JS.eqb prev (code st)) eqn:E.
  { apply eqb_true in E as ->. exact Hwf. }
  destruct Hwf as [(h & c & Hc & Hh & Hlt & Hr) H2 H3 H4 H5].
  destruct (effect_after_cleanup st h c Hc Hr) as (Ht & Hcs & Hcl & Hrq).
  destruct (effect_fields (run_cleanup st))
    as (Ecode & _ & _ & _ & Eed & Enow & Eaw & _).
  destruct (run_cleanup_fields st) as (Ccode & _ & _ & _ & Ced & Cnow & Caw & _).
  split.
  - eexists _, _. split; [exact Hcl|]. rewrite Ht, Hcs, Hrq, !length_app, !length_insert.
    simpl. repeat split; lia.
  - intros id d code' c'. rewrite Ht, Hcs, Hcl, Ecode, Ccode.
    intros [[_ Hl]|[-> [= <- <- <-]]]%lookup_snoc_Some.
    + apply list_lookup_insert_Some in Hl as [(_ & [=] & _)|[Hne Hl]].
      destruct (H2 _ _ _ _ Hl) as (Hc' & _). congruence.
    + split; [by rewrite length_insert|]. split; [done|].
      rewrite lookup_app_r; rewrite length_insert; [|lia].
      by rewrite Nat.sub_diag.
  - intros id d n. rewrite Ht, Enow, Cnow.
    intros [[_ Hl]|[_ [=]]]%lookup_snoc_Some.
    apply list_lookup_insert_Some in Hl as [(_ & [=] & _)|[Hne Hl]]. eauto.
  - by rewrite Eed, Ced.
  - intros r s. rewrite Eaw, Caw, Hcs, Hcl. intros Hl.
    destruct (H5 _ _ Hl) as [Hs Hor]. rewrite length_app, length_insert.
    split; [lia|]. left. rewrite lookup_app_l by (rewrite length_insert; lia).
    destruct Hor as [Ha|[h' Hh']].
    + destruct (decide (c = s)) as [->|Hne].
      * by apply list_lookup_insert_eq.
      * by rewrite list_lookup_insert_ne.
    + assert (s = c) as -> by congruence. by apply list_lookup_insert_eq.
Qed.

Lemma wf_mount API_KEY : app_wf (mount API_KEY).
Proof.
  split; simpl.
  - exists 0, 0. repeat split; lia.
  - intros [|[|id]] d code' c'; [|done..]. intros [= <- <- <-]. done.
  - intros [|[|id]] d n; done.
  - by eexists.
  - intros r s. by rewrite lookup_nil.
Qed.

Lemma fetchSuggestions_resume_frame signal r st :
  same_world st (fetchSuggestions_resume signal r st) /\
  awaiting (fetchSuggestions_resume signal r st) = awaiting st /\
  calls (fetchSuggestions_resume signal r st) = calls st.
Proof.
  unfold fetchSuggestions_resume, same_world, aborted.
  destruct r; simpl; repeat case_match; simpl; done.
Qed.

Lemma fetchSuggestions_frame currentCode signal st :
  same_world st (fetchSuggestions currentCode signal st) /\
  (awaiting (fetchSuggestions currentCode signal st) = awaiting st \/
   awaiting (fetchSuggestions currentCode signal st) = awaiting st ++ [Some signal]).
Proof.
  unfold fetchSuggestions.
  destruct (_ <? 3); [by repeat split; auto|].
  destruct (getCodeSuggestions_call _ _) as [e|call].
  - match goal with |- context [fetchSuggestions_resume ?s ?r ?x] =>
      destruct (fetchSuggestions_resume_frame s r x) as (Hw & Ha & _) end.
    split; [exact Hw | left; exact Ha].
  - split; [done | by right].
Qed.

Lemma wf_same_world st st' :
  same_world st st' ->
  (forall r s, awaiting st' !! r = Some (Some s) ->
     awaiting st !! r = Some (Some s) \/
     exists h, cleanup st = Some (h, s) /\ s < length (controllers st)) ->
  app_wf st -> app_wf st'.
Proof.
  intros (Hcode & Hed & Hrq & Hcl & _ & Hnow & Ht & Hcs) Haw [H1 H2 H3 H4 H5].
  unfold app_wf. split; rewrite ?Hcode, ?Hed, ?Hrq, ?Hcl, ?Hnow, ?Ht, ?Hcs; try done.
  intros r s Hl. destruct (Haw _ _ Hl) as [Hl'|(h & Hh & Hlt)]; eauto.
Qed.

Lemma wf_timeout st id t :
  app_wf st -> timers st !! id = Some (Some t) ->
  app_wf (fire (callback t) (clearTimeout id (set_now (now st `max` due t) st))).
Proof.
  intros Hwf Hid.
  set (st1 := clearTimeout id (set_now (now st `max` due t) st)).
  assert (app_wf st1) as Hwf1.
  { destruct Hwf as [(h & c & Hc & Hh & Hlt & Hr) H2 H3 H4 H5].
    split; simpl; try done.
    - exists h, c. by rewrite length_insert.
    - intros i d code' c' [(_ & [=] & _)|[_ Hl]]%list_lookup_insert_Some. eauto.
    - intros i d n [(_ & [=] & _)|[_ Hl]]%list_lookup_insert_Some.
      specialize (H3 _ _ _ Hl). lia. }
  destruct t as [d [currentCode controller|position]]; unfold fire, callback.
  - destruct (fetchSuggestions_frame currentCode controller st1) as [Hw Ha].
    apply (wf_same_world st1); [done| |done].
    intros r s Hl. destruct Ha as [Ha|Ha]; rewrite Ha in Hl; [by left|].
    apply lookup_snoc_Some in Hl as [[_ Hl]|[_ [= <-]]]; [by left|].
    right. destruct (wf_fetch _ _ Hwf _ _ _ _ Hid) as (Hc & _ & Hf).
    exists id. split; [done|]. by apply lookup_lt_Some in Hf.
  - destruct Hwf1 as [H1 H2 H3 [ta Hta] H5]. rewrite Hta.
    split; simpl; try done.
Qed.

(** An invariant of the timer callbacks is an invariant of the passing of
    time. *)
Lemma run_timers_invariant (P : state -> Prop) fuel deadline st :
  (forall st id t, P st -> timers st !! id = Some (Some t) -> due t <= deadline ->
     P (fire (callback t) (clearTimeout id (set_now (now st `max` due t) st)))) ->
  P st -> P (run_timers fuel deadline st).
Proof.
  intros Hstep. revert st. induction fuel as [|fuel IH]; intros st HP; [done|].
  simpl. destruct (next_timer (timers st) 0) as [[id t]|] eqn:E; [|done].
  destruct (due t <=? deadline) eqn:Hd; [|done].
  apply IH, Hstep; [done| |by apply Nat.leb_le].
  apply next_timer_lookup in E as [_ E]. by rewrite Nat.sub_0_r in E.
Qed.

Lemma wf_elapse ms st : app_wf st -> app_wf (elapse ms st).
Proof.
  intros Hwf. unfold elapse.
  set (deadline := now st + ms).
  assert (app_wf (run_timers (length (timers st)) deadline st) /\
          now (run_timers (length (timers st)) deadline st) <= deadline) as [H Hle].
  { apply (run_timers_invariant (fun s => app_wf s /\ now s <= deadline)).
    - intros s id t [Hs Hn] Hid Hd. split; [by apply wf_timeout|].
      assert (now (fire (callback t)
                (clearTimeout id (set_now (now s `max` due t) s))) = now s `max` due t)
        as ->; [|lia].
      destruct t as [d [currentCode controller|position]]; simpl.
      + match goal with |- now (fetchSuggestions ?c ?g ?x) = _ =>
          destruct (fetchSuggestions_frame c g x) as [(_&_&_&_&_&Hn'&_) _] end.
        by rewrite Hn'.
      + by destruct (editorRef s).
    - split; [done | unfold deadline; lia]. }
  destruct H as [H1 H2 H3 H4 H5]. split; simpl; try done.
  intros id d n Hl. specialize (H3 _ _ _ Hl). lia.
Qed.

Lemma wf_step st e st' : app_wf st -> step st e = Some st' -> app_wf st'.
Proof.
  intros Hwf. destruct e as [value|key|ms|r o]; simpl.
  - intros [= <-]. by apply wf_rerender, wf_handleCodeChange.
  - intros [= <-]. by apply wf_rerender, wf_handleKeyDown.
  - intros [= <-]. by apply wf_elapse.
  - destruct (awaiting st !! r) as [[signal|]|] eqn:Hr; [|done..].
    intros [= <-].
    match goal with |- app_wf (fetchSuggestions_resume ?s ?r ?x) =>
      destruct (fetchSuggestions_resume_frame s r x) as (Hw & Ha & _);
      apply (wf_same_world x); [done| |] end.
    + intros r' s. rewrite Ha. by left.
    + destruct Hwf as [H1 H2 H3 H4 H5]. split; simpl; try done.
      intros r' s [(_ & [=] & _)|[_ Hl]]%list_lookup_insert_Some. eauto.
Qed.

Lemma wf_run st evs st' : app_wf st -> run st evs = Some st' -> app_wf st'.
Proof.
  revert st. induction evs as [|e evs IH]; intros st Hwf; simpl.
  - by intros [= <-].
  - destruct (step st e) as [st1|] eqn:E; [|done]. eauto using wf_step.
Qed.

Lemma app_reachable_wf st : reachable st -> app_wf st.
Proof. intros (k & evs & H). eapply wf_run; [apply wf_mount | exact H]. Qed.

(** *** Accepting a suggestion *)

Lemma step_accept st :
  inlineSuggestion st <> [] ->
  step st (KeyDown tab) =
    Some (effect (run_cleanup
      (setTimeout (CursorTask (length (code st ++ inlineSuggestion st))) 0
         (set_inlineSuggestion []
            (set_code (code st ++ inlineSuggestion st) st))))).
Proof.
  intros H. simpl. rewrite handleKeyDown_accept by done. simpl.
  rewrite rerender_changed; [done|]. simpl.
  intros Heq. apply (f_equal length) in Heq. rewrite length_app in Heq.
  destruct (inlineSuggestion st); [done|]. simpl in Heq. lia.
Qed.

Lemma fire_timers f st : timers (fire f st) = timers st.
Proof.
  destruct f as [currentCode controller|position]; simpl.
  - by destruct (fetchSuggestions_frame currentCode controller st)
      as [(_&_&_&_&_&_&Ht&_) _].
  - by destruct (editorRef st).
Qed.

Lemma fire_code f st : code (fire f st) = code st.
Proof.
  destruct f as [currentCode controller|position]; simpl.
  - by destruct (fetchSuggestions_frame currentCode controller st) as [(Hc&_) _].
  - by destruct (editorRef st).
Qed.

Lemma elapse_code ms st : code (elapse ms st) = code st.
Proof.
  unfold elapse. simpl.
  apply (run_timers_invariant (fun s => code s = code st)); [|done].
  intros s id t Hs _ _. by rewrite fire_code.
Qed.

(** With no cursor timer pending, the passing of time leaves the selection
    alone. *)
Lemma run_timers_no_cursor fuel deadline st :
  (forall j d n,
     timers st !! j = Some (Some {| due := d; callback := CursorTask n |}) -> False) ->
  editorRef (run_timers fuel deadline st) = editorRef st.
Proof.
  intros Hnone.
  apply (run_timers_invariant (fun s =>
    (forall j d n,
       timers s !! j = Some (Some {| due := d; callback := CursorTask n |}) -> False)
    /\ editorRef s = editorRef st)); [|done].
  intros s id [d [currentCode controller|position]] [Hs He] Hid _.
  - split.
    + intros j d' n. rewrite fire_timers. simpl.
      intros [(_ & [=] & _)|[_ Hl]]%list_lookup_insert_Some. eauto.
    + simpl. match goal with |- editorRef (fetchSuggestions ?c ?g ?x) = _ =>
        destruct (fetchSuggestions_frame c g x) as [(_&Hed&_) _] end.
      by rewrite Hed.
  - destruct (Hs _ _ _ Hid).
Qed.

(** The cursor timer set last runs last among the cursor timers, so its
    position is the one the selection ends at. *)
Lemma run_timers_cursor fuel deadline st k d n :
  is_Some (editorRef st) ->
  timers st !! k = Some (Some {| due := d; callback := CursorTask n |}) ->
  d <= deadline ->
  (forall j d' n',
     timers st !! j = Some (Some {| due := d'; callback := CursorTask n' |}) ->
     d' <= d /\ j <= k) ->
  pending (timers st) <= fuel ->
  editorRef (run_timers fuel deadline st) =
    Some {| selectionStart := n; selectionEnd := n |}.
Proof.
  revert st. induction fuel as [|fuel IH]; intros st Hed Hk Hd Hall Hfuel.
  { apply pending_pos in Hk. lia. }
  simpl. destruct (next_timer (timers st) 0) as [[id t]|] eqn:E.
  2: { destruct (next_timer_None _ _ _ _ E Hk). }
  pose proof (next_timer_least _ _ _ _ _ _ E Hk) as Hleast. simpl in Hleast.
  pose proof (next_timer_lookup _ _ _ _ E) as [_ Hid].
  rewrite Nat.sub_0_r in Hid.
  assert ((due t <=? deadline) = true) as -> by (apply Nat.leb_le; lia).
  destruct (decide (id = k)) as [->|Hne].
  - (* the timer itself: no cursor timer is left behind it *)
    rewrite Hk in Hid. injection Hid as <-.
    rewrite run_timers_no_cursor.
    + destruct Hed as [ta Hta]. simpl. by rewrite Hta.
    + intros j d' n'. rewrite fire_timers. simpl.
      intros [(_ & [=] & _)|[Hj Hl]]%list_lookup_insert_Some.
      destruct (Hall _ _ _ Hl) as [Hd' Hjk].
      destruct (next_timer_least _ _ _ _ _ _ E Hl) as [?|[? ?]]; simpl in *; lia.
  - (* another timer runs first *)
    apply IH.
    + destruct t as [d0 [c0 g0|p0]]; simpl.
      * match goal with |- is_Some (editorRef (fetchSuggestions ?c ?g ?x)) =>
          destruct (fetchSuggestions_frame c g x) as [(_&Hed'&_) _] end.
        by rewrite Hed'.
      * destruct Hed as [ta ->]. by eexists.
    + rewrite fire_timers. simpl. by rewrite list_lookup_insert_ne.
    + done.
    + intros j d' n'. rewrite fire_timers. simpl.
      intros [(_ & [=] & _)|[_ Hl]]%list_lookup_insert_Some. eauto.
    + rewrite fire_timers. simpl. rewrite <- (pending_clear _ _ _ Hid) in Hfuel. lia.
Qed.

(** C6: in a state the editor can be in, Tab with a suggestion showing
    prevents the default action, makes the buffer the old buffer followed by
    the suggestion, clears the suggestion, and, once the zero-delay timer has
    run, leaves the selection collapsed at the end of the new text. *)
Theorem tab_accepts_suggestion st :
  reachable st -> inlineSuggestion st <> [] ->
  snd (handleKeyDown tab st) = true /\
  exists st1,
    step st (KeyDown tab) = Some st1 /\
    code st1 = code st ++ inlineSuggestion st /\
    inlineSuggestion st1 = [] /\
    forall ms,
      code (elapse ms st1) = code st1 /\
      editorRef (elapse ms st1) =
        Some {| selectionStart := length (code st1);
                selectionEnd := length (code st1) |}.
Proof.
  intros Hreach Hs. apply app_reachable_wf in Hreach as Hwf.
  split; [by rewrite handleKeyDown_accept|].
  eexists. split; [by apply step_accept|].
  set (newCode := code st ++ inlineSuggestion st).
  set (st' := setTimeout (CursorTask (length newCode)) 0
                (set_inlineSuggestion [] (set_code newCode st))).
  assert (app_wf (effect (run_cleanup st'))) as Hwf1.
  { eapply wf_step; [exact Hwf | by apply step_accept]. }
  destruct (wf_cleanup _ _ Hwf) as (h & c & Hc & Hh & Hlt & Hr).
  destruct (effect_after_cleanup st' h c Hc Hr) as (Ht & _).
  destruct (effect_fields (run_cleanup st'))
    as (Ecode & Einl & _ & _ & Eed & Enow & _).
  destruct (run_cleanup_fields st') as (Ccode & Cinl & _ & _ & Ced & Cnow & _).
  assert (code (effect (run_cleanup st')) = newCode) as Hcode
    by by rewrite Ecode, Ccode.
  split; [done|]. split; [by rewrite Einl, Cinl|].
  intros ms. split; [apply elapse_code|].
  rewrite Hcode.
  change (editorRef (elapse ms ?x)) with
    (editorRef (run_timers (length (timers x)) (now x + ms) x)).
  apply (run_timers_cursor _ _ _ (length (timers st)) (now st)).
  - rewrite Eed, Ced. apply (wf_editor _ _ Hwf).
  - rewrite Ht. simpl. rewrite lookup_app_l, list_lookup_insert_ne by
      (rewrite ?length_insert, ?length_app; simpl; lia).
    rewrite lookup_app_r, Nat.sub_diag by done. simpl. by rewrite Nat.add_0_r.
  - rewrite Enow, Cnow. simpl. lia.
  - intros j d' n' Hl. split.
    + apply (wf_cursor _ _ Hwf1) in Hl as Hd. by rewrite Enow, Cnow in Hd.
    + rewrite Ht in Hl. apply lookup_snoc_Some in Hl as [[Hj _]|[_ [=]]].
      rewrite length_insert in Hj. simpl in Hj. rewrite length_app in Hj.
      simpl in Hj. lia.
  - apply pending_le_length.
Qed.

(** C9: a second Tab right after an accept finds no suggestion and changes
    nothing, so two accepts leave the buffer and the suggestion as one
    does. *)
Theorem accept_twice_is_accept_once st :
  inlineSuggestion st <> [] ->
  exists st1,
    step st (KeyDown tab) = Some st1 /\
    code st1 = code st ++ inlineSuggestion st /\
    inlineSuggestion st1 = [] /\
    step st1 (KeyDown tab) = Some st1.
Proof.
  intros Hs. eexists. split; [by apply step_accept|].
  match goal with |- code ?x = _ /\ _ => set (st1 := x) end.
  assert (code st1 = code st ++ inlineSuggestion st /\ inlineSuggestion st1 = [])
    as [Hcode Hinl].
  { subst st1.
    match goal with |- context [effect (run_cleanup ?x)] =>
      destruct (effect_fields (run_cleanup x)) as (-> & -> & _);
      destruct (run_cleanup_fields x) as (-> & -> & _) end.
    done. }
  split; [done|]. split; [done|].
  simpl. rewrite handleKeyDown_ignore by by right. simpl.
  by rewrite rerender_same.
Qed.

(** [fetchSuggestions], which is what the debounce timer runs, on a text
    whose trimmed length is below 3. *)
Lemma fetchSuggestions_short currentCode signal st :
  length (JS.trim currentCode) < 3 ->
  calls (fetchSuggestions currentCode signal st) = calls st /\
  awaiting (fetchSuggestions currentCode signal st) = awaiting st /\
  inlineSuggestion (fetchSuggestions currentCode signal st) = [].
Proof.
  intros H. unfold fetchSuggestions.
  by replace (_ <? 3) with true by (symmetry; by apply Nat.ltb_lt).
Qed.

(** *** Superseded requests *)

Lemma insert_true_mono (l : list bool) c s :
  l !! s = Some true -> <[c:=true]> l !! s = Some true.
Proof.
  intros H. destruct (decide (c = s)) as [->|Hne].
  - apply list_lookup_insert_eq. by apply lookup_lt_Some in H.
  - by rewrite list_lookup_insert_ne.
Qed.

Lemma rerender_controllers prev st s :
  controllers st !! s = Some true -> controllers (rerender prev st) !! s = Some true.
Proof.
  intros H. unfold rerender. destruct (JS.eqb _ _); [done|].
  unfold effect, run_cleanup.
  destruct (cleanup st) as [[h c]|]; simpl;
    destruct (requestAbortController st); simpl;
    rewrite lookup_app_l by (rewrite ?length_insert; by apply lookup_lt_Some in H);
    auto using insert_true_mono.
Qed.

Lemma elapse_controllers ms st : controllers (elapse ms st) = controllers st.
Proof.
  unfold elapse. simpl.
  apply (run_timers_invariant (fun s => controllers s = controllers st)); [|done].
  intros s id [d [currentCode controller|position]] Hs _ _; simpl.
  - match goal with |- controllers (fetchSuggestions ?c ?g ?x) = _ =>
      destruct (fetchSuggestions_frame c g x) as [(_&_&_&_&_&_&_&Hcs) _] end.
    by rewrite Hcs.
  - by destruct (editorRef s).
Qed.

Lemma elapse_awaiting ms st : exists l, awaiting (elapse ms st) = awaiting st ++ l.
Proof.
  unfold elapse. simpl.
  apply (run_timers_invariant (fun s => exists l, awaiting s = awaiting st ++ l)).
  - intros s id [d [currentCode controller|position]] [l Hl] _ _; simpl.
    + match goal with |- context [fetchSuggestions ?c ?g ?x] =>
        destruct (fetchSuggestions_frame c g x) as [_ [Ha|Ha]] end; rewrite Ha; simpl.
      * by exists l.
      * exists (l ++ [Some controller]). by rewrite Hl, app_assoc.
    + exists l. by destruct (editorRef s).
  - exists []. by rewrite app_nil_r.
Qed.

Lemma aborted_stays st e st' s :
  controllers st !! s = Some true -> step st e = Some st' ->
  controllers st' !! s = Some true.
Proof.
  intros H. destruct e as [value|key|ms|r o]; simpl.
  - intros [= <-]. by apply rerender_controllers.
  - intros [= <-]. apply rerender_controllers.
    unfold handleKeyDown. by destruct (_ && _).
  - intros [= <-]. by rewrite elapse_controllers.
  - destruct (awaiting st !! r) as [[signal|]|]; [|done..]. intros [= <-].
    match goal with |- controllers (fetchSuggestions_resume ?g ?r ?x) !! _ = _ =>
      destruct (fetchSuggestions_resume_frame g r x) as ((_&_&_&_&_&_&_&Hcs)&_) end.
    by rewrite Hcs.
Qed.

(** A suspended fetch keeps its signal until it is settled. *)
Lemma awaiting_slot st e st' r s :
  awaiting st !! r = Some (Some s) \/ awaiting st !! r = Some None ->
  step st e = Some st' ->
  awaiting st' !! r = Some (Some s) \/ awaiting st' !! r = Some None.
Proof.
  intros H.
  assert (forall prev x, awaiting (rerender prev x) = awaiting x) as Hre.
  { intros prev x. unfold rerender. destruct (JS.eqb _ _); [done|].
    destruct (effect_fields (run_cleanup x)) as (_&_&_&_&_&_&->&_).
    by destruct (run_cleanup_fields x) as (_&_&_&_&_&_&->&_). }
  destruct e as [value|key|ms|r' o]; simpl.
  - intros [= <-]. by rewrite Hre.
  - intros [= <-]. rewrite Hre. unfold handleKeyDown. by destruct (_ && _).
  - intros [= <-]. destruct (elapse_awaiting ms st) as [l ->].
    destruct H as [H|H]; [left|right];
      (rewrite lookup_app_l; [done | by apply lookup_lt_Some in H]).
  - destruct (awaiting st !! r') as [[signal|]|] eqn:E; [|done..]. intros [= <-].
    match goal with |- context [fetchSuggestions_resume ?g ?r ?x] =>
      destruct (fetchSuggestions_resume_frame g r x) as (_ & -> & _) end.
    simpl. destruct (decide (r' = r)) as [->|Hne].
    + right. apply list_lookup_insert_eq. by apply lookup_lt_Some in E.
    + by rewrite list_lookup_insert_ne.
Qed.

Lemma aborted_stays_run st evs st' s :
  controllers st !! s = Some true -> run st evs = Some st' ->
  controllers st' !! s = Some true.
Proof.
  revert st. induction evs as [|e evs IH]; intros st H; simpl.
  - by intros [= <-].
  - destruct (step st e) as [st1|] eqn:E; [|done]. eauto using aborted_stays.
Qed.

Lemma awaiting_slot_run st evs st' r s :
  awaiting st !! r = Some (Some s) \/ awaiting st !! r = Some None ->
  run st evs = Some st' ->
  awaiting st' !! r = Some (Some s) \/ awaiting st' !! r = Some None.
Proof.
  revert st. induction evs as [|e evs IH]; intros st H; simpl.
  - by intros [= <-].
  - destruct (step st e) as [st1|] eqn:E; [|done]. eauto using awaiting_slot.
Qed.

(** An event that changes the text aborts the signal of every fetch that is
    still suspended. *)
Lemma new_cycle_aborts st e st1 r s :
  app_wf st -> awaiting st !! r = Some (Some s) ->
  step st e = Some st1 -> code st1 <> code st ->
  controllers st1 !! s = Some true.
Proof.
  intros Hwf Hr Hstep Hcode.
  destruct (wf_cleanup _ _ Hwf) as (h & c & Hc & Hh & Hlt & Hrq).
  destruct (wf_awaiting _ _ Hwf _ _ Hr) as [Hs Hor].
  assert (forall x, cleanup x = Some (h, c) -> requestAbortController x = Some c ->
            controllers x = controllers st ->
            controllers (effect (run_cleanup x)) !! s = Some true) as Hab.
  { intros x Hcx Hrx Hcsx.
    destruct (effect_after_cleanup x h c Hcx Hrx) as (_ & -> & _). rewrite Hcsx.
    rewrite lookup_app_l by by rewrite length_insert.
    destruct Hor as [Ha|[h' Hh']]; [by apply insert_true_mono|].
    assert (s = c) as -> by congruence. by apply list_lookup_insert_eq. }
  destruct e as [value|key|ms|r' o]; simpl in Hstep.
  - injection Hstep as <-. unfold rerender in *.
    destruct (JS.eqb _ _) eqn:E; [|by apply Hab].
    apply eqb_true in E. simpl in E, Hcode. congruence.
  - injection Hstep as <-. unfold rerender in *.
    destruct (JS.eqb _ _) eqn:E.
    + unfold handleKeyDown in *. destruct (_ && _); [|done].
      simpl in E. apply eqb_true in E. simpl in Hcode. congruence.
    + apply Hab; unfold handleKeyDown; by destruct (_ && _).
  - injection Hstep as <-. by rewrite elapse_code in Hcode.
  - destruct (awaiting st !! r') as [[signal|]|]; [|done..].
    injection Hstep as <-.
    match type of Hcode with context [fetchSuggestions_resume ?g ?r ?x] =>
      destruct (fetchSuggestions_resume_frame g r x) as ((Hc'&_)&_) end.
    by rewrite Hc' in Hcode.
Qed.

Lemma fetchSuggestions_resume_aborted signal r st :
  aborted signal st = true -> fetchSuggestions_resume signal r st = st.
Proof.
  intros H. unfold fetchSuggestions_resume.
  destruct r; rewrite H; simpl; by rewrite H.
Qed.

(** X1: the standalone editor discards what was superseded: once the text has
    changed, whatever a fetch that was suspended before the change settles
    to, and whenever it does, the buffer, the suggestion, the loading flag
    and the error stay as they are. *)
Theorem app_discards_superseded_result st e st1 evs st2 r s o st3 :
  reachable st -> awaiting st !! r = Some (Some s) ->
  step st e = Some st1 -> code st1 <> code st ->
  run st1 evs = Some st2 ->
  step st2 (Settle r o) = Some st3 ->
  visible st3 = visible st2.
Proof.
  intros Hreach Hr Hstep Hcode Hrun Hsettle.
  apply app_reachable_wf in Hreach as Hwf.
  pose proof (new_cycle_aborts _ _ _ _ _ Hwf Hr Hstep Hcode) as Hab.
  apply (aborted_stays_run _ _ _ _ Hab) in Hrun as Hab2.
  assert (awaiting st2 !! r = Some (Some s) \/ awaiting st2 !! r = Some None)
    as Hslot.
  { eapply awaiting_slot_run; [|exact Hrun].
    eapply awaiting_slot; [|exact Hstep]. by left. }
  simpl in Hsettle. destruct Hslot as [Hs|Hs]; rewrite Hs in Hsettle; [|done].
  injection Hsettle as <-.
  rewrite fetchSuggestions_resume_aborted; [done|].
  unfold aborted. simpl. by apply bool_decide_eq_true_2.
Qed.

(** *** Failures *)

(** What the editor shows when a call it still listens to fails: the
    message of the error its client raises. *)
Lemma app_settle_failure st r signal t :
  awaiting st !! r = Some (Some signal) -> aborted signal st = false ->
  getCodeSuggestions_resume (Failure t) =
    Rejected (JS.ErrorObject (friendly_error t)) ->
  error <$> step st (Settle r (Failure t)) =
    Some (Some (JS.message (friendly_error t))).
Proof.
  intros Hr Hab Hres. simpl. rewrite Hr, Hres. simpl.
  unfold fetchSuggestions_resume.
  change (aborted signal (set_awaiting ?a st)) with (aborted signal st).
  rewrite Hab. simpl.
  change (aborted signal (set_inlineSuggestion ?a (set_error ?b (set_awaiting ?c st))))
    with (aborted signal st).
  by rewrite Hab.
Qed.

(** *** Debouncing *)

Lemma fetchSuggestions_calls currentCode signal st :
  calls (fetchSuggestions currentCode signal st) =
    calls st ++ app_calls (env_API_KEY st) currentCode.
Proof.
  unfold fetchSuggestions, app_calls, getCodeSuggestions_call.
  destruct (_ <? 3); simpl; [by rewrite app_nil_r|].
  destruct (missing_API_KEY _); simpl; [|done].
  match goal with |- context [fetchSuggestions_resume ?g ?r ?x] =>
    destruct (fetchSuggestions_resume_frame g r x) as (_ & _ & ->) end.
  simpl. by rewrite app_nil_r.
Qed.

Lemma fire_cursor_fields position st :
  calls (fire (CursorTask position) st) = calls st /\
  cleanup (fire (CursorTask position) st) = cleanup st /\
  env_API_KEY (fire (CursorTask position) st) = env_API_KEY st /\
  now (fire (CursorTask position) st) = now st /\
  inlineSuggestion (fire (CursorTask position) st) = inlineSuggestion st.
Proof. simpl. by destruct (editorRef st). Qed.

Lemma fire_fields f st :
  cleanup (fire f st) = cleanup st /\
  env_API_KEY (fire f st) = env_API_KEY st /\
  now (fire f st) = now st.
Proof.
  destruct f as [currentCode controller|position].
  - simpl. by destruct (fetchSuggestions_frame currentCode controller st)
      as [(_&_&_&?&?&?&_) _].
  - by destruct (fire_cursor_fields position st) as (_&?&?&?&_).
Qed.

(** With no fetch timer pending, no call goes out however long one waits,
    and the suggestion stays. *)
Lemma run_timers_no_fetch fuel deadline st :
  no_fetch_pending st ->
  calls (run_timers fuel deadline st) = calls st /\
  inlineSuggestion (run_timers fuel deadline st) = inlineSuggestion st /\
  no_fetch_pending (run_timers fuel deadline st).
Proof.
  intros Hnone.
  apply (run_timers_invariant (fun s =>
    calls s = calls st /\ inlineSuggestion s = inlineSuggestion st /\
    no_fetch_pending s)); [|done].
  intros s id [d [currentCode controller|position]] (Hs & Hi & Hn) Hid _;
    cbn [callback due].
  - by destruct (Hn _ _ _ _ Hid).
  - destruct (fire_cursor_fields position
      (clearTimeout id (set_now (now s `max` d) s))) as (-> & _ & _ & _ & ->).
    split; [done|]. split; [done|].
    intros j d' text c. rewrite fire_timers. simpl.
    intros [(_ & [=] & _)|[_ Hl]]%list_lookup_insert_Some. by eapply Hn.
Qed.

(** While the pending fetch timer is not yet due, time passes without a
    call, and the timer table changes in its cursor entries only. *)
Lemma elapse_before_due ms st h c d :
  app_wf st -> cleanup st = Some (h, c) ->
  timers st !! h = Some (Some {| due := d; callback := FetchTask (code st) c |}) ->
  now st + ms < d ->
  let st' := elapse ms st in
  app_wf st' /\ calls st' = calls st /\ code st' = code st /\
  env_API_KEY st' = env_API_KEY st /\ now st' = now st + ms /\
  cleanup st' = Some (h, c) /\
  timers st' !! h = Some (Some {| due := d; callback := FetchTask (code st) c |}) /\
  length (timers st') = length (timers st) /\
  (forall id, timers st !! id = Some None -> timers st' !! id = Some None).
Proof.
  intros Hwf Hc Hh Hd st'.
  assert (let s := run_timers (length (timers st)) (now st + ms) st in
          calls s = calls st /\ env_API_KEY s = env_API_KEY st /\
          cleanup s = Some (h, c) /\
          timers s !! h =
            Some (Some {| due := d; callback := FetchTask (code st) c |}) /\
          length (timers s) = length (timers st) /\
          (forall id, timers st !! id = Some None -> timers s !! id = Some None))
    as Hrun.
  { apply (run_timers_invariant (fun s =>
      app_wf s /\ calls s = calls st /\ env_API_KEY s = env_API_KEY st /\
      cleanup s = Some (h, c) /\
      timers s !! h =
        Some (Some {| due := d; callback := FetchTask (code st) c |}) /\
      length (timers s) = length (timers st) /\
      (forall id, timers st !! id = Some None -> timers s !! id = Some None))).
    - intros s id [d0 [currentCode controller|position]]
        (Hs & Hcalls & Henv & Hcl & Hlk & Hlen & Hnone) Hid Hdue;
        cbn [callback due] in *.
      { destruct (wf_fetch _ _ Hs _ _ _ _ Hid) as (Hid' & _).
        assert (id = h) as -> by congruence.
        rewrite Hlk in Hid. injection Hid as <-. lia. }
      split; [by apply (wf_timeout s id _ Hs Hid)|].
      destruct (fire_cursor_fields position
        (clearTimeout id (set_now (now s `max` d0) s))) as (-> & -> & -> & _ & _).
      rewrite fire_timers. simpl.
      assert (id <> h) by (intros ->; rewrite Hlk in Hid; done).
      rewrite length_insert, list_lookup_insert_ne by done.
      repeat split; try done.
      intros j Hj. apply Hnone in Hj.
      destruct (decide (id = j)) as [->|?].
      + apply list_lookup_insert_eq. by apply lookup_lt_Some in Hj.
      + by rewrite list_lookup_insert_ne.
    - split; [exact Hwf|]. by repeat split. }
  split; [by apply wf_elapse|]. split; [|split; [apply elapse_code|]].
  all: unfold st', elapse; simpl; by destruct Hrun as (?&?&?&?&?&?).
Qed.

Lemma change_arms st value first_id :
  app_wf st -> value <> code st -> first_id <= length (timers st) ->
  (forall id, first_id <= id -> id < length (timers st) ->
     timers st !! id = Some None \/ exists c, cleanup st = Some (id, c)) ->
  let st1 := rerender (code st) (handleCodeChange value st) in
  app_wf st1 /\ calls st1 = calls st /\ env_API_KEY st1 = env_API_KEY st /\
  code st1 = value /\ armed st1 first_id value /\
  length (timers st1) = S (length (timers st)).
Proof.
  intros Hwf Hne Hfirst Hold st1.
  assert (app_wf st1) as Hwf1 by by apply wf_rerender, wf_handleCodeChange.
  split; [done|]. subst st1. rewrite rerender_changed by (simpl; congruence).
  set (x := handleCodeChange value st) in *.
  destruct (wf_cleanup _ _ Hwf) as (h & c & Hc & Hh & Hlt & Hr).
  destruct (effect_after_cleanup x h c Hc Hr) as (Ht & Hcs & Hcl & Hrq).
  destruct (effect_fields (run_cleanup x)) as (-> & _ & _ & _ & _ & Hnow & _ & -> & ->).
  destruct (run_cleanup_fields x) as (-> & _ & _ & _ & _ & Hnow' & _ & -> & -> & _).
  repeat split; try done.
  - exists (length (timers st)), (length (controllers st)).
    rewrite Hcl, Ht, Hnow, Hnow'. simpl.
    rewrite length_app, length_insert. simpl.
    split; [done|]. split.
    { rewrite lookup_app_r by by rewrite length_insert.
      by rewrite length_insert, Nat.sub_diag. }
    split; [lia|]. split; [done|].
    intros id Hge Hlt'. rewrite lookup_app_l by by rewrite length_insert.
    destruct (Hold _ Hge Hlt') as [Hn|[c' Hc']].
    + destruct (decide (h = id)) as [->|?];
        [by apply list_lookup_insert_eq | by rewrite list_lookup_insert_ne].
    + assert (id = h) as -> by congruence. by apply list_lookup_insert_eq.
  - rewrite Ht, length_app, length_insert. simpl. lia.
Qed.

(** Once the pending fetch timer is due, letting time pass runs it, exactly
    once; nothing is left that could make a further call. *)
Lemma run_timers_due fuel deadline st h c d :
  app_wf st -> cleanup st = Some (h, c) ->
  timers st !! h = Some (Some {| due := d; callback := FetchTask (code st) c |}) ->
  d <= deadline -> pending (timers st) <= fuel ->
  calls (run_timers fuel deadline st) =
    calls st ++ app_calls (env_API_KEY st) (code st) /\
  (length (JS.trim (code st)) < 3 ->
   inlineSuggestion (run_timers fuel deadline st) = []) /\
  no_fetch_pending (run_timers fuel deadline st).
Proof.
  revert st. induction fuel as [|fuel IH]; intros st Hwf Hc Hh Hd Hfuel.
  { apply pending_pos in Hh. lia. }
  simpl. destruct (next_timer (timers st) 0) as [[id t]|] eqn:E.
  2: { destruct (next_timer_None _ _ _ _ E Hh). }
  pose proof (next_timer_least _ _ _ _ _ _ E Hh) as Hleast. simpl in Hleast.
  pose proof (next_timer_lookup _ _ _ _ E) as [_ Hid].
  rewrite Nat.sub_0_r in Hid.
  assert ((due t <=? deadline) = true) as -> by (apply Nat.leb_le; lia).
  destruct t as [d0 [currentCode controller|position]]; cbn [callback due] in *.
  - (* the fetch timer *)
    destruct (wf_fetch _ _ Hwf _ _ _ _ Hid) as (Hid' & -> & _).
    assert (id = h) as -> by congruence.
    set (s1 := fire _ _).
    assert (no_fetch_pending s1) as Hnone.
    { intros j d' text c'. unfold s1. rewrite fire_timers. simpl.
      intros [(_ & [=] & _)|[Hj Hl]]%list_lookup_insert_Some.
      destruct (wf_fetch _ _ Hwf _ _ _ _ Hl) as (Hj' & _). congruence. }
    destruct (run_timers_no_fetch fuel deadline s1 Hnone) as (-> & -> & Hn).
    split; [|split; [|done]]; unfold s1; simpl.
    + by rewrite fetchSuggestions_calls.
    + intros Hshort. by destruct (fetchSuggestions_short (code st) controller
        (clearTimeout h (set_now (now st `max` d0) st)) Hshort) as (_ & _ & ?).
  - (* a cursor timer runs first *)
    assert (id <> h) by (intros ->; rewrite Hh in Hid; done).
    set (s1 := fire _ _).
    pose proof (wf_timeout st id _ Hwf Hid) as Hwf1. cbn [callback due] in Hwf1.
    fold s1 in Hwf1.
    destruct (fire_cursor_fields position
      (clearTimeout id (set_now (now st `max` d0) st)))
      as (Hcalls & Hcl & Henv & _ & _).
    fold s1 in Hcalls, Hcl, Henv. simpl in Hcalls, Hcl, Henv.
    assert (code s1 = code st) as Hcode by (unfold s1; by rewrite fire_code).
    assert (timers s1 = <[id:=None]> (timers st)) as Ht
      by (unfold s1; by rewrite fire_timers).
    destruct (IH s1) as (-> & Hinl & Hn); try done.
    + congruence.
    + by rewrite Ht, Hcode, list_lookup_insert_ne.
    + rewrite Ht. rewrite <- (pending_clear _ _ _ Hid) in Hfuel. lia.
    + rewrite Hcalls, Henv, Hcode in *. done.
Qed.

Lemma elapse_no_fetch ms st :
  no_fetch_pending st ->
  calls (elapse ms st) = calls st /\ no_fetch_pending (elapse ms st).
Proof.
  intros H. unfold elapse.
  by destruct (run_timers_no_fetch (length (timers st)) (now st + ms) st H)
    as (? & _ & ?).
Qed.

Lemma elapse_due ms st h c d :
  app_wf st -> cleanup st = Some (h, c) ->
  timers st !! h = Some (Some {| due := d; callback := FetchTask (code st) c |}) ->
  d <= now st + ms ->
  calls (elapse ms st) = calls st ++ app_calls (env_API_KEY st) (code st) /\
  (length (JS.trim (code st)) < 3 -> inlineSuggestion (elapse ms st) = []) /\
  no_fetch_pending (elapse ms st).
Proof.
  intros Hwf Hc Hh Hd. unfold elapse.
  by destruct (run_timers_due (length (timers st)) (now st + ms) st h c d
                 Hwf Hc Hh Hd (pending_le_length _)) as (? & ? & ?).
Qed.


Lemma app_burst_runs later : forall st first_id,
  app_wf st -> armed st first_id (code st) ->
  app_burst_ok 500 (code st) later ->
  exists st1,
    run st (app_burst later) = Some st1 /\ app_wf st1 /\
    calls st1 = calls st /\ env_API_KEY st1 = env_API_KEY st /\
    code st1 = app_burst_last (code st) later /\
    armed st1 first_id (code st1) /\
    length (timers st1) = length (timers st) + length later.
Proof.
  induction later as [|[gap value] rest IH]; intros st first_id Hwf Harmed Hok.
  { exists st. simpl. rewrite Nat.add_0_r. split; [done|]. split; [done|].
    by repeat split. }
  destruct Hok as (Hgap & Hne & Hok).
  destruct Harmed as (h & c & Hc & Hh & Hlen & Hfirst & Hnone).
  destruct (elapse_before_due gap st h c _ Hwf Hc Hh ltac:(lia))
    as (Hwf1 & Hcalls1 & Hcode1 & Henv1 & Hnow1 & Hc1 & Hh1 & Hlen1 & Hnone1).
  set (s1 := elapse gap st) in *.
  destruct (change_arms s1 value first_id Hwf1) as
    (Hwf2 & Hcalls2 & Henv2 & Hcode2 & Harmed2 & Hlen2).
  { congruence. }
  { lia. }
  { intros id Hge Hlt. rewrite Hlen1, Hlen in Hlt.
    destruct (decide (id = h)) as [->|?]; [right; by exists c|].
    left. apply Hnone1, Hnone; [done|lia]. }
  set (s2 := rerender (code s1) (handleCodeChange value s1)) in *.
  rewrite <- Hcode2 in Hok, Harmed2.
  destruct (IH s2 first_id Hwf2 Harmed2 Hok)
    as (st1 & Hrun & Hwf' & Hcalls' & Henv' & Hcode' & Harmed' & Hlen').
  exists st1.
  assert (run st (app_burst ((gap, value) :: rest)) = run s2 (app_burst rest))
    as -> by reflexivity.
  split; [done|]. split; [done|].
  repeat split; try done; try congruence.
  - simpl. by rewrite Hcode', Hcode2.
  - rewrite Hlen', Hlen2, Hlen1. simpl. lia.
Qed.

Lemma run_app st evs1 evs2 :
  run st (evs1 ++ evs2) =
    match run st evs1 with
    | Some st1 => run st1 evs2
    | None => None
    end.
Proof.
  revert st. induction evs1 as [|e evs1 IH]; intros st; [done|].
  simpl. by destruct (step st e).
Qed.

Lemma app_burst_app l1 l2 : app_burst (l1 ++ l2) = app_burst l1 ++ app_burst l2.
Proof. induction l1 as [|[gap v] l1 IH]; simpl; by rewrite ?IH. Qed.

Lemma app_burst_ok_app window prev l1 l2 :
  app_burst_ok window prev (l1 ++ l2) ->
  app_burst_ok window prev l1 /\
  app_burst_ok window (app_burst_last prev l1) l2.
Proof.
  revert prev. induction l1 as [|[gap v] l1 IH]; intros prev; simpl; [done|].
  intros (? & ? & Hok). destruct (IH _ Hok). done.
Qed.

(** At each later edit of a burst, the timer of the edit before is still
    pending and not yet due: what that edit clears is a timer that has not
    run. *)
Lemma app_burst_timer_pending st first l1 gap value l2 :
  reachable st -> first <> code st ->
  app_burst_ok 500 first (l1 ++ (gap, value) :: l2) ->
  exists s c d,
    run st (Change first :: app_burst l1 ++ [Elapse gap]) = Some s /\
    timers s !! (length (timers st) + length l1) =
      Some (Some {| due := d;
                    callback := FetchTask (app_burst_last first l1) c |}) /\
    now s < d.
Proof.
  intros Hreach Hne Hok. apply app_reachable_wf in Hreach as Hwf.
  apply app_burst_ok_app in Hok as (Hok1 & Hgap & _).
  destruct (change_arms st first (length (timers st)) Hwf Hne)
    as (Hwf0 & _ & _ & Hcode0 & Harmed0 & Hlen0); [done|intros; lia|].
  set (s0 := rerender (code st) (handleCodeChange first st)) in *.
  rewrite <- Hcode0 in Hok1, Harmed0.
  destruct (app_burst_runs l1 s0 _ Hwf0 Harmed0 Hok1)
    as (st1 & Hrun & Hwf1 & _ & _ & Hcode1 & Harmed1 & Hlen1).
  destruct Harmed1 as (h & c & Hc & Hh & Hlen & _).
  destruct (elapse_before_due gap st1 h c _ Hwf1 Hc Hh ltac:(lia))
    as (_ & _ & _ & _ & Hnow & _ & Hh' & _).
  exists (elapse gap st1), c, (now st1 + 500).
  split; [|split].
  - assert (run st (Change first :: app_burst l1 ++ [Elapse gap]) =
            run s0 (app_burst l1 ++ [Elapse gap])) as -> by reflexivity.
    by rewrite run_app, Hrun.
  - replace (length (timers st) + length l1) with h by lia.
    by rewrite Hh', Hcode1, Hcode0.
  - lia.
Qed.

(** Debounce coalescing in the standalone editor. *)
Lemma app_debounce st first later :
  reachable st -> first <> code st -> app_burst_ok 500 first later ->
  exists st1,
    run st (Change first :: app_burst later) = Some st1 /\
    calls st1 = calls st /\
    length (timers st1) = length (timers st) + S (length later) /\
    (forall id, length (timers st) <= id -> S id < length (timers st1) ->
       timers st1 !! id = Some None) /\
    forall ms, 500 <= ms ->
      calls (elapse ms st1) =
        calls st ++ app_calls (env_API_KEY st) (app_burst_last first later) /\
      forall ms', calls (elapse ms' (elapse ms st1)) = calls (elapse ms st1).
Proof.
  intros Hreach Hne Hok. apply app_reachable_wf in Hreach as Hwf.
  destruct (change_arms st first (length (timers st)) Hwf Hne)
    as (Hwf0 & Hcalls0 & Henv0 & Hcode0 & Harmed0 & Hlen0); [done|intros; lia|].
  set (s0 := rerender (code st) (handleCodeChange first st)) in *.
  rewrite <- Hcode0 in Hok, Harmed0.
  destruct (app_burst_runs later s0 _ Hwf0 Harmed0 Hok)
    as (st1 & Hrun & Hwf1 & Hcalls1 & Henv1 & Hcode1 & Harmed1 & Hlen1).
  exists st1.
  assert (run st (Change first :: app_burst later) = run s0 (app_burst later))
    as -> by reflexivity.
  split; [done|].
  split; [congruence|]. split; [lia|].
  destruct Harmed1 as (h & c & Hc & Hh & Hlen & Hfirst & Hnone).
  split. { intros id Hge Hlt. apply Hnone; [done|lia]. }
  intros ms Hms.
  destruct (elapse_due ms st1 h c _ Hwf1 Hc Hh ltac:(lia)) as (Hcalls & _ & Hn).
  split.
  - rewrite Hcalls, Hcalls1, Hcalls0, Henv1, Henv0, Hcode1, Hcode0. done.
  - intros ms'. by destruct (elapse_no_fetch ms' _ Hn).
Qed.

End AppProperties.

(** ** The plugin *)

Section PluginProperties.
Context {Session Pos : Type}.
Variable getTextRange : Session -> Pos -> jsstring.
Variable getModeId : Session -> jsstring.
Import Plugin.
Implicit Types (st x : @Plugin.state Session Pos).

Local Abbreviation on_timeout := (Plugin.on_timeout getTextRange getModeId).
Local Abbreviation run_timers := (Plugin.run_timers getTextRange getModeId).
Local Abbreviation elapse := (Plugin.elapse getTextRange getModeId).
Local Abbreviation step := (Plugin.step getTextRange getModeId).
Local Abbreviation run := (Plugin.run getTextRange getModeId).
Local Abbreviation reachable := (Plugin.reachable getTextRange getModeId).

Lemma resolve_frame p items st :
  ai (resolve p items st) = ai st /\
  abortController (resolve p items st) = abortController st /\
  debounceTimeout (resolve p items st) = debounceTimeout st /\
  isLoading (resolve p items st) = isLoading st /\
  providers (resolve p items st) = providers st /\
  sessions (resolve p items st) = sessions st /\
  now (resolve p items st) = now st /\
  timers (resolve p items st) = timers st /\
  controllers (resolve p items st) = controllers st /\
  awaiting (resolve p items st) = awaiting st /\
  calls (resolve p items st) = calls st /\
  toasts (resolve p items st) = toasts st /\
  length (promises (resolve p items st)) = length (promises st).
Proof.
  unfold resolve. destruct (promises st !! p) as [[?|]|]; simpl;
    by rewrite ?length_insert.
Qed.

(** A call of [resolve] settles its own promise, if still pending, and no
    other. *)
Lemma resolve_lookup p items st q :
  promises (resolve p items st) !! q = promises st !! q \/
  q = p /\ promises st !! p = Some None /\
  promises (resolve p items st) !! q = Some (Some items).
Proof.
  unfold resolve. destruct (promises st !! p) as [[?|]|] eqn:E; simpl; auto.
  destruct (decide (p = q)) as [->|Hne].
  - right. repeat split; try done. apply list_lookup_insert_eq.
    by apply lookup_lt_Some in E.
  - left. by apply list_lookup_insert_ne.
Qed.

Lemma resolve_lookup_ne p items st q :
  q <> p -> promises (resolve p items st) !! q = promises st !! q.
Proof. intros Hne. by destruct (resolve_lookup p items st q) as [?|[? _]]. Qed.

Lemma resolve_pending p items st :
  promises st !! p = Some None ->
  promises (resolve p items st) !! p = Some (Some items).
Proof.
  intros H. unfold resolve. rewrite H. simpl.
  apply list_lookup_insert_eq. by apply lookup_lt_Some in H.
Qed.

Lemma catch_block_cases t p st :
  catch_block t p st = st \/
  catch_block t p st = resolve p [] st \/
  exists m,
    catch_block t p st =
      resolve p [] (toast (JS.lit "Gemini Error: " ++ errorMessage m) st).
Proof.
  unfold catch_block. destruct (negb _); [|by auto].
  destruct (JS.message_of t) as [m|]; eauto.
Qed.

Lemma catch_block_frame t p st :
  same_host st (catch_block t p st) /\
  awaiting (catch_block t p st) = awaiting st /\
  calls (catch_block t p st) = calls st /\
  controllers (catch_block t p st) = controllers st /\
  abortController (catch_block t p st) = abortController st.
Proof.
  unfold same_host.
  destruct (catch_block_cases t p st) as [->|[->|[m ->]]]; [done| |];
    match goal with |- context [resolve p [] ?x] =>
      by destruct (resolve_frame p [] x) as (->&->&->&_&->&->&->&->&->&->&->&_&->)
    end.
Qed.

Lemma completion_resume_frame r p st :
  same_host st (completion_resume r p st) /\
  awaiting (completion_resume r p st) = awaiting st /\
  calls (completion_resume r p st) = calls st /\
  controllers (completion_resume r p st) = controllers st /\
  abortController (completion_resume r p st) = abortController st.
Proof.
  unfold completion_resume, same_host. simpl.
  destruct r as [suggestion|t].
  - destruct (JS.truthy suggestion); [destruct (abortController st) as [c|] eqn:E|].
    1: destruct (negb (aborted c st)).
    all: try match goal with |- context [resolve ?q ?i ?x] =>
      by destruct (resolve_frame q i x) as (->&->&->&_&->&->&->&->&->&->&->&_&->) end.
    by destruct (catch_block_frame (JS.ErrorObject null_signal) p st)
         as ((->&->&->&->&->&->&->)&->&->&->&->).
  - by destruct (catch_block_frame t p st) as ((->&->&->&->&->&->&->)&->&->&->&->).
Qed.

Lemma settles_only_resolve p items st :
  well_formed_items items -> settles_only p st (resolve p items st).
Proof.
  intros Hi q. destruct (resolve_lookup p items st q) as [?|(?&?&?)]; eauto 10.
Qed.

Lemma settles_only_same p st st' :
  promises st' = promises st -> settles_only p st st'.
Proof. intros H q. left. by rewrite H. Qed.

Lemma catch_block_promises t p st : settles_only p st (catch_block t p st).
Proof.
  destruct (catch_block_cases t p st) as [->|[->|[m ->]]].
  - by apply settles_only_same.
  - by apply settles_only_resolve; left.
  - intros q.
    destruct (settles_only_resolve p []
      (toast (JS.lit "Gemini Error: " ++ errorMessage m) st) ltac:(by left) q)
      as [?|(?&?&?)]; eauto.
Qed.

Lemma completion_resume_promises r p st :
  settles_only p st (completion_resume r p st).
Proof.
  unfold completion_resume.
  match goal with |- settles_only _ _ (set_isLoading false ?x) =>
    change (settles_only p st x) end.
  destruct r as [suggestion|t]; [|apply catch_block_promises].
  destruct (JS.truthy suggestion) eqn:Ht.
  - destruct (abortController st) as [c|]; [|apply catch_block_promises].
    destruct (negb (aborted c st)).
    + apply settles_only_resolve. right. exists suggestion.
      split; [by apply truthy_true|done].
    + by apply settles_only_resolve; left.
  - by apply settles_only_resolve; left.
Qed.

Lemma on_timeout_frame cl st :
  same_host st (on_timeout cl st) /\
  settles_only (cl_resolve cl) st (on_timeout cl st) /\
  (awaiting (on_timeout cl st) = awaiting st \/
   exists signal,
     awaiting (on_timeout cl st) =
       awaiting st ++ [Some {| rq_signal := signal; rq_resolve := cl_resolve cl |}] /\
     promises (on_timeout cl st) = promises st).
Proof.
  unfold Plugin.on_timeout.
  set (st1 := if isLoading st then _ else st).
  assert (same_host st st1 /\ promises st1 = promises st /\
          awaiting st1 = awaiting st) as (Hh1 & Hp1 & Ha1).
  { subst st1. destruct (isLoading st); [|done].
    by destruct (abortController st). }
  set (st2 := set_abortController _ _).
  assert (same_host st st2 /\ promises st2 = promises st /\
          awaiting st2 = awaiting st) as (Hh2 & Hp2 & Ha2) by done.
  clearbody st2.
  destruct (_ <? 10).
  { split; [|split].
    - destruct Hh2 as (?&?&?&?&?&?&?). unfold same_host. simpl.
      by destruct (resolve_frame (cl_resolve cl) [] st2)
        as (->&_&->&_&->&->&->&->&_&_&_&_&->).
    - intros q. simpl.
      destruct (settles_only_resolve (cl_resolve cl) [] st2 ltac:(by left) q)
        as [?|(?&?&?)]; [left|right]; rewrite <- ?Hp2; eauto; congruence.
    - left. simpl.
      by destruct (resolve_frame (cl_resolve cl) [] st2)
        as (_&_&_&_&_&_&_&_&_&->&_). }
  unfold getCodeSuggestion_call. simpl.
  destruct (ai st2).
  - split; [done|]. split; [by apply settles_only_same|]. right.
    eexists. by rewrite <- Ha2.
  - match goal with |- context [completion_resume ?r ?p ?x] =>
      destruct (completion_resume_frame r p x) as (Hh & Ha & _);
      pose proof (completion_resume_promises r p x) as Hp end.
    split; [|split].
    + destruct Hh as (?&?&?&?&?&?&?), Hh2 as (?&?&?&?&?&?&?).
      unfold same_host. simpl in *. repeat split; congruence.
    + intros q. destruct (Hp q) as [?|(?&?&?)]; [left|right]; simpl in *;
        rewrite <- ?Hp2; eauto; congruence.
    + left. by rewrite Ha.
Qed.

(** A step that may settle promise [p], held by no timer and no suspended
    call, and that either leaves the suspended calls alone or suspends one
    more call, on [p]. *)
Lemma pwf_frame st st' p :
  plugin_wf st -> same_host st st' -> settles_only p st st' ->
  (forall id t, timers st !! id = Some (Some t) -> cl_resolve (callback t) <> p) ->
  (forall r rq, awaiting st !! r = Some (Some rq) -> rq_resolve rq <> p) ->
  (awaiting st' = awaiting st \/
   exists signal,
     awaiting st' = awaiting st ++ [Some {| rq_signal := signal; rq_resolve := p |}] /\
     promises st' = promises st /\ promises st !! p = Some None) ->
  plugin_wf st'.
Proof.
  intros [H1 H2 H3 H4 H5 H6] (Hai & Hd & Hpr & _ & _ & Ht & Hlen) Hp Htp Hap Haw.
  assert (forall q, q <> p -> promises st' !! q = promises st !! q) as Hother.
  { intros q Hq. by destruct (Hp q) as [?|(? & _)]. }
  assert (forall r rq, awaiting st' !! r = Some (Some rq) ->
            awaiting st !! r = Some (Some rq) \/
            r = length (awaiting st) /\ rq_resolve rq = p /\
            promises st' = promises st /\ promises st !! p = Some None) as Hcases.
  { intros r rq Hl. destruct Haw as [Haw|(signal & Haw & Hps & Hpp)];
      rewrite Haw in Hl; [by left|].
    apply lookup_snoc_Some in Hl as [[_ Hl]|[-> [= <-]]]; [by left|by right]. }
  split; rewrite ?Hai, ?Hd, ?Hpr, ?Ht; try done.
  - intros id t Hl. destruct (H2 _ _ Hl) as [Hid Hpend].
    split; [done|]. rewrite Hother; eauto.
  - intros r rq Hl. destruct (Hcases _ _ Hl) as [Hl'|(_ & <- & -> & Hpp)]; [|done].
    rewrite Hother; eauto.
  - intros id t r rq Hl Hl'.
    destruct (Hcases _ _ Hl') as [Hl''|(_ & -> & _)]; eauto.
  - intros r r' rq rq' Hl Hl' Heq.
    destruct (Hcases _ _ Hl) as [Hr|(-> & Hr & _)],
             (Hcases _ _ Hl') as [Hr'|(-> & Hr' & _)]; eauto.
    + apply Hap in Hr. congruence.
    + apply Hap in Hr'. congruence.
  - intros q items Hl. destruct (Hp q) as [Heq|(_ & _ & items' & Hl' & Hw)].
    + rewrite Heq in Hl. eauto.
    + rewrite Hl' in Hl. by injection Hl as <-.
Qed.

Lemma pwf_timeout st id t :
  plugin_wf st -> timers st !! id = Some (Some t) ->
  plugin_wf (on_timeout (callback t)
               (set_timers (<[id:=None]> (timers st))
                  (set_now (now st `max` due t) st))).
Proof.
  intros Hwf Hid.
  set (st1 := set_timers _ _).
  assert (forall i u, timers st1 !! i <> Some (Some u)) as Hnone.
  { intros i u. simpl.
    intros [(_ & [=] & _)|[Hne Hl]]%list_lookup_insert_Some.
    destruct (pw_timer _ Hwf _ _ Hl) as [Hi _], (pw_timer _ Hwf _ _ Hid) as [Hi' _].
    congruence. }
  assert (plugin_wf st1) as Hwf1.
  { destruct Hwf as [H1 H2 H3 H4 H5 H6]. split; try done.
    - simpl. destruct (ai st); [done|]. destruct H1 as [? Ht]. by rewrite Ht in Hid.
    - intros i u Hl. by destruct (Hnone _ _ Hl).
    - intros i u r rq Hl. by destruct (Hnone _ _ Hl). }
  destruct (on_timeout_frame (callback t) st1) as (Hh & Hp & Ha).
  apply (pwf_frame st1 _ _ Hwf1 Hh Hp).
  - intros i u Hl. by destruct (Hnone _ _ Hl).
  - intros r rq Hl Heq. by apply (pw_timer_awaiting _ Hwf _ _ _ _ Hid Hl).
  - destruct Ha as [Ha|(signal & Ha & Hps)]; [by left|]. right.
    exists signal. repeat split; try done.
    by destruct (pw_timer _ Hwf _ _ Hid).
Qed.

Lemma plugin_run_timers_invariant (P : state -> Prop) fuel deadline st :
  (forall st id t, P st -> timers st !! id = Some (Some t) -> due t <= deadline ->
     P (on_timeout (callback t)
          (set_timers (<[id:=None]> (timers st))
             (set_now (now st `max` due t) st)))) ->
  P st -> P (run_timers fuel deadline st).
Proof.
  intros Hstep. revert st. induction fuel as [|fuel IH]; intros st HP; [done|].
  simpl. destruct (next_timer (timers st) 0) as [[id t]|] eqn:E; [|done].
  destruct (due t <=? deadline) eqn:Hd; [|done].
  apply IH, Hstep; [done| |by apply Nat.leb_le].
  apply next_timer_lookup in E as [_ E]. by rewrite Nat.sub_0_r in E.
Qed.

Lemma pwf_elapse ms st : plugin_wf st -> plugin_wf (elapse ms st).
Proof.
  intros Hwf. unfold Plugin.elapse.
  assert (plugin_wf (run_timers (length (timers st)) (now st + ms) st))
    as [H1 H2 H3 H4]; [|by split].
  apply plugin_run_timers_invariant; [|done].
  intros s id t Hs Hid _. by apply pwf_timeout.
Qed.

Lemma pwf_provideCompletions s pos st :
  plugin_wf st -> 0 < providers st -> plugin_wf (provideCompletions s pos st).
Proof.
  intros [H1 H2 H3 H4 H5 H6] Hreg. unfold provideCompletions.
  change (debounceTimeout (set_promises (promises st ++ [None]) st))
    with (debounceTimeout st).
  assert (forall x, timers (clearTimeout (debounceTimeout st) x) =
            match debounceTimeout st with
            | Some id => <[id:=None]> (timers x)
            | None => timers x
            end) as Hclear by (intros x; by destruct (debounceTimeout st)).
  set (st1 := clearTimeout _ _).
  assert (forall i u, timers st1 !! i <> Some (Some u)) as Hnone.
  { intros i u. unfold st1. rewrite Hclear. simpl. intros Hl.
    destruct (debounceTimeout st) as [id|] eqn:E.
    - apply list_lookup_insert_Some in Hl as [(_ & [=] & _)|[Hne Hl]].
      destruct (H2 _ _ Hl) as [Hid _]. congruence.
    - destruct (H2 _ _ Hl) as [Hid _]. congruence. }
  assert (ai st1 = ai st /\ providers st1 = providers st /\
          promises st1 = promises st ++ [None] /\ awaiting st1 = awaiting st)
    as (Hai & Hpr & Hps & Haw) by (unfold st1; by destruct (debounceTimeout st)).
  assert (forall r rq, awaiting st !! r = Some (Some rq) ->
            rq_resolve rq < length (promises st)) as Hlt.
  { intros r rq Hl. apply H3 in Hl. by apply lookup_lt_Some in Hl. }
  clearbody st1.
  split; simpl; rewrite ?Hai, ?Hpr, ?Hps, ?Haw.
  - destruct (ai st); [done|]. lia.
  - intros i u [[_ Hl]|[-> [= <-]]]%lookup_snoc_Some.
    + by destruct (Hnone _ _ Hl).
    + split; [done|]. simpl. by rewrite lookup_app_r, Nat.sub_diag.
  - intros r rq Hl. rewrite lookup_app_l by eauto. eauto.
  - intros i u r rq [[_ Hl]|[-> [= <-]]]%lookup_snoc_Some Hl'.
    + by destruct (Hnone _ _ Hl).
    + simpl. apply Hlt in Hl'. lia.
  - done.
  - intros p items [[_ Hl]|[_ [=]]]%lookup_snoc_Some. eauto.
Qed.

Lemma pwf_fewer_timers st x :
  plugin_wf st ->
  ai x = ai st -> providers x = providers st -> promises x = promises st ->
  awaiting x = awaiting st -> debounceTimeout x = debounceTimeout st ->
  (timers x = timers st \/ exists id, timers x = <[id:=None]> (timers st)) ->
  plugin_wf x.
Proof.
  intros [H1 H2 H3 H4 H5 H6] Hai Hpr Hps Haw Hd Ht.
  assert (forall i u, timers x !! i = Some (Some u) ->
            timers st !! i = Some (Some u)) as Hsub.
  { intros i u. destruct Ht as [->|[id ->]]; [done|].
    by intros [(_ & [=] & _)|[_ Hl]]%list_lookup_insert_Some. }
  split; rewrite ?Hai, ?Hpr, ?Hps, ?Haw, ?Hd; eauto.
  destruct (ai st); [done|]. destruct H1 as [? Hnil]. split; [done|].
  destruct Ht as [->|[id ->]]; by rewrite Hnil.
Qed.

Lemma pwf_step st e st' : plugin_wf st -> step st e = Some st' -> plugin_wf st'.
Proof.
  intros Hwf. destruct e as [settings| |s content|s pos|ms|r o]; simpl.
  - intros [= <-]. destruct Hwf as [H1 H2 H3 H4 H5 H6]. unfold init.
    destruct settings as [[[|c k]|]|]; by split.
  - intros [= <-]. unfold destroy, clearTimeout.
    destruct (abortController st); simpl;
      destruct (debounceTimeout st) eqn:E;
      apply (pwf_fewer_timers st); simpl; eauto.
  - intros [= <-]. destruct Hwf as [H1 H2 H3 H4 H5 H6]. by split.
  - destruct (0 <? providers st) eqn:Hreg; [|done]. intros [= <-].
    apply pwf_provideCompletions; [done|]. by apply Nat.ltb_lt.
  - intros [= <-]. by apply pwf_elapse.
  - destruct (awaiting st !! r) as [[rq|]|] eqn:Hr; [|done..]. intros [= <-].
    set (x := set_awaiting _ st).
    assert (forall r' rq', awaiting x !! r' = Some (Some rq') ->
              r' <> r /\ awaiting st !! r' = Some (Some rq')) as Hsub.
    { intros r' rq'. simpl.
      by intros [(_ & [=] & _)|[? Hl]]%list_lookup_insert_Some. }
    assert (plugin_wf x) as Hwfx.
    { destruct Hwf as [H1 H2 H3 H4 H5 H6]. split; try done.
      - intros r' rq' [_ Hl]%Hsub. eauto.
      - intros i u r' rq' Hl [_ Hl']%Hsub. eauto.
      - intros r1 r2 rq1 rq2 [_ Hl1]%Hsub [_ Hl2]%Hsub. eauto. }
    match goal with |- plugin_wf (completion_resume ?a ?p ?y) =>
      destruct (completion_resume_frame a p y) as (Hh & Ha & _);
      pose proof (completion_resume_promises a p y) as Hp;
      apply (pwf_frame x _ _ Hwfx Hh Hp) end.
    + intros i u Hl Heq. by apply (pw_timer_awaiting _ Hwf _ _ _ _ Hl Hr).
    + intros r' rq' [Hne Hl]%Hsub Heq.
      apply Hne. by apply (pw_awaiting_inj _ Hwf _ _ _ _ Hl Hr).
    + by left.
Qed.

Lemma pwf_run st evs st' : plugin_wf st -> run st evs = Some st' -> plugin_wf st'.
Proof.
  revert st. induction evs as [|e evs IH]; intros st Hwf; simpl.
  - by intros [= <-].
  - destruct (Plugin.step _ _ st e) as [st1|] eqn:E; [|done]. eauto using pwf_step.
Qed.

Lemma plugin_reachable_wf st : reachable st -> plugin_wf st.
Proof.
  intros (sessions0 & evs & H). eapply pwf_run; [|exact H].
  split; simpl; try done; intros; by rewrite ?lookup_nil in *.
Qed.

(** *** The client handle *)

Lemma getCodeSuggestion_call_client st client snippet language :
  ai st = Some client ->
  getCodeSuggestion_call st snippet language =
    inr {| call_snippet := snippet;
           call_language := Some (JS.last_segment language) |}.
Proof. intros H. unfold getCodeSuggestion_call. by rewrite H. Qed.

(** C10: in every state the plugin can be in, if the provider is registered
    or one of its timers is pending, then the client handle is there, built
    from a key that is not empty, and [#getCodeSuggestion] gets past its
    guard to make the call. *)
Theorem registered_provider_has_client st :
  reachable st ->
  0 < providers st \/ (exists id t, timers st !! id = Some (Some t)) ->
  exists client,
    ai st = Some client /\ apiKey client <> [] /\
    forall snippet language,
      getCodeSuggestion_call st snippet language =
        inr {| call_snippet := snippet;
               call_language := Some (JS.last_segment language) |}.
Proof.
  intros Hreach Hreg. apply plugin_reachable_wf in Hreach as Hwf.
  pose proof (pw_client _ Hwf) as Hc.
  destruct (ai st) as [client|] eqn:E.
  - exists client. repeat split; try done.
    intros. by eapply getCodeSuggestion_call_client.
  - destruct Hc as [Hp Ht]. destruct Hreg as [?|(id & t & Hl)]; [lia|].
    by rewrite Ht in Hl.
Qed.

(** *** Candidates *)


(** *** The length guard *)


(** *** Failures *)

(** A failing call: the [catch] block and the [finally], on the promise of
    the invocation that made the call. *)
Lemma plugin_settle_failure st r rq t :
  reachable st -> awaiting st !! r = Some (Some rq) ->
  exists st',
    step st (Settle r (Failure t)) = Some st' /\ isLoading st' = false /\
    (toasts st', promises st' !! rq_resolve rq) =
      if bool_decide (JS.name_of t = Some (JS.lit "AbortError"))
      then (toasts st, Some (Some []))
      else match JS.message_of t with
           | Some m =>
               (toasts st ++ [JS.lit "Gemini Error: " ++ errorMessage m],
                Some (Some []))
           | None => (toasts st, Some None)
           end.
Proof.
  intros Hwf%plugin_reachable_wf Hr.
  pose proof (pw_awaiting _ Hwf _ _ Hr) as Hp.
  unfold Plugin.step. rewrite Hr.
  change (getCodeSuggestion_resume ?b (Failure ?t)) with (@Rejected jsstring t).
  eexists. split; [reflexivity|]. split; [done|].
  unfold completion_resume.
  set (st1 := set_awaiting _ st).
  match goal with |- (toasts (set_isLoading false ?x), _) = _ =>
    change ((toasts x, promises x !! rq_resolve rq) =
            if bool_decide (JS.name_of t = Some (JS.lit "AbortError"))
            then (toasts st1, Some (Some []))
            else match JS.message_of t with
                 | Some m =>
                     (toasts st1 ++ [JS.lit "Gemini Error: " ++ errorMessage m],
                      Some (Some []))
                 | None => (toasts st1, Some None)
                 end) end.
  assert (promises st1 !! rq_resolve rq = Some None) as Hp1 by exact Hp.
  clearbody st1. unfold catch_block.
  destruct (bool_decide _); cbn [negb].
  - destruct (resolve_frame (rq_resolve rq) [] st1)
      as (_&_&_&_&_&_&_&_&_&_&_&->&_).
    by rewrite (resolve_pending _ _ _ Hp1).
  - destruct (JS.message_of t) as [m|]; [|by rewrite Hp1].
    match goal with |- context [resolve _ [] ?x] =>
      destruct (resolve_frame (rq_resolve rq) [] x)
        as (_&_&_&_&_&_&_&_&_&_&_&->&_);
      rewrite (resolve_pending (rq_resolve rq) [] x Hp1) end.
    done.
Qed.

(** *** Time in the plugin *)

(** Before any pending timer is due, the passing of time is only that. *)
Lemma plugin_elapse_quiet ms st :
  (forall id t, timers st !! id = Some (Some t) -> now st + ms < due t) ->
  elapse ms st = set_now (now st + ms) st.
Proof.
  intros Hdue. unfold Plugin.elapse. f_equal.
  destruct (length (timers st)) as [|fuel]; [done|]. simpl.
  destruct (next_timer (timers st) 0) as [[id t]|] eqn:E; [|done].
  apply next_timer_lookup in E as [_ E]. rewrite Nat.sub_0_r in E.
  apply Hdue in E. by replace (due t <=? now st + ms) with false
    by (symmetry; apply Nat.leb_gt; lia).
Qed.

Lemma next_timer_only {C} (ts : list (option (timer C))) h t :
  ts !! h = Some (Some t) ->
  (forall id u, ts !! id = Some (Some u) -> id = h) ->
  next_timer ts 0 = Some (h, t).
Proof.
  intros Hh Honly. destruct (next_timer ts 0) as [[id u]|] eqn:E.
  - apply next_timer_lookup in E as [_ E]. rewrite Nat.sub_0_r in E.
    assert (id = h) as -> by eauto. congruence.
  - destruct (next_timer_None _ _ _ _ E Hh).
Qed.

(** Once the one pending timer is due, the passing of time runs its
    callback and nothing else. *)
Lemma plugin_elapse_due ms st h t :
  timers st !! h = Some (Some t) ->
  (forall id u, timers st !! id = Some (Some u) -> id = h) ->
  due t <= now st + ms ->
  elapse ms st =
    set_now (now st + ms)
      (on_timeout (callback t)
         (set_timers (<[h:=None]> (timers st)) (set_now (now st `max` due t) st))).
Proof.
  intros Hh Honly Hdue. unfold Plugin.elapse. f_equal.
  destruct (length (timers st)) as [|fuel] eqn:Hlen.
  { apply lookup_lt_Some in Hh. lia. }
  simpl. rewrite (next_timer_only _ _ _ Hh Honly).
  replace (due t <=? now st + ms) with true by (symmetry; by apply Nat.leb_le).
  set (st1 := on_timeout _ _).
  assert (timers st1 = <[h:=None]> (timers st)) as Ht.
  { unfold st1. by destruct (on_timeout_frame (callback t)
      (set_timers (<[h:=None]> (timers st)) (set_now (now st `max` due t) st)))
      as ((_&_&_&_&_&->&_)&_). }
  destruct fuel as [|fuel]; [done|]. simpl.
  destruct (next_timer (timers st1) 0) as [[id u]|] eqn:E; [|done].
  apply next_timer_lookup in E as [_ E]. rewrite Nat.sub_0_r, Ht in E.
  apply list_lookup_insert_Some in E as [(_ & [=] & _)|[Hne E]].
  apply Honly in E. congruence.
Qed.


(** *** Invocations that are answered *)

Lemma completion_resume_answers r p st :
  promises st !! p = Some None -> (forall t, r = Rejected t -> caught t) ->
  exists items,
    promises (completion_resume r p st) !! p = Some (Some items) /\
    well_formed_items items.
Proof.
  intros Hp Hr. unfold completion_resume.
  match goal with |- context [set_isLoading false ?y] =>
    change (exists items, promises y !! p = Some (Some items) /\
                          well_formed_items items) end.
  assert (forall x, promises x = promises st ->
            exists items, promises (resolve p [] x) !! p = Some (Some items) /\
                          well_formed_items items) as Hempty.
  { intros x Hx. exists []. split; [|by left].
    apply resolve_pending. by rewrite Hx. }
  assert (forall t, caught t ->
            exists items, promises (catch_block t p st) !! p = Some (Some items) /\
                          well_formed_items items) as Hcatch.
  { intros t Ht. unfold catch_block.
    destruct (negb _) eqn:Hn; [|by apply Hempty].
    destruct Ht as [Ht|[m Ht]].
    - by rewrite bool_decide_eq_true_2 in Hn.
    - rewrite Ht. by apply Hempty. }
  destruct r as [suggestion|t].
  - destruct (JS.truthy suggestion) eqn:Hs; [|by apply Hempty].
    destruct (abortController st) as [c|].
    2: { apply Hcatch. right. by eexists. }
    destruct (negb (aborted c st)); [|by apply Hempty].
    exists [completion_item suggestion]. split; [by apply resolve_pending|].
    right. exists suggestion. split; [by apply truthy_true|done].
  - by apply Hcatch, Hr.
Qed.

(** X2: once its timer has run, an invocation is answered when its call
    settles, with no item or one: for every response, and for every failure
    that the [catch] block takes through to its [resolve], which are the
    [Error] objects and also any other thrown value that is named
    [AbortError] or holds a string under [message]. *)
Theorem answered_when_settled st r rq o st' :
  reachable st -> awaiting st !! r = Some (Some rq) ->
  (forall t, o = Failure t -> caught t) -> step st (Settle r o) = Some st' ->
  exists items,
    promises st' !! rq_resolve rq = Some (Some items) /\ well_formed_items items.
Proof.
  intros Hwf%plugin_reachable_wf Hr Ho. simpl. rewrite Hr. intros [= <-].
  apply completion_resume_answers.
  - exact (pw_awaiting _ Hwf _ _ Hr).
  - destruct o as [text|t]; simpl.
    + destruct (aborted _ _); [done|]. destruct text as [t|]; [|done].
      by destruct (JS.truthy t).
    + intros ? [= <-]. by apply Ho.
Qed.

(** *** Invocations that are never answered *)

Lemma orphan_timeout p st id t :
  orphan p st -> timers st !! id = Some (Some t) ->
  orphan p (on_timeout (callback t)
              (set_timers (<[id:=None]> (timers st))
                 (set_now (now st `max` due t) st))).
Proof.
  intros (Hp & Ht & Ha) Hid.
  set (st1 := set_timers _ _).
  destruct (on_timeout_frame (callback t) st1)
    as ((_&_&_&_&_&Htm&_) & Hs & Haw).
  pose proof (Ht _ _ Hid) as Hne.
  split; [|split].
  - destruct (Hs p) as [->|(Heq & _)]; [done|congruence].
  - intros i u. rewrite Htm. simpl.
    intros [(_ & [=] & _)|[_ Hl]]%list_lookup_insert_Some. eauto.
  - intros r rq Hl. destruct Haw as [Haw|(signal & Haw & _)]; rewrite Haw in Hl.
    + eauto.
    + apply lookup_snoc_Some in Hl as [[_ Hl]|[_ [= <-]]]; [eauto|done].
Qed.

Lemma orphan_step p st e st' :
  orphan p st -> step st e = Some st' -> orphan p st'.
Proof.
  intros Ho. pose proof Ho as (Hp & Ht & Ha).
  destruct e as [settings| |s content|s pos|ms|r o]; simpl.
  - intros [= <-]. unfold init. destruct settings as [[[|c k]|]|]; exact Ho.
  - intros [= <-]. unfold destroy, clearTimeout.
    destruct (abortController st); simpl;
      destruct (debounceTimeout st); simpl; (split; [done|split; [|done]]);
      try done; simpl;
      intros i u [(_ & [=] & _)|[_ Hl]]%list_lookup_insert_Some; eauto.
  - intros [= <-]. exact Ho.
  - destruct (0 <? providers st); [|done]. intros [= <-].
    unfold provideCompletions, clearTimeout. simpl.
    apply lookup_lt_Some in Hp as Hlt.
    destruct (debounceTimeout st); (split; [|split]); simpl; try done.
    all: try by rewrite lookup_app_l.
    all: intros i u [[_ Hl]|[_ [= <-]]]%lookup_snoc_Some; [|simpl; lia].
    + apply list_lookup_insert_Some in Hl as [(_ & [=] & _)|[_ Hl]]. eauto.
    + eauto.
  - intros [= <-]. unfold Plugin.elapse.
    assert (orphan p (run_timers (length (timers st)) (now st + ms) st))
      as (?&?&?); [|done].
    apply plugin_run_timers_invariant; [|done].
    intros x id t Hx Hid _. by apply orphan_timeout.
  - destruct (awaiting st !! r) as [[rq|]|] eqn:Hr; [|done..]. intros [= <-].
    match goal with |- orphan p (completion_resume ?a ?q ?x) =>
      destruct (completion_resume_frame a q x) as ((_&_&_&_&_&Htm&_) & Haw & _);
      pose proof (completion_resume_promises a q x p) as Hs end.
    pose proof (Ha _ _ Hr) as Hne.
    split; [|split].
    + destruct Hs as [->|(Heq & _)]; [done|congruence].
    + by rewrite Htm.
    + rewrite Haw. simpl.
      intros r' rq' [(_ & [=] & _)|[_ Hl]]%list_lookup_insert_Some. eauto.
Qed.

Lemma orphan_run p st evs st' :
  orphan p st -> run st evs = Some st' -> orphan p st'.
Proof.
  revert st. induction evs as [|e evs IH]; intros st Ho; simpl.
  - by intros [= <-].
  - destruct (Plugin.step _ _ st e) as [st1|] eqn:E; [|done].
    eauto using orphan_step.
Qed.

Lemma provideCompletions_fields s pos st :
  plugin_wf st ->
  let st1 := provideCompletions s pos st in
  exists cleared,
    length cleared = length (timers st) /\
    (forall id u, cleared !! id <> Some (Some u)) /\
    (forall id, timers st !! id = Some None \/ debounceTimeout st = Some id ->
       id < length (timers st) -> cleared !! id = Some None) /\
    timers st1 =
      cleared ++
        [Some {| due := now st + 700;
                 callback := {| cl_session := s; cl_pos := pos;
                                cl_resolve := length (promises st) |} |}] /\
    debounceTimeout st1 = Some (length (timers st)) /\
    promises st1 = promises st ++ [None] /\
    awaiting st1 = awaiting st /\ calls st1 = calls st /\
    now st1 = now st /\ sessions st1 = sessions st /\
    ai st1 = ai st /\ providers st1 = providers st.
Proof.
  intros Hwf st1. subst st1. unfold provideCompletions, clearTimeout. simpl.
  destruct (debounceTimeout st) as [h|] eqn:E; simpl.
  - exists (<[h:=None]> (timers st)). rewrite length_insert.
    repeat split; try done.
    + intros id u [(_ & [=] & _)|[Hne Hl]]%list_lookup_insert_Some.
      destruct (pw_timer _ Hwf _ _ Hl) as [? _]. congruence.
    + intros id [Hn|[= ->]] Hlt.
      * destruct (decide (h = id)) as [->|?];
          [by apply list_lookup_insert_eq | by rewrite list_lookup_insert_ne].
      * by apply list_lookup_insert_eq.
  - exists (timers st). repeat split; try done.
    + intros id u Hl. destruct (pw_timer _ Hwf _ _ Hl) as [? _]. congruence.
    + by intros id [Hn|[=]] Hlt.
Qed.

(** C4, what the code does instead: an invocation of the provider followed
    within the debounce delay by another one is never answered.  Its promise
    is pending in every state that follows, whatever happens next. *)
Theorem superseded_invocation_is_never_answered
    st s pos gap s' pos' evs st' :
  reachable st -> gap < 700 ->
  run st (ProvideCompletions s pos :: Elapse gap ::
          ProvideCompletions s' pos' :: evs) = Some st' ->
  promises st' !! length (promises st) = Some None.
Proof.
  intros Hreach Hgap. apply plugin_reachable_wf in Hreach as Hwf.
  cbn [Plugin.run Plugin.step].
  destruct (0 <? providers st) eqn:Hreg; [|done].
  set (st1 := provideCompletions s pos st).
  assert (plugin_wf st1) as Hwf1
    by (apply pwf_provideCompletions; [done | by apply Nat.ltb_lt]).
  destruct (provideCompletions_fields s pos st Hwf)
    as (cleared & Hlen & Hnone & _ & Ht1 & Hd1 & Hp1 & Ha1 & _ & Hn1 & _ & _ & Hpr1).
  fold st1 in Ht1, Hd1, Hp1, Ha1, Hn1, Hpr1. clearbody st1.
  rewrite plugin_elapse_quiet.
  2: { intros id t. rewrite Ht1.
       intros [[_ Hl]|[_ [= <-]]]%lookup_snoc_Some; [by destruct (Hnone _ _ Hl)|].
       cbn [due]. lia. }
  set (st2 := set_now _ st1).
  assert (plugin_wf st2) as Hwf2 by (destruct Hwf1; by split).
  replace (providers st2) with (providers st) by by rewrite <- Hpr1.
  rewrite Hreg.
  set (st3 := provideCompletions s' pos' st2).
  destruct (provideCompletions_fields s' pos' st2 Hwf2)
    as (cleared' & Hlen' & Hnone' & _ & Ht3 & _ & Hp3 & Ha3 & _).
  fold st3 in Ht3, Hp3, Ha3. clearbody st3.
  change (promises st2) with (promises st1) in *.
  change (awaiting st2) with (awaiting st1) in *.
  apply orphan_run. split; [|split].
  - rewrite Hp3, Hp1.
    rewrite lookup_app_l by (rewrite length_app; simpl; lia).
    by rewrite lookup_app_r, Nat.sub_diag.
  - intros id t. rewrite Ht3.
    intros [[_ Hl]|[_ [= <-]]]%lookup_snoc_Some; [by destruct (Hnone' _ _ Hl)|].
    cbn [callback cl_resolve]. rewrite Hp1, length_app. simpl. lia.
  - intros r rq. rewrite Ha3, Ha1. intros Hl.
    apply (pw_awaiting _ Hwf) in Hl. apply lookup_lt_Some in Hl. lia.
Qed.

(** *** Debouncing *)

Lemma on_timeout_calls cl st client :
  ai st = Some client ->
  calls (on_timeout cl st) =
    calls st ++
      plugin_calls getTextRange getModeId
        (cl_session cl, sessions st (cl_session cl), cl_pos cl).
Proof.
  intros Hai. unfold Plugin.on_timeout, plugin_calls.
  set (st1 := if isLoading st then _ else st).
  assert (sessions st1 = sessions st /\ calls st1 = calls st /\ ai st1 = ai st)
    as (Hs1 & Hc1 & Ha1).
  { subst st1. destruct (isLoading st); [|done]. by destruct (abortController st). }
  set (st2 := set_abortController _ _).
  assert (sessions st2 = sessions st /\ calls st2 = calls st /\ ai st2 = ai st)
    as (Hs2 & Hc2 & Ha2) by done.
  clearbody st2. rewrite Hs2.
  destruct (_ <? 10).
  - match goal with |- context [resolve ?q ?i ?x] =>
      destruct (resolve_frame q i x) as (_&_&_&_&_&_&_&_&_&_&Hc&_) end.
    change (calls (resolve (cl_resolve cl) [] st2) = calls st ++ []).
    by rewrite Hc, Hc2, app_nil_r.
  - unfold getCodeSuggestion_call.
    change (ai (toast _ st2)) with (ai st2). rewrite Ha2, Hai.
    change (calls st2 ++ [{| call_snippet :=
                               getTextRange (sessions st (cl_session cl)) (cl_pos cl);
                             call_language :=
                               Some (JS.last_segment
                                       (getModeId (sessions st (cl_session cl)))) |}]
            = calls st ++ [{| call_snippet :=
                               getTextRange (sessions st (cl_session cl)) (cl_pos cl);
                             call_language :=
                               Some (JS.last_segment
                                       (getModeId (sessions st (cl_session cl)))) |}]).
    by rewrite Hc2.
Qed.

Lemma provide_arms st s pos first_id :
  plugin_wf st -> first_id <= length (timers st) ->
  (forall id, first_id <= id -> id < length (timers st) ->
     timers st !! id = Some None \/ debounceTimeout st = Some id) ->
  plugin_armed (provideCompletions s pos st) first_id (s, sessions st s, pos) /\
  length (timers (provideCompletions s pos st)) = S (length (timers st)).
Proof.
  intros Hwf Hfirst Hold.
  destruct (provideCompletions_fields s pos st Hwf)
    as (cleared & Hlen & Hnone & Hclr & Ht & Hd & Hp & Ha & Hc & Hn & Hs & _).
  split.
  - split; [by rewrite Hs|].
    exists (length (timers st)), (length (promises st)).
    rewrite Hd, Ht, Hn, length_app, Hlen. simpl.
    split; [done|]. split; [by rewrite lookup_app_r, Hlen, Nat.sub_diag by lia|].
    split; [lia|]. split; [done|].
    intros id Hge Hlt. rewrite lookup_app_l by lia. apply Hclr; auto.
  - rewrite Ht, length_app, Hlen. simpl. lia.
Qed.

Lemma plugin_burst_runs later : forall st first_id e,
  plugin_wf st -> 0 < providers st -> plugin_armed st first_id e ->
  plugin_burst_ok 700 later ->
  exists st1,
    run st (plugin_burst later) = Some st1 /\ plugin_wf st1 /\
    calls st1 = calls st /\ ai st1 = ai st /\
    plugin_armed st1 first_id (plugin_burst_last e later) /\
    length (timers st1) = length (timers st) + length later.
Proof.
  induction later as [|[gap [[s' content'] pos']] rest IH];
    intros st first_id [[s content] pos] Hwf Hreg Harmed Hok.
  { exists st. simpl. rewrite Nat.add_0_r. split; [done|]. split; [done|].
    split; [done|]. split; [done|]. split; [exact Harmed|done]. }
  apply Forall_cons in Hok as [Hgap Hok]. simpl in Hgap.
  destruct Harmed as (Hsess & h & p & Hd & Hh & Hlen & Hfirst & Hnone).
  cbn [plugin_burst plugin_edit app Plugin.run Plugin.step].
  rewrite plugin_elapse_quiet.
  2: { intros id t Hl. destruct (pw_timer _ Hwf _ _ Hl) as [Hid _].
       assert (id = h) as -> by congruence.
       rewrite Hh in Hl. injection Hl as <-. simpl. lia. }
  set (st2 := set_sessions _ _).
  assert (plugin_wf st2) as Hwf2 by (destruct Hwf; by split).
  change (providers st2) with (providers st).
  replace (0 <? providers st) with true by (symmetry; by apply Nat.ltb_lt).
  destruct (provide_arms st2 s' pos' first_id Hwf2) as [Harmed3 Hlen3].
  { change (timers st2) with (timers st). lia. }
  { intros id Hge Hlt. change (timers st2) with (timers st) in *.
    change (debounceTimeout st2) with (debounceTimeout st).
    destruct (decide (id = h)) as [->|?]; [by right|].
    left. apply Hnone; [done|lia]. }
  assert (sessions st2 s' = content') as Hs2
    by (simpl; by rewrite bool_decide_eq_true_2).
  rewrite Hs2 in Harmed3.
  destruct (provideCompletions_fields s' pos' st2 Hwf2)
    as (_ & _ & _ & _ & _ & _ & _ & _ & Hc3 & _ & _ & Hai3 & Hpr3).
  set (st3 := provideCompletions s' pos' st2) in *.
  assert (plugin_wf st3) as Hwf3 by by apply pwf_provideCompletions.
  clearbody st3.
  destruct (IH st3 first_id (s', content', pos') Hwf3)
    as (st1 & Hrun & Hwf1 & Hc1 & Hai1 & Harmed1 & Hlen1); try done.
  { by rewrite Hpr3. }
  exists st1. split; [done|]. split; [done|].
  split; [by rewrite Hc1, Hc3|]. split; [by rewrite Hai1, Hai3|].
  split; [done|].
  rewrite Hlen1, Hlen3. change (timers st2) with (timers st). simpl. lia.
Qed.

Lemma plugin_run_app st evs1 evs2 :
  run st (evs1 ++ evs2) =
    match run st evs1 with
    | Some st1 => run st1 evs2
    | None => None
    end.
Proof.
  revert st. induction evs1 as [|e evs1 IH]; intros st; [done|].
  simpl. by destruct (Plugin.step _ _ st e).
Qed.

Lemma plugin_burst_app (l1 l2 : list (nat * (nat * Session * Pos))) :
  plugin_burst (l1 ++ l2) = plugin_burst l1 ++ plugin_burst l2.
Proof.
  induction l1 as [|[gap [[s content] pos]] l1 IH]; simpl; by rewrite ?IH.
Qed.

(** At each later edit of a burst, the timer of the invocation before is
    still pending and not yet due. *)
Lemma plugin_burst_timer_pending st first l1 gap e l2 :
  reachable st -> 0 < providers st ->
  plugin_burst_ok 700 (l1 ++ (gap, e) :: l2) ->
  exists x t,
    run st (plugin_edit first ++ plugin_burst l1 ++ [Elapse gap]) = Some x /\
    timers x !! (length (timers st) + length l1) = Some (Some t) /\
    now x < due t.
Proof.
  intros Hreach Hreg Hok. apply plugin_reachable_wf in Hreach as Hwf.
  apply Forall_app in Hok as [Hok1 Hok2].
  apply Forall_cons in Hok2 as [Hgap _]. simpl in Hgap.
  destruct first as [[s content] pos].
  cbn [plugin_edit app Plugin.run Plugin.step].
  set (st0 := set_sessions _ _).
  assert (plugin_wf st0) as Hwf0 by (destruct Hwf; by split).
  change (providers st0) with (providers st).
  replace (0 <? providers st) with true by (symmetry; by apply Nat.ltb_lt).
  destruct (provide_arms st0 s pos (length (timers st)) Hwf0) as [Harmed1 Hlen1];
    [done|intros; change (timers st0) with (timers st) in *; lia|].
  assert (sessions st0 s = content) as Hs0
    by (simpl; by rewrite bool_decide_eq_true_2).
  rewrite Hs0 in Harmed1.
  destruct (provideCompletions_fields s pos st0 Hwf0)
    as (_ & _ & _ & _ & _ & _ & _ & _ & _ & _ & _ & _ & Hpr1).
  set (st1 := provideCompletions s pos st0) in *.
  assert (plugin_wf st1) as Hwf1 by by apply pwf_provideCompletions.
  clearbody st1.
  destruct (plugin_burst_runs l1 st1 _ _ Hwf1 ltac:(by rewrite Hpr1) Harmed1 Hok1)
    as (st2 & Hrun & Hwf2 & _ & _ & Harmed2 & Hlen2).
  change (timers st0) with (timers st) in Hlen1.
  destruct (plugin_burst_last (s, content, pos) l1) as [[s' content'] pos'].
  destruct Harmed2 as (_ & h & p & Hd & Hh & Hlen & _).
  rewrite plugin_run_app, Hrun. cbn [Plugin.run Plugin.step].
  rewrite plugin_elapse_quiet.
  2: { intros i u Hl. destruct (pw_timer _ Hwf2 _ _ Hl) as [Hi _].
       assert (i = h) as -> by congruence.
       rewrite Hh in Hl. injection Hl as <-. simpl. lia. }
  eexists _, _. split; [done|].
  replace (length (timers st) + length l1) with h by lia.
  split; [exact Hh|]. simpl. lia.
Qed.

(** Debounce coalescing in the plugin. *)
Lemma plugin_debounce st first later :
  reachable st -> 0 < providers st -> plugin_burst_ok 700 later ->
  exists st1,
    run st (plugin_edit first ++ plugin_burst later) = Some st1 /\
    calls st1 = calls st /\
    length (timers st1) = length (timers st) + S (length later) /\
    (forall id, length (timers st) <= id -> S id < length (timers st1) ->
       timers st1 !! id = Some None) /\
    forall ms, 700 <= ms ->
      calls (elapse ms st1) =
        calls st ++
          plugin_calls getTextRange getModeId (plugin_burst_last first later) /\
      forall ms', calls (elapse ms' (elapse ms st1)) = calls (elapse ms st1).
Proof.
  intros Hreach Hreg Hok. apply plugin_reachable_wf in Hreach as Hwf.
  destruct first as [[s content] pos].
  cbn [plugin_edit app Plugin.run Plugin.step].
  set (st0 := set_sessions _ _).
  assert (plugin_wf st0) as Hwf0 by (destruct Hwf; by split).
  change (providers st0) with (providers st).
  replace (0 <? providers st) with true by (symmetry; by apply Nat.ltb_lt).
  destruct (provide_arms st0 s pos (length (timers st)) Hwf0) as [Harmed1 Hlen1];
    [done|intros; change (timers st0) with (timers st) in *; lia|].
  assert (sessions st0 s = content) as Hs0
    by (simpl; by rewrite bool_decide_eq_true_2).
  rewrite Hs0 in Harmed1.
  destruct (provideCompletions_fields s pos st0 Hwf0)
    as (_ & _ & _ & _ & _ & _ & _ & _ & Hc1 & _ & _ & Hai1 & Hpr1).
  set (st1 := provideCompletions s pos st0) in *.
  assert (plugin_wf st1) as Hwf1 by by apply pwf_provideCompletions.
  clearbody st1.
  destruct (plugin_burst_runs later st1 _ _ Hwf1 ltac:(by rewrite Hpr1) Harmed1 Hok)
    as (st2 & Hrun & Hwf2 & Hc2 & Hai2 & Harmed2 & Hlen2).
  exists st2. split; [done|]. split; [by rewrite Hc2, Hc1|].
  change (timers st0) with (timers st) in Hlen1.
  split; [lia|].
  destruct (plugin_burst_last (s, content, pos) later) as [[s' content'] pos'].
  destruct Harmed2 as (Hsess & h & p & Hd & Hh & Hlen & Hfirst & Hnone).
  split. { intros id Hge Hlt. apply Hnone; [done|lia]. }
  intros ms Hms.
  assert (forall id u, timers st2 !! id = Some (Some u) -> id = h) as Honly.
  { intros id u Hl. destruct (pw_timer _ Hwf2 _ _ Hl) as [? _]. congruence. }
  rewrite (plugin_elapse_due ms st2 h _ Hh Honly) by (simpl; lia).
  cbn [callback due].
  set (x := set_timers _ _).
  destruct (ai st) as [client|] eqn:Hai.
  2: { pose proof (pw_client _ Hwf) as Hc. rewrite Hai in Hc. lia. }
  assert (ai x = Some client) as Haix.
  { change (ai x) with (ai st2). by rewrite Hai2, Hai1. }
  pose proof (on_timeout_calls
    {| cl_session := s'; cl_pos := pos'; cl_resolve := p |} x client Haix) as Hcalls.
  cbn [cl_session cl_pos] in Hcalls.
  change (sessions x) with (sessions st2) in Hcalls. rewrite Hsess in Hcalls.
  change (calls x) with (calls st2) in Hcalls. rewrite Hc2, Hc1 in Hcalls.
  split; [exact Hcalls|].
  intros ms'. rewrite plugin_elapse_quiet; [done|].
  intros id u Hl. exfalso. revert Hl.
  change (timers (set_now _ ?y)) with (timers y).
  destruct (on_timeout_frame
    {| cl_session := s'; cl_pos := pos'; cl_resolve := p |} x)
    as ((_&_&_&_&_&->&_)&_).
  change (timers x) with (<[h:=None]> (timers st2)).
  intros [(_ & [=] & _)|[Hne Hl]]%list_lookup_insert_Some.
  apply Honly in Hl. congruence.
Qed.

End PluginProperties.

(** * The claims that span both front ends *)

(** C1 fails in the plugin.  Three invocations, each made after the timer
    of the one before has run, the calls answered late.  When call 0 is
    answered, call 1 is the latest and outstanding, yet the loading flag
    drops; with the flag down the third timer aborts nothing, and the
    answer to call 1 resolves its promise with a candidate while call 2 is
    the latest and outstanding.  Had call 0 failed instead, its message
    would have been shown though its signal was aborted. *)
Theorem plugin_applies_superseded_results :
  let answered := three_requests (Response (Some (JS.lit "first")))
                                 (Response (Some (JS.lit "second"))) in
  let failed := three_requests (Failure (JS.ErrorObject (JS.new_Error (JS.lit "Failed to fetch"))))
                               (Response (Some (JS.lit "second"))) in
  (* call 1 is outstanding, with the loading flag up ... *)
  (fun st => (Plugin.isLoading st, Plugin.abortController st,
              Plugin.controllers st, Plugin.awaiting st !! 1))
    <$> flat_run plugin_started (take 4 answered)
  = Some (true, Some 1, [true; false],
          Some (Some {| Plugin.rq_signal := 1; Plugin.rq_resolve := 1 |})) /\
  (* ... and the answer to call 0, aborted, takes the flag down *)
  (fun st => (Plugin.isLoading st, Plugin.awaiting st !! 1))
    <$> flat_run plugin_started (take 5 answered)
  = Some (false, Some (Some {| Plugin.rq_signal := 1; Plugin.rq_resolve := 1 |})) /\
  (* the failure of call 0, aborted, is shown *)
  (fun st => last (Plugin.toasts st))
    <$> flat_run plugin_started (take 5 failed)
  = Some (Some (JS.lit "Gemini Error: Failed to fetch")) /\
  (* call 2 is the latest and outstanding; call 1 was never aborted *)
  (fun st => (Plugin.abortController st, Plugin.controllers st,
              Plugin.awaiting st !! 2))
    <$> flat_run plugin_started (take 7 answered)
  = Some (Some 2, [true; false; false],
          Some (Some {| Plugin.rq_signal := 2; Plugin.rq_resolve := 2 |})) /\
  (* and the answer to call 1 reaches the host *)
  (fun st => (Plugin.promises st !! 1, Plugin.awaiting st !! 2))
    <$> flat_run plugin_started answered
  = Some (Some (Some [Plugin.completion_item (JS.lit "second")]),
          Some (Some {| Plugin.rq_signal := 2; Plugin.rq_resolve := 2 |})).
Proof. vm_compute. repeat split. Qed.

(** C2, as the code has it.  A burst is a first edit and later edits, each
    within the debounce delay of the one before (in the standalone editor an
    edit is a change of the text).  During the burst no call goes out; one
    timer is set per edit; at each later edit the timer of the edit before
    is still pending, not yet due, and after the burst all timers but the
    last are gone.  Once the delay has passed after the last edit, at most
    one call has gone out, for the text of the last edit: exactly one when
    that text, trimmed, reaches the minimum length (and, standalone, the key
    is set), none otherwise.  However long one waits after that, no further
    call goes out. *)
Theorem debounce_coalescing
    {service : GeminiService} (st : App.state)
    (first : jsstring) (later : list (nat * jsstring))
    {Session Pos : Type} (getTextRange : Session -> Pos -> jsstring)
    (getModeId : Session -> jsstring) (pst : @Plugin.state Session Pos)
    (pfirst : nat * Session * Pos) (plater : list (nat * (nat * Session * Pos))) :
  (App.reachable st -> first <> App.code st -> app_burst_ok 500 first later ->
   exists st1,
     App.run st (App.Change first :: app_burst later) = Some st1 /\
     App.calls st1 = App.calls st /\
     length (App.timers st1) = length (App.timers st) + S (length later) /\
     (forall id, length (App.timers st) <= id -> S id < length (App.timers st1) ->
        App.timers st1 !! id = Some None) /\
     forall ms, 500 <= ms ->
       App.calls (App.elapse ms st1) =
         App.calls st ++
           app_calls (App.env_API_KEY st) (app_burst_last first later) /\
       forall ms',
         App.calls (App.elapse ms' (App.elapse ms st1)) =
           App.calls (App.elapse ms st1)) /\
  (App.reachable st -> first <> App.code st -> app_burst_ok 500 first later ->
   forall l1 gap value l2, later = l1 ++ (gap, value) :: l2 ->
   exists s c d,
     App.run st (App.Change first :: app_burst l1 ++ [App.Elapse gap]) = Some s /\
     App.timers s !! (length (App.timers st) + length l1) =
       Some (Some {| due := d;
                     callback := App.FetchTask (app_burst_last first l1) c |}) /\
     App.now s < d) /\
  (Plugin.reachable getTextRange getModeId pst -> 0 < Plugin.providers pst ->
   plugin_burst_ok 700 plater ->
   forall l1 gap e l2, plater = l1 ++ (gap, e) :: l2 ->
   exists x t,
     Plugin.run getTextRange getModeId pst
       (plugin_edit pfirst ++ plugin_burst l1 ++ [Plugin.Elapse gap]) = Some x /\
     Plugin.timers x !! (length (Plugin.timers pst) + length l1) = Some (Some t) /\
     Plugin.now x < due t) /\
  (Plugin.reachable getTextRange getModeId pst -> 0 < Plugin.providers pst ->
   plugin_burst_ok 700 plater ->
   exists st1,
     Plugin.run getTextRange getModeId pst
       (plugin_edit pfirst ++ plugin_burst plater) = Some st1 /\
     Plugin.calls st1 = Plugin.calls pst /\
     length (Plugin.timers st1) = length (Plugin.timers pst) + S (length plater) /\
     (forall id, length (Plugin.timers pst) <= id ->
        S id < length (Plugin.timers st1) ->
        Plugin.timers st1 !! id = Some None) /\
     forall ms, 700 <= ms ->
       Plugin.calls (Plugin.elapse getTextRange getModeId ms st1) =
         Plugin.calls pst ++
           plugin_calls getTextRange getModeId (plugin_burst_last pfirst plater) /\
       forall ms',
         Plugin.calls (Plugin.elapse getTextRange getModeId ms'
                         (Plugin.elapse getTextRange getModeId ms st1)) =
           Plugin.calls (Plugin.elapse getTextRange getModeId ms st1)).
Proof.
  split; [|split; [|split]].
  - apply app_debounce.
  - intros Hreach Hne Hok l1 gap value l2 ->.
    by apply (app_burst_timer_pending st first l1 gap value l2).
  - intros Hreach Hreg Hok l1 gap e l2 ->.
    by apply (plugin_burst_timer_pending _ _ pst pfirst l1 gap e l2).
  - apply plugin_debounce.
Qed.

(** C2 as stated fails: a burst that ends on a text shorter than the
    minimum makes no call at all, and leaves no timer or request behind that
    could make one. *)
Lemma debounce_burst_without_call :
  (fun st => (App.calls st, pending (App.timers st), App.awaiting st))
    <$> App.run (service := GeminiService2.service) (App.mount (Some (JS.lit "key")))
          [App.Change (JS.lit "a"); App.Elapse 100; App.Change (JS.lit "ab");
           App.Elapse 500; App.Elapse 3000]
  = Some ([], 0, []).
Proof. vm_compute. reflexivity. Qed.


(** C8, as the code has it.  A call fails, with whatever is thrown, while
    the front end still listens to it.

    The standalone client, in either copy, re-raises an [Error] of its own:
    with the fixed credential message when what was thrown is an [Error]
    whose message contains ["API key not valid"], and with the one generic
    message for everything else; the editor shows the message of what the
    client raised.

    The plugin has no generic message and tests no [instanceof].  For a
    failure named [AbortError] it shows nothing and resolves the promise of
    the invocation with the empty list.  For any other failure with a
    string under [message] it shows one toast, the fixed credential text
    when the message contains ["API key not valid"] and the message as it
    is otherwise, after ["Gemini Error: "], and resolves the promise with
    the empty list.  For any other failure without a string under
    [message] it shows nothing and the promise stays pending.  The loading
    flag goes down in every case. *)
Theorem failure_messages
    (t : JS.thrown) (st : App.state) (r signal : nat)
    {Session Pos : Type} (getTextRange : Session -> Pos -> jsstring)
    (getModeId : Session -> jsstring) (pst : @Plugin.state Session Pos)
    (pr : nat) (rq : Plugin.request) :
  let credential :=
    exists e, t = JS.ErrorObject e /\
              JS.includes (JS.message e) API_key_not_valid = true in
  let standalone service msg :=
    getCodeSuggestions_resume (GeminiService := service) (Failure t) =
      Rejected (JS.ErrorObject (JS.new_Error msg)) /\
    App.error <$> App.step (service := service) st (App.Settle r (Failure t)) =
      Some (Some msg) in
  let plugin shown outcome :=
    exists pst',
      Plugin.step getTextRange getModeId pst (Plugin.Settle pr (Failure t)) =
        Some pst' /\
      Plugin.toasts pst' = Plugin.toasts pst ++ shown /\
      Plugin.promises pst' !! Plugin.rq_resolve rq = Some outcome /\
      Plugin.isLoading pst' = false in
  App.awaiting st !! r = Some (Some signal) -> App.aborted signal st = false ->
  Plugin.reachable getTextRange getModeId pst ->
  Plugin.awaiting pst !! pr = Some (Some rq) ->
  (credential ->
   standalone GeminiService1.service
     (JS.lit "Invalid API Key. Please check your configuration.") /\
   standalone GeminiService2.service
     (JS.lit "Invalid API Key. Please check your configuration.")) /\
  (~ credential ->
   standalone GeminiService1.service
     (JS.lit "Failed to get suggestions from Gemini.") /\
   standalone GeminiService2.service
     (JS.lit "Failed to get suggestions from Gemini.")) /\
  (JS.name_of t = Some (JS.lit "AbortError") -> plugin [] (Some [])) /\
  (JS.name_of t <> Some (JS.lit "AbortError") ->
   (forall m,
      JS.message_of t = Some m -> JS.includes m API_key_not_valid = true ->
      plugin
        [JS.lit "Gemini Error: Invalid API Key. Please check your plugin settings."]
        (Some [])) /\
   (forall m,
      JS.message_of t = Some m -> JS.includes m API_key_not_valid = false ->
      plugin [JS.lit "Gemini Error: " ++ m] (Some [])) /\
   (JS.message_of t = None -> plugin [] None)).
Proof.
  intros credential standalone plugin Hr Hab Hreach Hpr.
  assert (forall service : GeminiService,
            getCodeSuggestions_resume (Failure t) =
              Rejected (JS.ErrorObject (friendly_error t)) ->
            forall msg, friendly_error t = JS.new_Error msg ->
            standalone service msg) as Hstandalone.
  { intros service Hres msg Hmsg. split; [by rewrite Hres, Hmsg|].
    rewrite (app_settle_failure (service := service) st r signal t Hr Hab Hres).
    by rewrite Hmsg. }
  destruct (plugin_settle_failure getTextRange getModeId pst pr rq t Hreach Hpr)
    as (pst' & Hstep & Hload & Hshown).
  assert (forall shown outcome,
            (Plugin.toasts pst', Plugin.promises pst' !! Plugin.rq_resolve rq) =
              (Plugin.toasts pst ++ shown, Some outcome) ->
            plugin shown outcome) as Hplugin.
  { intros shown outcome [= Ht Hp]. by exists pst'. }
  clearbody standalone plugin.
  split; [|split; [|split]].
  - intros (e & -> & He).
    split; apply Hstandalone; try done; unfold friendly_error; by rewrite He.
  - intros Hno.
    assert (friendly_error t =
              JS.new_Error (JS.lit "Failed to get suggestions from Gemini."))
      as Hgeneric.
    { destruct t as [e| |]; try done. unfold friendly_error.
      destruct (JS.includes _ _) eqn:He; [|done].
      destruct Hno. by exists e. }
    split; by apply Hstandalone.
  - intros Hn. apply Hplugin. rewrite Hshown.
    by rewrite bool_decide_eq_true_2, app_nil_r.
  - intros Hn. rewrite bool_decide_eq_false_2 in Hshown by done.
    split; [|split].
    + intros m Hm Hi. apply Hplugin. rewrite Hshown, Hm.
      unfold Plugin.errorMessage. by rewrite Hi.
    + intros m Hm Hi. apply Hplugin. rewrite Hshown, Hm.
      unfold Plugin.errorMessage. by rewrite Hi.
    + intros Hm. apply Hplugin. by rewrite Hshown, Hm, app_nil_r.
Qed.

(** C8 as stated fails for the plugin: what it shows for a failure without
    the credential text follows the failure's own message, so no one generic
    message covers them. *)
Lemma plugin_shows_raw_message :
  ~ exists generic : jsstring,
      forall e : JS.Error,
        JS.includes (JS.message e) API_key_not_valid = false ->
        JS.name e <> JS.lit "AbortError" ->
        Plugin.toasts <$>
          Plugin.step flat_getTextRange flat_getModeId plugin_requesting
            (Plugin.Settle 0 (Failure (JS.ErrorObject e)))
        = Some (Plugin.toasts plugin_requesting ++ [generic]).
Proof.
  intros [generic H].
  pose proof (H (JS.new_Error (JS.lit "quota exceeded")) eq_refl ltac:(done)) as H1.
  pose proof (H (JS.new_Error (JS.lit "socket hang up")) eq_refl ltac:(done)) as H2.
  vm_compute in H1, H2. congruence.
Qed.


(** * The theorems at work on concrete runs *)

Lemma app_suggesting_reachable :
  App.reachable (service := GeminiService2.service) app_suggesting.
Proof.
  exists (Some (JS.lit "key")),
    [App.Elapse 500;
     App.Settle 0 (Response (Some (JS.lit "console.log(name);" ++ [10%N] ++
                                   JS.lit "}")))].
  vm_compute. reflexivity.
Defined.

Lemma plugin_started_reachable :
  Plugin.reachable flat_getTextRange flat_getModeId plugin_started.
Proof.
  exists (fun _ => greet), [Plugin.Init (Some (Some (JS.lit "key")))].
  reflexivity.
Defined.

Lemma plugin_requesting_reachable :
  Plugin.reachable flat_getTextRange flat_getModeId plugin_requesting.
Proof.
  exists (fun _ => greet),
    [Plugin.Init (Some (Some (JS.lit "key"))); Plugin.ProvideCompletions 0 22;
     Plugin.Elapse 700].
  vm_compute. reflexivity.
Defined.

Lemma tab_accepts_suggestion_witness :
  App.inlineSuggestion app_suggesting <> [] /\
  exists st1,
    App.step (service := GeminiService2.service) app_suggesting (App.KeyDown tab)
      = Some st1 /\
    App.code st1 = App.code app_suggesting ++ App.inlineSuggestion app_suggesting /\
    App.inlineSuggestion st1 = [] /\
    App.editorRef (App.elapse 0 st1) =
      Some {| App.selectionStart := length (App.code st1);
              App.selectionEnd := length (App.code st1) |}.
Proof.
  assert (App.inlineSuggestion app_suggesting <> []) as Hs
    by (vm_compute; discriminate).
  split; [exact Hs|].
  destruct (tab_accepts_suggestion (service := GeminiService2.service)
              app_suggesting app_suggesting_reachable Hs)
    as (_ & st1 & H1 & H2 & H3 & H4).
  exists st1. repeat split; try assumption. apply (H4 0).
Defined.

Lemma accept_twice_is_accept_once_witness :
  App.inlineSuggestion app_suggesting <> [] /\
  exists st1,
    App.step (service := GeminiService2.service) app_suggesting (App.KeyDown tab)
      = Some st1 /\
    App.step (service := GeminiService2.service) st1 (App.KeyDown tab) = Some st1.
Proof.
  assert (App.inlineSuggestion app_suggesting <> []) as Hs
    by (vm_compute; discriminate).
  split; [exact Hs|].
  destruct (accept_twice_is_accept_once (service := GeminiService2.service)
              app_suggesting Hs) as (st1 & H1 & _ & _ & H4).
  exists st1. split; assumption.
Defined.

Lemma registered_provider_has_client_witness :
  0 < Plugin.providers plugin_started /\
  exists client,
    Plugin.ai plugin_started = Some client /\ Plugin.apiKey client <> [].
Proof.
  assert (0 < Plugin.providers plugin_started) as Hreg by (vm_compute; lia).
  split; [exact Hreg|].
  destruct (registered_provider_has_client flat_getTextRange flat_getModeId
              plugin_started plugin_started_reachable (or_introl Hreg))
    as (client & H1 & H2 & _).
  exists client. split; assumption.
Defined.

Lemma plugin_answered_reachable :
  Plugin.reachable flat_getTextRange flat_getModeId plugin_answered.
Proof.
  exists (fun _ => greet),
    (Plugin.Init (Some (Some (JS.lit "key"))) :: two_invocations).
  vm_compute. reflexivity.
Defined.


Lemma superseded_invocation_is_never_answered_witness :
  100 < 700 /\
  Plugin.run flat_getTextRange flat_getModeId plugin_started
    (Plugin.ProvideCompletions 0 22 :: Plugin.Elapse 100 ::
     Plugin.ProvideCompletions 0 22 ::
     [Plugin.Elapse 700; Plugin.Settle 0 (Response (Some (JS.lit "foo")))])
    = Some plugin_answered /\
  Plugin.promises plugin_answered !! length (Plugin.promises plugin_started)
    = Some None.
Proof.
  assert (100 < 700) as Hgap by lia.
  assert (Plugin.run flat_getTextRange flat_getModeId plugin_started
            (Plugin.ProvideCompletions 0 22 :: Plugin.Elapse 100 ::
             Plugin.ProvideCompletions 0 22 ::
             [Plugin.Elapse 700; Plugin.Settle 0 (Response (Some (JS.lit "foo")))])
          = Some plugin_answered) as Hrun
    by (vm_compute; reflexivity).
  split; [exact Hgap|]. split; [exact Hrun|].
  exact (superseded_invocation_is_never_answered flat_getTextRange flat_getModeId
           plugin_started 0 22 100 0 22
           [Plugin.Elapse 700; Plugin.Settle 0 (Response (Some (JS.lit "foo")))]
           plugin_answered plugin_started_reachable Hgap Hrun).
Defined.


Lemma failure_messages_witness :
  let rejected_key :=
    JS.ErrorObject
      (JS.new_Error (JS.lit "API key not valid. Please pass a valid API key.")) in
  let quota := JS.Object None (Some (JS.lit "quota exceeded")) in
  App.awaiting app_requesting !! 0 = Some (Some 0) /\
  App.aborted 0 app_requesting = false /\
  Plugin.awaiting plugin_requesting !! 0 =
    Some (Some {| Plugin.rq_signal := 0; Plugin.rq_resolve := 0 |}) /\
  JS.name_of rejected_key <> Some (JS.lit "AbortError") /\
  JS.name_of quota <> Some (JS.lit "AbortError") /\
  JS.name_of JS.Other <> Some (JS.lit "AbortError") /\
  JS.includes (JS.lit "quota exceeded") API_key_not_valid = false /\
  JS.message_of JS.Other = None /\
  (App.error <$>
     App.step (service := GeminiService1.service) app_requesting
       (App.Settle 0 (Failure rejected_key)) =
     Some (Some (JS.lit "Invalid API Key. Please check your configuration.")) /\
   exists pst',
     Plugin.step flat_getTextRange flat_getModeId plugin_requesting
       (Plugin.Settle 0 (Failure rejected_key)) = Some pst' /\
     Plugin.toasts pst' =
       Plugin.toasts plugin_requesting ++
         [JS.lit "Gemini Error: Invalid API Key. Please check your plugin settings."] /\
     Plugin.promises pst' !! 0 = Some (Some []) /\
     Plugin.isLoading pst' = false) /\
  (App.error <$>
     App.step (service := GeminiService1.service) app_requesting
       (App.Settle 0 (Failure quota)) =
     Some (Some (JS.lit "Failed to get suggestions from Gemini.")) /\
   exists pst',
     Plugin.step flat_getTextRange flat_getModeId plugin_requesting
       (Plugin.Settle 0 (Failure quota)) = Some pst' /\
     Plugin.toasts pst' =
       Plugin.toasts plugin_requesting ++
         [JS.lit "Gemini Error: " ++ JS.lit "quota exceeded"] /\
     Plugin.promises pst' !! 0 = Some (Some []) /\
     Plugin.isLoading pst' = false) /\
  exists pst',
    Plugin.step flat_getTextRange flat_getModeId plugin_requesting
      (Plugin.Settle 0 (Failure JS.Other)) = Some pst' /\
    Plugin.toasts pst' = Plugin.toasts plugin_requesting ++ [] /\
    Plugin.promises pst' !! 0 = Some None /\
    Plugin.isLoading pst' = false.
Proof.
  intros rejected_key quota.
  assert (App.awaiting app_requesting !! 0 = Some (Some 0)) as Hr
    by (vm_compute; reflexivity).
  assert (App.aborted 0 app_requesting = false) as Hab
    by (vm_compute; reflexivity).
  assert (Plugin.awaiting plugin_requesting !! 0 =
            Some (Some {| Plugin.rq_signal := 0; Plugin.rq_resolve := 0 |})) as Hpr
    by (vm_compute; reflexivity).
  assert (JS.name_of rejected_key <> Some (JS.lit "AbortError")) as Hn1
    by (vm_compute; discriminate).
  assert (JS.name_of quota <> Some (JS.lit "AbortError")) as Hn2
    by (vm_compute; discriminate).
  assert (JS.name_of JS.Other <> Some (JS.lit "AbortError")) as Hn3
    by (vm_compute; discriminate).
  assert (JS.includes (JS.lit "quota exceeded") API_key_not_valid = false) as Hi2
    by (vm_compute; reflexivity).
  assert (JS.message_of JS.Other = None) as Hm3 by reflexivity.
  assert (exists e, rejected_key = JS.ErrorObject e /\
                    JS.includes (JS.message e) API_key_not_valid = true) as Hc1
    by (eexists; split; [reflexivity|vm_compute; reflexivity]).
  assert (~ exists e, quota = JS.ErrorObject e /\
                      JS.includes (JS.message e) API_key_not_valid = true) as Hc2
    by (intros (e & He & _); discriminate He).
  pose proof (failure_messages rejected_key app_requesting 0 0
                flat_getTextRange flat_getModeId plugin_requesting 0 _
                Hr Hab plugin_requesting_reachable Hpr) as (Ha1 & _ & _ & Hp1).
  pose proof (failure_messages quota app_requesting 0 0
                flat_getTextRange flat_getModeId plugin_requesting 0 _
                Hr Hab plugin_requesting_reachable Hpr) as (_ & Ha2 & _ & Hp2).
  pose proof (failure_messages JS.Other app_requesting 0 0
                flat_getTextRange flat_getModeId plugin_requesting 0 _
                Hr Hab plugin_requesting_reachable Hpr) as (_ & _ & _ & Hp3).
  destruct (Ha1 Hc1) as ((_ & H1) & _).
  destruct (Hp1 Hn1) as (H1' & _ & _).
  destruct (Ha2 Hc2) as ((_ & H2) & _).
  destruct (Hp2 Hn2) as (_ & H2' & _).
  destruct (Hp3 Hn3) as (_ & _ & H3').
  split; [exact Hr|]. split; [exact Hab|]. split; [exact Hpr|].
  split; [exact Hn1|]. split; [exact Hn2|]. split; [exact Hn3|].
  split; [exact Hi2|]. split; [exact Hm3|].
  split; [split; [exact H1|]|split; [split; [exact H2|]|]].
  - apply (H1' _ eq_refl). vm_compute. reflexivity.
  - exact (H2' _ eq_refl Hi2).
  - exact (H3' Hm3).
Defined.

Lemma debounce_coalescing_witness :
  JS.lit "ab" <> App.code (App.mount (Some (JS.lit "key"))) /\
  app_burst_ok 500 (JS.lit "ab") [(100, JS.lit "abc")] /\
  0 < Plugin.providers plugin_started /\
  plugin_burst_ok 700 [(100, (0, greet, 22))] /\
  (exists st1,
     App.run (service := GeminiService2.service) (App.mount (Some (JS.lit "key")))
       (App.Change (JS.lit "ab") :: app_burst [(100, JS.lit "abc")]) = Some st1 /\
     App.calls (App.elapse 500 st1) =
       App.calls (App.mount (Some (JS.lit "key"))) ++
         app_calls (App.env_API_KEY (App.mount (Some (JS.lit "key"))))
           (app_burst_last (JS.lit "ab") [(100, JS.lit "abc")])) /\
  (exists st1,
     Plugin.run flat_getTextRange flat_getModeId plugin_started
       (plugin_edit (0, greet, 22) ++ plugin_burst [(100, (0, greet, 22))])
       = Some st1 /\
     Plugin.calls (Plugin.elapse flat_getTextRange flat_getModeId 700 st1) =
       Plugin.calls plugin_started ++
         plugin_calls flat_getTextRange flat_getModeId
           (plugin_burst_last (0, greet, 22) [(100, (0, greet, 22))])) /\
  app_calls (Some (JS.lit "key")) (app_burst_last (JS.lit "ab") [(100, JS.lit "abc")])
    = [{| call_snippet := JS.lit "abc"; call_language := None |}] /\
  plugin_calls flat_getTextRange flat_getModeId
    (plugin_burst_last (0, greet, 22) [(100, (0, greet, 22))])
    = [{| call_snippet := JS.lit "function greet(name) {";
          call_language := Some (JS.lit "javascript") |}].
Proof.
  assert (JS.lit "ab" <> App.code (App.mount (Some (JS.lit "key")))) as Hne
    by (vm_compute; discriminate).
  assert (app_burst_ok 500 (JS.lit "ab") [(100, JS.lit "abc")]) as Hok.
  { split; [lia|]. split; [vm_compute; discriminate | exact I]. }
  assert (0 < Plugin.providers plugin_started) as Hreg by (vm_compute; lia).
  assert (plugin_burst_ok 700 [(100, (0, greet, 22))]) as Hok'.
  { constructor; [simpl; lia | constructor]. }
  assert (App.reachable (service := GeminiService2.service)
            (App.mount (Some (JS.lit "key")))) as Hreach
    by (exists (Some (JS.lit "key")), []; reflexivity).
  pose proof (debounce_coalescing (service := GeminiService2.service)
                (App.mount (Some (JS.lit "key"))) (JS.lit "ab") [(100, JS.lit "abc")]
                flat_getTextRange flat_getModeId plugin_started
                (0, greet, 22) [(100, (0, greet, 22))]) as (Ha & _ & _ & Hb).
  destruct (Ha Hreach Hne Hok) as (st1 & H1 & _ & _ & _ & H5).
  destruct (Hb plugin_started_reachable Hreg Hok') as (pst1 & H1' & _ & _ & _ & H5').
  split; [exact Hne|]. split; [exact Hok|]. split; [exact Hreg|].
  split; [exact Hok'|]. split; [|split; [|split]].
  - exists st1. split; [exact H1|]. exact (proj1 (H5 500 (le_n _))).
  - exists pst1. split; [exact H1'|]. exact (proj1 (H5' 700 (le_n _))).
  - vm_compute. reflexivity.
  - vm_compute. reflexivity.
Defined.

(** * Further properties of the standalone editor *)

Section AppFurther.
Context {service : GeminiService}.
Import App.
Implicit Types (st s : App.state).

Lemma app_run_invariant (P : state -> Prop) st evs st' :
  (forall s e s', P s -> step s e = Some s' -> P s') ->
  P st -> run st evs = Some st' -> P st'.
Proof.
  intros Hstep. revert st. induction evs as [|e evs IH]; intros st HP; simpl.
  - by intros [= <-].
  - destruct (step st e) as [st1|] eqn:E; [|done]. eauto.
Qed.

Lemma reachable_run st evs st' :
  reachable st -> run st evs = Some st' -> reachable st'.
Proof.
  intros (k & evs0 & H0) H. exists k, (evs0 ++ evs). by rewrite run_app, H0.
Qed.

Lemma rerender_frame prev x :
  code (rerender prev x) = code x /\
  inlineSuggestion (rerender prev x) = inlineSuggestion x /\
  isLoading (rerender prev x) = isLoading x /\
  error (rerender prev x) = error x /\
  awaiting (rerender prev x) = awaiting x /\
  calls (rerender prev x) = calls x /\
  env_API_KEY (rerender prev x) = env_API_KEY x.
Proof.
  unfold rerender. destruct (JS.eqb _ _); [done|].
  destruct (effect_fields (run_cleanup x))
    as (-> & -> & -> & -> & _ & _ & -> & -> & ->).
  by destruct (run_cleanup_fields x)
    as (-> & -> & -> & -> & _ & _ & -> & -> & -> & _).
Qed.

(** What a key press or an edit leaves alone. *)
Lemma edit_frame st e st1 :
  app_edit e = true -> step st e = Some st1 ->
  isLoading st1 = isLoading st /\ error st1 = error st /\
  awaiting st1 = awaiting st /\ calls st1 = calls st /\
  env_API_KEY st1 = env_API_KEY st.
Proof.
  destruct e as [value|key|ms|r o]; try done; simpl; intros _ [= <-];
    match goal with |- context [rerender ?p ?x] =>
      destruct (rerender_frame p x) as (_ & _ & -> & -> & -> & -> & ->) end.
  - done.
  - unfold handleKeyDown. by destruct (_ && _).
Qed.

(** [fetchSuggestions] either makes no call, or makes one, for the text it
    was given, and suspends on it. *)
Lemma fetchSuggestions_out currentCode signal st :
  (awaiting (fetchSuggestions currentCode signal st) = awaiting st /\
   calls (fetchSuggestions currentCode signal st) = calls st) \/
  (awaiting (fetchSuggestions currentCode signal st) = awaiting st ++ [Some signal] /\
   calls (fetchSuggestions currentCode signal st) =
     calls st ++ [{| call_snippet := currentCode; call_language := None |}]).
Proof.
  unfold fetchSuggestions, getCodeSuggestions_call.
  destruct (_ <? 3); [by left|].
  destruct (missing_API_KEY _); [|by right].
  left. match goal with |- context [fetchSuggestions_resume ?g ?r ?x] =>
    destruct (fetchSuggestions_resume_frame g r x) as (_ & -> & ->) end. done.
Qed.

(** The status after a fetch is a function of the status before, of the
    key and of the controllers. *)
Lemma fetchSuggestions_resume_status signal r st st' :
  app_status st = app_status st' -> controllers st = controllers st' ->
  app_status (fetchSuggestions_resume signal r st) =
    app_status (fetchSuggestions_resume signal r st').
Proof.
  unfold app_status, fetchSuggestions_resume, aborted.
  intros [= H1 H2 H3 H4 H5] Hc.
  destruct r; simpl; rewrite <- ?Hc;
    destruct (bool_decide (controllers st !! signal = Some true)) eqn:E;
    simpl; rewrite <- ?Hc, ?E; simpl; congruence.
Qed.

Lemma fetchSuggestions_status currentCode signal st st' :
  app_status st = app_status st' -> controllers st = controllers st' ->
  env_API_KEY st = env_API_KEY st' ->
  app_status (fetchSuggestions currentCode signal st) =
    app_status (fetchSuggestions currentCode signal st').
Proof.
  intros Hs Hc He. unfold fetchSuggestions.
  pose proof Hs as [= H1 H2 H3 H4 H5].
  destruct (_ <? 3); [unfold app_status; simpl; congruence|].
  cbn [env_API_KEY set_error set_isLoading]. rewrite <- He.
  destruct (getCodeSuggestions_call _ _) as [e|call].
  - apply fetchSuggestions_resume_status; [|done].
    unfold app_status. simpl. congruence.
  - unfold app_status. simpl. congruence.
Qed.

Lemma fire_cursor_status position st :
  app_status (fire (CursorTask position) st) = app_status st /\
  controllers (fire (CursorTask position) st) = controllers st /\
  code (fire (CursorTask position) st) = code st.
Proof. simpl. by destruct (editorRef st). Qed.

(** With no fetch timer pending, time passes without a change of status. *)
Lemma run_timers_idle_status fuel deadline st :
  no_fetch_pending st ->
  app_status (run_timers fuel deadline st) = app_status st.
Proof.
  intros Hnone.
  apply (run_timers_invariant (fun s =>
    app_status s = app_status st /\ no_fetch_pending s)); [|done].
  intros s id [d [currentCode controller|position]] (Hs & Hn) Hid _;
    cbn [callback due].
  - by destruct (Hn _ _ _ _ Hid).
  - destruct (fire_cursor_status position
      (clearTimeout id (set_now (now s `max` d) s))) as (-> & _ & _).
    split; [done|].
    intros j d' text c. rewrite fire_timers. simpl.
    intros [(_ & [=] & _)|[_ Hl]]%list_lookup_insert_Some. by eapply Hn.
Qed.

(** Once the pending fetch timer is due, the status after the passing of
    time is the status after [fetchSuggestions] on the text of the timer. *)
Lemma run_timers_fetch_status fuel deadline st h c d :
  app_wf st -> cleanup st = Some (h, c) ->
  timers st !! h = Some (Some {| due := d; callback := FetchTask (code st) c |}) ->
  d <= deadline -> pending (timers st) <= fuel ->
  app_status (run_timers fuel deadline st) =
    app_status (fetchSuggestions (code st) c st).
Proof.
  revert st. induction fuel as [|fuel IH]; intros st Hwf Hc Hh Hd Hfuel.
  { apply pending_pos in Hh. lia. }
  simpl. destruct (next_timer (timers st) 0) as [[id t]|] eqn:E.
  2: { destruct (next_timer_None _ _ _ _ E Hh). }
  pose proof (next_timer_least _ _ _ _ _ _ E Hh) as Hleast. simpl in Hleast.
  pose proof (next_timer_lookup _ _ _ _ E) as [_ Hid].
  rewrite Nat.sub_0_r in Hid.
  assert ((due t <=? deadline) = true) as -> by (apply Nat.leb_le; lia).
  destruct t as [d0 [currentCode controller|position]]; cbn [callback due] in *.
  - destruct (wf_fetch _ _ Hwf _ _ _ _ Hid) as (Hid' & -> & _).
    assert (id = h) as -> by congruence.
    assert (controller = c) as -> by congruence.
    set (s1 := fire _ _).
    assert (no_fetch_pending s1) as Hnone.
    { intros j d' text c'. unfold s1. rewrite fire_timers. simpl.
      intros [(_ & [=] & _)|[Hj Hl]]%list_lookup_insert_Some.
      destruct (wf_fetch _ _ Hwf _ _ _ _ Hl) as (Hj' & _). congruence. }
    rewrite (run_timers_idle_status fuel deadline s1 Hnone).
    unfold s1. cbn [fire]. by apply fetchSuggestions_status.
  - assert (id <> h) by (intros ->; rewrite Hh in Hid; done).
    set (s1 := fire _ _).
    pose proof (wf_timeout st id _ Hwf Hid) as Hwf1. cbn [callback due] in Hwf1.
    fold s1 in Hwf1.
    destruct (fire_cursor_status position
      (clearTimeout id (set_now (now st `max` d0) st))) as (Hst & Hcs & Hcode).
    destruct (fire_cursor_fields position
      (clearTimeout id (set_now (now st `max` d0) st)))
      as (_ & Hcl & Henv & _ & _).
    fold s1 in Hst, Hcs, Hcode, Hcl, Henv. simpl in Hcs, Hcode, Hcl, Henv.
    assert (timers s1 = <[id:=None]> (timers st)) as Ht
      by (unfold s1; by rewrite fire_timers).
    rewrite (IH s1); try done.
    + rewrite Hcode. by apply fetchSuggestions_status.
    + congruence.
    + by rewrite Ht, Hcode, list_lookup_insert_ne.
    + rewrite Ht. rewrite <- (pending_clear _ _ _ Hid) in Hfuel. lia.
Qed.

Lemma elapse_status_eq ms st :
  app_status (elapse ms st) =
    app_status (run_timers (length (timers st)) (now st + ms) st).
Proof. done. Qed.

Lemma elapse_fetch_status ms st h d text c :
  app_wf st ->
  timers st !! h = Some (Some {| due := d; callback := FetchTask text c |}) ->
  d <= now st + ms ->
  app_status (elapse ms st) = app_status (fetchSuggestions text c st).
Proof.
  intros Hwf Hh Hd.
  destruct (wf_fetch _ _ Hwf _ _ _ _ Hh) as (Hc & -> & _).
  rewrite elapse_status_eq.
  by apply (run_timers_fetch_status _ _ _ h c d Hwf Hc Hh Hd (pending_le_length _)).
Qed.

Lemma step_env st e st' : step st e = Some st' -> env_API_KEY st' = env_API_KEY st.
Proof.
  destruct e as [value|key|ms|r o]; simpl.
  - intros H. by destruct (edit_frame st (Change value) st' eq_refl H) as (_&_&_&_&?).
  - intros H. by destruct (edit_frame st (KeyDown key) st' eq_refl H) as (_&_&_&_&?).
  - intros [= <-]. unfold elapse. simpl.
    apply (run_timers_invariant (fun s => env_API_KEY s = env_API_KEY st)); [|done].
    intros s id t Hs _ _.
    by destruct (fire_fields (callback t)
      (clearTimeout id (set_now (now s `max` due t) s))) as (_ & -> & _).
  - destruct (awaiting st !! r) as [[signal|]|]; [|done..]. intros [= <-].
    match goal with |- context [fetchSuggestions_resume ?g ?r ?x] =>
      by destruct (fetchSuggestions_resume_frame g r x) as ((_&_&_&_&->&_)&_) end.
Qed.

Lemma run_invariant_forall (P : state -> Prop) (F : event -> Prop) st evs st' :
  (forall s e s', P s -> F e -> step s e = Some s' -> P s') ->
  P st -> Forall F evs -> run st evs = Some st' -> P st'.
Proof.
  intros Hstep. revert st. induction evs as [|e evs IH]; intros st HP HF; simpl.
  - by intros [= <-].
  - apply Forall_cons in HF as [He HF].
    destruct (step st e) as [st1|] eqn:E; [|done]. eauto.
Qed.

(** *** The messages the editor can show *)

Lemma fetchSuggestions_resume_error signal r st :
  error (fetchSuggestions_resume signal r st) = error st \/
  (exists e, r = Rejected (JS.ErrorObject e) /\
     error (fetchSuggestions_resume signal r st) = Some (JS.message e)) \/
  ((exists t, r = Rejected t /\ forall e, t <> JS.ErrorObject e) /\
     error (fetchSuggestions_resume signal r st) =
       Some (JS.lit "An unknown error occurred.")).
Proof.
  unfold fetchSuggestions_resume, aborted.
  destruct r as [v|[e|n m|]]; simpl;
    destruct (bool_decide (controllers st !! signal = Some true)) eqn:E;
    simpl; rewrite ?E; simpl; eauto 6.
Qed.

Lemma fetchSuggestions_error currentCode signal st :
  error (fetchSuggestions currentCode signal st) = error st \/
  error (fetchSuggestions currentCode signal st) = None \/
  error (fetchSuggestions currentCode signal st) =
    Some (JS.lit "API_KEY environment variable is not set.").
Proof.
  unfold fetchSuggestions, getCodeSuggestions_call.
  destruct (_ <? 3); [by left|].
  destruct (missing_API_KEY _); [|right; by left].
  match goal with |- context [fetchSuggestions_resume ?g ?r ?x] =>
    destruct (fetchSuggestions_resume_error g r x)
      as [H|[(e & [= <-] & H)|((t & [= <-] & Ht) & _)]] end;
      [rewrite H; auto..|by destruct (Ht _ eq_refl)].
Qed.

Lemma friendly_error_message t :
  JS.message (friendly_error t) =
    JS.lit "Invalid API Key. Please check your configuration." \/
  JS.message (friendly_error t) = JS.lit "Failed to get suggestions from Gemini.".
Proof.
  unfold friendly_error. destruct t as [e| |]; [|by right..].
  destruct (JS.includes _ _); auto.
Qed.

Lemma error_known st :
  friendly_service service -> reachable st ->
  error st = None \/ exists m, error st = Some m /\ m ∈ service_messages.
Proof.
  intros Hfriendly (k & evs & Hrun).
  apply (app_run_invariant (fun s =>
    error s = None \/ exists m, error s = Some m /\ m ∈ service_messages)
    _ _ _) in Hrun; [done| |by left].
  intros s e s' HP Hstep.
  destruct e as [value|key|ms|r o].
  - by destruct (edit_frame s (Change value) s' eq_refl Hstep) as (_ & -> & _).
  - by destruct (edit_frame s (KeyDown key) s' eq_refl Hstep) as (_ & -> & _).
  - injection Hstep as <-. unfold elapse. simpl.
    apply (run_timers_invariant (fun s =>
      error s = None \/ exists m, error s = Some m /\ m ∈ service_messages));
      [|done].
    intros s2 id [d [currentCode controller|position]] HP2 _ _;
      cbn [callback due fire].
    + match goal with |- context [fetchSuggestions ?c ?g ?x] =>
        destruct (fetchSuggestions_error c g x) as [->|[->| ->]] end;
        [done|by left|].
      right. eexists. split; [done|]. unfold service_messages. rewrite !elem_of_cons. auto.
    + simpl. by destruct (editorRef s2).
  - simpl in Hstep. destruct (awaiting s !! r) as [[signal|]|]; [|done..].
    injection Hstep as <-.
    match goal with |- context [fetchSuggestions_resume ?g ?r ?x] =>
      destruct (fetchSuggestions_resume_error g r x)
        as [->|[(e & Hr & ->)|((t & Hr & Ht) & _)]] end.
    + done.
    + destruct (Hfriendly _ _ Hr) as [t0 [= ->]]. right. eexists. split; [done|].
      unfold service_messages.
      rewrite !elem_of_cons.
      destruct (friendly_error_message t0) as [->| ->]; auto.
    + destruct (Hfriendly _ _ Hr) as [t0 ->]. by destruct (Ht _ eq_refl).
Qed.

(** *** Without a key *)

Lemma no_key_quiet API_KEY evs st :
  missing_API_KEY API_KEY = true -> run (mount API_KEY) evs = Some st ->
  env_API_KEY st = API_KEY /\ calls st = [] /\ awaiting st = [].
Proof.
  intros Hmiss Hrun.
  apply (app_run_invariant (fun s =>
    env_API_KEY s = API_KEY /\ calls s = [] /\ awaiting s = []) _ _ _) in Hrun;
    [done| |done].
  clear Hrun. intros s e s' (Henv & Hcalls & Haw) Hstep.
  split; [by rewrite (step_env _ _ _ Hstep)|].
  destruct e as [value|key|ms|r o].
  - by destruct (edit_frame s (Change value) s' eq_refl Hstep)
      as (_ & _ & -> & -> & _).
  - by destruct (edit_frame s (KeyDown key) s' eq_refl Hstep)
      as (_ & _ & -> & -> & _).
  - injection Hstep as <-. unfold elapse. simpl.
    apply (run_timers_invariant (fun s =>
      env_API_KEY s = API_KEY /\ calls s = [] /\ awaiting s = [])); [|done].
    clear -Hmiss. intros s2 id t (Henv & Hcalls & Haw) _ _.
    set (x := clearTimeout id (set_now (now s2 `max` due t) s2)).
    destruct (fire_fields (callback t) x) as (_ & Henv' & _).
    split; [by rewrite Henv'|].
    destruct (callback t) as [currentCode controller|position].
    + cbn [fire]. rewrite fetchSuggestions_calls.
      assert (env_API_KEY x = API_KEY) as -> by done.
      unfold app_calls. rewrite Hmiss, orb_true_r, app_nil_r.
      split; [done|].
      destruct (fetchSuggestions_out currentCode controller x) as [[-> _]|[_ Hc]];
        [done|].
      rewrite fetchSuggestions_calls in Hc.
      assert (env_API_KEY x = API_KEY) as Hx by done.
      unfold app_calls in Hc. rewrite Hx, Hmiss, orb_true_r in Hc.
      apply (f_equal length) in Hc. rewrite !length_app in Hc. simpl in Hc. lia.
    + simpl. by destruct (editorRef s2).
  - simpl in Hstep. by rewrite Haw in Hstep.
Qed.

(** *** What an edit to a short text leaves behind *)

Lemma fetchSuggestions_short_eq currentCode signal st :
  length (JS.trim currentCode) < 3 ->
  fetchSuggestions currentCode signal st = set_inlineSuggestion [] st.
Proof.
  intros H. unfold fetchSuggestions.
  by replace (_ <? 3) with true by (symmetry; by apply Nat.ltb_lt).
Qed.

Lemma stalled_step value loading shown sent s e s' :
  length (JS.trim value) < 3 ->
  stalled value loading shown sent s -> (forall v, e <> Change v) ->
  step s e = Some s' -> stalled value loading shown sent s'.
Proof.
  intros Hshort Hst He Hstep.
  pose proof Hst as (Hwf & Hcode & Hinl & Hload & Herr & Hcalls & Hab).
  destruct e as [v|key|ms|r o].
  - by destruct (He v).
  - simpl in Hstep. rewrite handleKeyDown_ignore in Hstep by by right.
    simpl in Hstep. rewrite rerender_same in Hstep by done.
    by injection Hstep as <-.
  - injection Hstep as <-.
    split; [by apply wf_elapse|]. unfold elapse. simpl.
    assert (stalled value loading shown sent
              (run_timers (length (timers s)) (now s + ms) s)) as (_ & H); [|done].
    apply run_timers_invariant; [|done].
    clear -Hshort.
    intros s2 id [d [currentCode controller|position]]
      (Hwf & Hcode & Hinl & Hload & Herr & Hcalls & Hab) Hid _.
    all: split; [by apply (wf_timeout s2 id _ Hwf Hid)|]; cbn [callback due fire].
    + destruct (wf_fetch _ _ Hwf _ _ _ _ Hid) as (_ & -> & _).
      rewrite fetchSuggestions_short_eq by by rewrite Hcode. by repeat split.
    + simpl. destruct (editorRef s2); by repeat split.
  - assert (app_wf s') as Hwf' by by eapply wf_step.
    simpl in Hstep. destruct (awaiting s !! r) as [[sig|]|] eqn:Hr; [|done..].
    injection Hstep as <-.
    rewrite fetchSuggestions_resume_aborted in Hwf' |- *.
    2,3: unfold aborted; simpl; apply bool_decide_eq_true_2; eauto.
    split; [done|]. repeat split; try done.
    intros r' sig'. simpl.
    intros [(_ & [=] & _)|[_ Hl]]%list_lookup_insert_Some. eauto.
Qed.

(** X3: when the text is replaced by one whose trimmed length is below 3,
    then until the next edit (whatever time passes, whatever keys are
    pressed and whatever the calls still out settle to) the loading flag
    and the error message stay exactly as they were when the edit was made,
    no suggestion is shown and no call goes out.  In particular the
    "Gemini is thinking..." indicator that a request in flight had raised
    stays up. *)
Theorem short_edit_freezes_status st value evs st' :
  reachable st -> value <> code st -> length (JS.trim value) < 3 ->
  no_change evs -> run st (Change value :: evs) = Some st' ->
  code st' = value /\ inlineSuggestion st' = [] /\
  isLoading st' = isLoading st /\ error st' = error st /\ calls st' = calls st.
Proof.
  intros Hwf%app_reachable_wf Hne Hshort Hquiet Hrun.
  set (st1 := rerender (code st) (handleCodeChange value st)).
  assert (step st (Change value) = Some st1) as Hstep by done.
  change (run st1 evs = Some st') in Hrun.
  destruct (rerender_frame (code st) (handleCodeChange value st))
    as (Hcode & Hinl & Hload & Herr & Haw & Hcalls & _).
  fold st1 in Hcode, Hinl, Hload, Herr, Haw, Hcalls.
  simpl in Hcode, Hinl, Hload, Herr, Haw, Hcalls.
  assert (stalled value (isLoading st) (error st) (calls st) st')
    as (_ & ? & ? & ? & ? & ? & _); [|done].
  apply (run_invariant_forall
           (stalled value (isLoading st) (error st) (calls st))
           (fun e => forall v, e <> Change v) st1 evs st');
    [by eauto using stalled_step| |done|done].
  split; [exact (wf_step st (Change value) st1 Hwf Hstep)|].
  repeat split; try done.
  intros r sig. rewrite Haw. intros Hr.
  apply (new_cycle_aborts st (Change value) st1 r sig Hwf Hr Hstep). congruence.
Qed.

(** *** Which call a suggestion answers *)

Lemma fetchSuggestions_resume_inl signal r st :
  inlineSuggestion (fetchSuggestions_resume signal r st) = inlineSuggestion st \/
  aborted signal st = false.
Proof.
  destruct (aborted signal st) eqn:E; [left|by right].
  by rewrite fetchSuggestions_resume_aborted.
Qed.

Lemma fetchSuggestions_inl currentCode signal st :
  inlineSuggestion (fetchSuggestions currentCode signal st) = inlineSuggestion st \/
  inlineSuggestion (fetchSuggestions currentCode signal st) = [].
Proof.
  unfold fetchSuggestions.
  destruct (_ <? 3); [by right|].
  destruct (getCodeSuggestions_call _ _) as [e|call]; [|by left].
  unfold fetchSuggestions_resume, aborted. simpl.
  destruct (bool_decide (controllers st !! signal = Some true)) eqn:E;
    simpl; rewrite ?E; simpl; auto.
Qed.

(** A key press or an edit clears the suggestion, or changes nothing. *)
Lemma edit_suggestion st e st1 :
  app_edit e = true -> step st e = Some st1 ->
  inlineSuggestion st1 = [] \/ st1 = st.
Proof.
  destruct e as [value|key|ms|r o]; try done; simpl; intros _ [= <-].
  - left. by destruct (rerender_frame (code st) (handleCodeChange value st))
      as (_ & -> & _).
  - unfold handleKeyDown. destruct (_ && _).
    + left. match goal with |- context [rerender ?p ?x] =>
        by destruct (rerender_frame p x) as (_ & -> & _) end.
    + right. by apply rerender_same.
Qed.

Lemma aborted_false_before st e st' sig :
  step st e = Some st' -> sig < length (controllers st) ->
  aborted sig st' = false -> aborted sig st = false.
Proof.
  intros Hstep Hlt Hab. unfold aborted in *.
  apply bool_decide_eq_false in Hab. apply bool_decide_eq_false.
  intros H. apply Hab. by eapply aborted_stays.
Qed.

Lemma answers_step s e s' :
  app_wf s -> answers_current_text s -> step s e = Some s' ->
  answers_current_text s'.
Proof.
  intros Hwf (Hlen & Hfetch & Hshown) Hstep.
  destruct (app_edit e) eqn:Hedit.
  { destruct (edit_frame s e s' Hedit Hstep) as (_ & _ & Haw & Hcalls & _).
    destruct (decide (code s' = code s)) as [Hcode|Hcode].
    - split; [congruence|]. rewrite Haw, Hcalls, Hcode. split.
      + intros r sig Hr Hab. apply (Hfetch r sig Hr).
        eapply aborted_false_before; [done| |done].
        by destruct (wf_awaiting _ _ Hwf _ _ Hr).
      + intros Hs. destruct (edit_suggestion s e s' Hedit Hstep) as [?| ->];
          [done|auto].
    - split; [congruence|]. rewrite Haw, Hcalls. split.
      + intros r sig Hr Hab.
        pose proof (new_cycle_aborts s e s' r sig Hwf Hr Hstep Hcode) as Ht.
        unfold aborted in Hab. apply bool_decide_eq_false in Hab. done.
      + intros Hs. destruct (edit_suggestion s e s' Hedit Hstep) as [?| ->];
          done. }
  destruct e as [value|key|ms|r o]; try done.
  - injection Hstep as <-.
    assert (answers_current_text (run_timers (length (timers s)) (now s + ms) s))
      as H; [|exact H].
    assert (app_wf (run_timers (length (timers s)) (now s + ms) s) /\
            answers_current_text (run_timers (length (timers s)) (now s + ms) s))
      as [_ H]; [|exact H].
    apply (run_timers_invariant (fun x => app_wf x /\ answers_current_text x));
      [|done].
    clear. intros s2 id t (Hwf & Hlen & Hfetch & Hshown) Hid _.
    split; [by apply wf_timeout|].
    set (x := clearTimeout id (set_now (now s2 `max` due t) s2)).
    destruct t as [d [currentCode controller|position]]; cbn [callback due fire].
    + destruct (wf_fetch _ _ Hwf _ _ _ _ Hid) as (_ & -> & _).
      destruct (fetchSuggestions_frame (code s2) controller x)
        as ((Hcode & _ & _ & _ & _ & _ & _ & Hcs) & _).
      assert (forall sig, aborted sig (fetchSuggestions (code s2) controller x) =
                aborted sig s2) as Hab by (intros sig; unfold aborted; by rewrite Hcs).
      assert (inlineSuggestion (fetchSuggestions (code s2) controller x) <> [] ->
              exists r, call_snippet <$> calls s2 !! r = Some (code s2)) as Hshown'.
      { intros Hs. apply Hshown.
        destruct (fetchSuggestions_inl (code s2) controller x) as [Heq|Heq];
          rewrite Heq in Hs; [exact Hs|done]. }
      unfold answers_current_text. rewrite Hcode.
      destruct (fetchSuggestions_out (code s2) controller x)
        as [[-> ->]|[-> ->]]; (split; [|split]).
      * done.
      * intros r sig Hr. rewrite Hab. by apply Hfetch.
      * done.
      * rewrite !length_app. simpl. change (length (awaiting s2) + 1 = length (calls s2) + 1). lia.
      * intros r sig Hr. rewrite Hab. intros Hna.
        apply lookup_snoc_Some in Hr as [[Hlt Hr]|[-> [= <-]]].
        -- change (awaiting x) with (awaiting s2) in *.
           change (calls x) with (calls s2).
           rewrite lookup_app_l by lia. by apply (Hfetch r sig).
        -- change (awaiting x) with (awaiting s2). change (calls x) with (calls s2).
           rewrite Hlen. by rewrite lookup_app_r, Nat.sub_diag.
      * intros Hs. destruct (Hshown' Hs) as [r Hr]. exists r.
        change (calls x) with (calls s2).
        destruct (calls s2 !! r) eqn:E; [|done].
        by rewrite (lookup_app_l_Some _ _ _ _ E).
    + unfold x. simpl. destruct (editorRef s2); by repeat split.
  - simpl in Hstep. destruct (awaiting s !! r) as [[sig|]|] eqn:Hr; [|done..].
    injection Hstep as <-.
    set (x := set_awaiting _ s).
    destruct (fetchSuggestions_resume_frame sig (getCodeSuggestions_resume o) x)
      as ((Hcode & _ & _ & _ & _ & _ & _ & Hcs) & Haw & Hcalls).
    split; [|split]; rewrite ?Haw, ?Hcalls, ?Hcode.
    + simpl. by rewrite length_insert.
    + intros r' sig'. simpl.
      intros [(_ & [=] & _)|[_ Hl]]%list_lookup_insert_Some Hab.
      apply (Hfetch _ _ Hl). unfold aborted in *. by rewrite Hcs in Hab.
    + intros Hs.
      destruct (fetchSuggestions_resume_inl sig (getCodeSuggestions_resume o) x)
        as [Heq|Hab].
      * rewrite Heq in Hs. auto.
      * exists r. by apply (Hfetch _ _ Hr).
Qed.

Lemma answers_reachable st : reachable st -> answers_current_text st.
Proof.
  intros (k & evs & Hrun).
  assert (app_wf st /\ answers_current_text st) as [_ H]; [|exact H].
  apply (app_run_invariant (fun s => app_wf s /\ answers_current_text s)
           _ _ _) in Hrun; [done| |].
  - intros s e s' [Hwf Ha] Hstep. split; [by eapply wf_step|by eapply answers_step].
  - split; [apply wf_mount|]. by repeat split.
Qed.

(** X4: a suggestion is on display only if a call was made for exactly the
    text now in the editor; and the settlement of a call changes what is
    displayed (text, suggestion, loading flag or error) only if that call
    is the one that was made for the text now in the editor. *)
Theorem response_answers_current_text st :
  reachable st ->
  (inlineSuggestion st <> [] ->
   exists r, call_snippet <$> calls st !! r = Some (code st)) /\
  forall r o st',
    step st (Settle r o) = Some st' -> visible st' <> visible st ->
    call_snippet <$> calls st !! r = Some (code st).
Proof.
  intros (_ & Hfetch & Hshown)%answers_reachable. split; [done|].
  intros r o st' Hstep Hvis. simpl in Hstep.
  destruct (awaiting st !! r) as [[sig|]|] eqn:Hr; [|done..].
  injection Hstep as <-.
  destruct (aborted sig st) eqn:Hab; [|by apply (Hfetch _ _ Hr)].
  rewrite fetchSuggestions_resume_aborted in Hvis; done.
Qed.

(** *** How many calls go out *)

Lemma clear_no_fetch id s :
  no_fetch_pending s -> no_fetch_pending (set_timers (<[id:=None]> (timers s)) s).
Proof.
  intros Hn j d text c. simpl.
  intros [(_ & [=] & _)|[_ Hl]]%list_lookup_insert_Some. by eapply Hn.
Qed.

Lemma budget_step n s e s' :
  app_wf s -> within_budget n s -> step s e = Some s' ->
  within_budget (n + (if app_edit e then 1 else 0)) s'.
Proof.
  intros Hwf [Hle Hroom] Hstep.
  destruct (app_edit e) eqn:Hedit.
  { destruct (edit_frame s e s' Hedit Hstep) as (_ & _ & _ & Hcalls & _).
    split; rewrite Hcalls; [|left]; lia. }
  rewrite Nat.add_0_r.
  destruct e as [value|key|ms|r o]; try done.
  - injection Hstep as <-.
    assert (app_wf (run_timers (length (timers s)) (now s + ms) s) /\
            within_budget n (run_timers (length (timers s)) (now s + ms) s))
      as (_ & Hle' & Hroom').
    2: { split; [done|]. destruct Hroom' as [?|Hn]; [by left|right].
         intros j d text c. by apply Hn. }
    apply (run_timers_invariant (fun x => app_wf x /\ within_budget n x)); [|done].
    clear. intros s2 id t (Hwf & Hle & Hroom) Hid _.
    split; [by apply wf_timeout|].
    set (x := clearTimeout id (set_now (now s2 `max` due t) s2)).
    destruct t as [d [currentCode controller|position]]; cbn [callback due fire].
    + destruct Hroom as [Hlt|Hn]; [|by destruct (Hn _ _ _ _ Hid)].
      assert (no_fetch_pending (fetchSuggestions currentCode controller x)) as Hn.
      { intros j d' text c'.
        destruct (fetchSuggestions_frame currentCode controller x)
          as ((_ & _ & _ & _ & _ & _ & -> & _) & _).
        simpl. intros [(_ & [=] & _)|[Hj Hl]]%list_lookup_insert_Some.
        destruct (wf_fetch _ _ Hwf _ _ _ _ Hl) as (Hj' & _).
        destruct (wf_fetch _ _ Hwf _ _ _ _ Hid) as (Hid' & _). congruence. }
      split; [|by right].
      destruct (fetchSuggestions_out currentCode controller x) as [[_ ->]|[_ ->]];
        rewrite ?length_app; simpl; change (calls x) with (calls s2); lia.
    + unfold x. simpl. destruct (editorRef s2); simpl.
      all: split; [done|]; destruct Hroom as [?|Hn]; [by left|right].
      all: by apply (clear_no_fetch id (set_now (now s2 `max` d) s2)).
  - simpl in Hstep. destruct (awaiting s !! r) as [[sig|]|] eqn:Hr; [|done..].
    injection Hstep as <-.
    set (x := set_awaiting _ s).
    destruct (fetchSuggestions_resume_frame sig (getCodeSuggestions_resume o) x)
      as ((_ & _ & _ & _ & _ & _ & Ht & _) & _ & Hcalls).
    unfold within_budget, no_fetch_pending. rewrite Hcalls, Ht. done.
Qed.

Lemma budget_run evs : forall s n s',
  app_wf s -> within_budget n s -> run s evs = Some s' ->
  within_budget (n + app_edits evs) s'.
Proof.
  induction evs as [|e evs IH]; intros s n s' Hwf Hb; simpl.
  - intros [= <-]. by rewrite Nat.add_0_r.
  - destruct (step s e) as [s1|] eqn:E; [|done]. intros Hrun.
    rewrite Nat.add_assoc.
    apply (IH s1); [by eapply wf_step|by apply (budget_step n s e s1)|done].
Qed.

(** X5: the editor never makes more calls than one for the text it starts
    with and one for each edit or key press since. *)
Theorem calls_bounded_by_edits API_KEY evs st :
  run (mount API_KEY) evs = Some st -> length (calls st) <= S (app_edits evs).
Proof.
  intros Hrun.
  apply (budget_run evs (mount API_KEY) 1 st (wf_mount API_KEY)) in Hrun as [H _];
    [done|].
  split; [|left]; simpl; lia.
Qed.

(** *** A suggestion taken is built upon *)

(** X6: taking the suggestion with Tab makes no call at once, and 500 ms
    later (or whenever time has passed that far with no further edit) the
    text with the suggestion appended is what the next call is made for:
    one call when its trimmed length reaches 3 and the key is set, none
    otherwise. *)
Theorem accepted_suggestion_is_sent_on st :
  reachable st -> inlineSuggestion st <> [] ->
  exists st1,
    step st (KeyDown tab) = Some st1 /\ calls st1 = calls st /\
    forall ms, 500 <= ms ->
      calls (elapse ms st1) =
        calls st ++
          app_calls (env_API_KEY st) (code st ++ inlineSuggestion st).
Proof.
  intros Hwf%app_reachable_wf Hs.
  pose proof (step_accept st Hs) as Hstep.
  set (x := setTimeout _ 0 _) in Hstep.
  set (st1 := effect (run_cleanup x)) in Hstep.
  exists st1. split; [done|].
  pose proof (wf_step _ _ _ Hwf Hstep) as Hwf1.
  destruct (wf_cleanup _ _ Hwf) as (h & c & Hc & _ & _ & Hr).
  destruct (effect_after_cleanup x h c Hc Hr) as (Ht & _ & Hcl & _).
  destruct (effect_fields (run_cleanup x))
    as (Hcode & _ & _ & _ & _ & Hnow & _ & Hcalls & Henv).
  destruct (run_cleanup_fields x)
    as (Hcode' & _ & _ & _ & _ & Hnow' & _ & Hcalls' & Henv' & _).
  fold st1 in Ht, Hcl, Hcode, Hnow, Hcalls, Henv. clearbody st1.
  rewrite Hcode' in Hcode. rewrite Hnow' in Hnow. rewrite Hcalls' in Hcalls.
  rewrite Henv' in Henv. simpl in Hcode, Hnow, Hcalls, Henv.
  split; [done|]. intros ms Hms.
  destruct (elapse_due ms st1 (length (timers x)) (length (controllers x))
              (now x + 500) Hwf1 Hcl) as (-> & _).
  - rewrite Ht, Hcode. rewrite lookup_app_r by by rewrite length_insert.
    by rewrite length_insert, Nat.sub_diag.
  - rewrite Hnow. simpl. lia.
  - by rewrite Hcalls, Henv, Hcode.
Qed.

(** *** The live controller *)

Lemma live_step s e s' :
  app_wf s -> one_live_controller s -> step s e = Some s' ->
  one_live_controller s'.
Proof.
  intros Hwf Hlive Hstep.
  assert (forall x, cleanup x = cleanup s ->
            requestAbortController x = requestAbortController s ->
            controllers x = controllers s ->
            one_live_controller (rerender (code s) x)) as Hre.
  { intros x Hcl Hrq Hcs. unfold rerender. destruct (JS.eqb _ _).
    { unfold one_live_controller. by rewrite Hrq, Hcs. }
    destruct (wf_cleanup _ _ Hwf) as (h & c & Hc & _ & Hlt & Hr).
    rewrite <- Hcl in Hc. rewrite <- Hrq in Hr.
    destruct (effect_after_cleanup x h c Hc Hr) as (_ & Hcs' & _ & Hrq').
    exists (length (controllers x)). rewrite Hcs', Hrq'. split; [done|]. split.
    { rewrite lookup_app_r by by rewrite length_insert.
      by rewrite length_insert, Nat.sub_diag. }
    intros c' [[_ Hl]|[-> _]]%lookup_snoc_Some; [|by rewrite length_insert].
    apply list_lookup_insert_Some in Hl as [(_ & [=] & _)|[Hne Hl]].
    destruct Hlive as (c0 & Hc0 & _ & Huniq).
    rewrite Hcs in Hl. apply Huniq in Hl. congruence. }
  destruct e as [value|key|ms|r o]; simpl in Hstep.
  - injection Hstep as <-. by apply Hre.
  - injection Hstep as <-. apply Hre; unfold handleKeyDown; by destruct (_ && _).
  - injection Hstep as <-. unfold one_live_controller.
    rewrite elapse_controllers.
    assert (requestAbortController (elapse ms s) = requestAbortController s)
      as ->; [|done].
    unfold elapse. simpl.
    apply (run_timers_invariant (fun x =>
      requestAbortController x = requestAbortController s)); [|done].
    intros s2 id [d [currentCode controller|position]] Hs _ _; cbn [callback due fire].
    + match goal with |- context [fetchSuggestions ?c ?g ?x] =>
        by destruct (fetchSuggestions_frame c g x) as ((_ & _ & -> & _) & _) end.
    + simpl. by destruct (editorRef s2).
  - destruct (awaiting s !! r) as [[sig|]|]; [|done..]. injection Hstep as <-.
    match goal with |- context [fetchSuggestions_resume ?g ?r ?x] =>
      destruct (fetchSuggestions_resume_frame g r x)
        as ((_ & _ & Hrq & _ & _ & _ & _ & Hcs) & _) end.
    unfold one_live_controller. by rewrite Hrq, Hcs.
Qed.

(** X7: in every state of the editor exactly one [AbortController] is
    live, the one [requestAbortController] holds; every controller made
    before it is aborted. *)
Theorem exactly_one_live_controller st :
  reachable st ->
  exists c,
    requestAbortController st = Some c /\ aborted c st = false /\
    forall c', c' < length (controllers st) -> c' <> c -> aborted c' st = true.
Proof.
  intros (k & evs & Hrun).
  assert (app_wf st /\ one_live_controller st) as [_ (c & Hc & Hlive & Huniq)].
  { apply (app_run_invariant (fun s => app_wf s /\ one_live_controller s)
             _ _ _) in Hrun; [done| |].
    - intros s e s' [Hwf Ha] Hstep.
      split; [by eapply wf_step|by eapply live_step].
    - split; [apply wf_mount|]. exists 0. simpl. split; [done|]. split; [done|].
      by intros [|[|c']]. }
  exists c. split; [done|]. unfold aborted. split.
  - apply bool_decide_eq_false. by rewrite Hlive.
  - intros c' Hlt Hne. apply bool_decide_eq_true.
    destruct (lookup_lt_is_Some_2 _ _ Hlt) as [[|] Hl]; [done|].
    by destruct (Hne (Huniq _ Hl)).
Qed.

(** *** What a suggestion on display looks like *)

Lemma fetchSuggestions_resume_shown signal r st :
  inlineSuggestion (fetchSuggestions_resume signal r st) = inlineSuggestion st \/
  inlineSuggestion (fetchSuggestions_resume signal r st) = [] \/
  r = Fulfilled (inlineSuggestion (fetchSuggestions_resume signal r st)).
Proof.
  unfold fetchSuggestions_resume, aborted.
  destruct r as [v|t]; simpl;
    destruct (bool_decide (controllers st !! signal = Some true)) eqn:E;
    simpl; rewrite ?E; simpl; auto.
Qed.

Lemma suggestion_invariant (clean : jsstring -> Prop) st :
  clean [] ->
  (forall o v, getCodeSuggestions_resume o = Fulfilled v -> clean v) ->
  reachable st -> clean (inlineSuggestion st).
Proof.
  intros Hnil Hres (k & evs & Hrun).
  apply (app_run_invariant (fun s => clean (inlineSuggestion s)) _ _ _) in Hrun;
    [done| |done].
  intros s e s' Hs Hstep. destruct (app_edit e) eqn:Hedit.
  { by destruct (edit_suggestion s e s' Hedit Hstep) as [->| ->]. }
  destruct e as [value|key|ms|r o]; try done.
  - injection Hstep as <-. unfold elapse. simpl.
    apply (run_timers_invariant (fun x => clean (inlineSuggestion x))); [|done].
    intros s2 id [d [currentCode controller|position]] Hs2 _ _; cbn [callback due fire].
    + match goal with |- context [fetchSuggestions ?c ?g ?x] =>
        by destruct (fetchSuggestions_inl c g x) as [->| ->] end.
    + simpl. by destruct (editorRef s2).
  - simpl in Hstep. destruct (awaiting s !! r) as [[sig|]|]; [|done..].
    injection Hstep as <-.
    match goal with |- context [fetchSuggestions_resume ?g ?r ?x] =>
      destruct (fetchSuggestions_resume_shown g r x) as [->|[->|Hr]] end; eauto.
Qed.

(** *** What a missing key shows *)

Lemma fetchSuggestions_no_key currentCode signal st :
  3 <= length (JS.trim currentCode) -> missing_API_KEY (env_API_KEY st) = true ->
  aborted signal st = false ->
  inlineSuggestion (fetchSuggestions currentCode signal st) = [] /\
  isLoading (fetchSuggestions currentCode signal st) = false /\
  error (fetchSuggestions currentCode signal st) =
    Some (JS.lit "API_KEY environment variable is not set.").
Proof.
  intros Hlong Hmiss Hab. unfold fetchSuggestions, getCodeSuggestions_call.
  replace (_ <? 3) with false by (symmetry; apply Nat.ltb_ge; lia).
  cbn [env_API_KEY set_error set_isLoading]. rewrite Hmiss.
  unfold fetchSuggestions_resume.
  change (aborted signal (set_error ?a (set_isLoading ?b st)))
    with (aborted signal st).
  rewrite Hab. simpl.
  change (aborted signal (set_inlineSuggestion ?a (set_error ?b
            (set_error ?c (set_isLoading ?d st))))) with (aborted signal st).
  by rewrite Hab.
Qed.

(** X8: started without a key (none, or an empty one) the editor never
    makes a call and never waits on one; each time its debounce timer comes
    due on a text of trimmed length 3 or more it shows the message of the
    client's own check, "API_KEY environment variable is not set.", with no
    suggestion and the loading flag down. *)
Theorem no_key_no_call API_KEY evs st :
  missing_API_KEY API_KEY = true -> run (mount API_KEY) evs = Some st ->
  calls st = [] /\ awaiting st = [] /\
  forall h d text c ms,
    timers st !! h = Some (Some {| due := d; callback := FetchTask text c |}) ->
    d <= now st + ms -> 3 <= length (JS.trim text) ->
    inlineSuggestion (elapse ms st) = [] /\ isLoading (elapse ms st) = false /\
    error (elapse ms st) = Some (JS.lit "API_KEY environment variable is not set.").
Proof.
  intros Hmiss Hrun.
  destruct (no_key_quiet _ _ _ Hmiss Hrun) as (Henv & Hcalls & Haw).
  split; [done|]. split; [done|].
  intros h d text c ms Hh Hd Hlong.
  pose proof (wf_run _ _ _ (wf_mount API_KEY) Hrun) as Hwf.
  pose proof (elapse_fetch_status ms st h d text c Hwf Hh Hd) as [= H1 H2 H3 _ _].
  unfold elapse. cbn [inlineSuggestion isLoading error set_now].
  rewrite H1, H2, H3. apply fetchSuggestions_no_key; [done|by rewrite Henv|].
  destruct (wf_fetch _ _ Hwf _ _ _ _ Hh) as (_ & _ & Hc).
  unfold aborted. apply bool_decide_eq_false. by rewrite Hc.
Qed.

(** *** The status line *)

(** X9: the loading flag is never up while an error is shown: the status
    line shows "Gemini is thinking..." or an error, never both. *)
Theorem loading_hides_error st :
  reachable st -> isLoading st = true -> error st = None.
Proof.
  intros (k & evs & Hrun).
  apply (app_run_invariant (fun s => isLoading s = true -> error s = None)
           (mount k) evs st); [|done|done].
  clear. intros s e s' Hs Hstep. destruct (app_edit e) eqn:Hedit.
  { by destruct (edit_frame s e s' Hedit Hstep) as (-> & -> & _). }
  destruct e as [value|key|ms|r o]; try done.
  - injection Hstep as <-. unfold elapse. simpl.
    apply (run_timers_invariant (fun x => isLoading x = true -> error x = None));
      [|done].
    clear. intros s2 id [d [currentCode controller|position]] Hs2 _ _;
      cbn [callback due fire].
    + unfold fetchSuggestions, getCodeSuggestions_call.
      destruct (_ <? 3); [done|]. destruct (missing_API_KEY _); [|done].
      unfold fetchSuggestions_resume, aborted. simpl.
      destruct (bool_decide (controllers s2 !! controller = Some true)) eqn:E;
        simpl; rewrite ?E; simpl; done.
    + simpl. by destruct (editorRef s2).
  - simpl in Hstep. destruct (awaiting s !! r) as [[sig|]|]; [|done..].
    injection Hstep as <-.
    unfold fetchSuggestions_resume, aborted. simpl.
    destruct (getCodeSuggestions_resume o);
      destruct (bool_decide (controllers s !! sig = Some true)) eqn:E;
      simpl; rewrite ?E; simpl; done.
Qed.

Lemma fetchSuggestions_cases currentCode signal st :
  aborted signal st = false ->
  (awaiting (fetchSuggestions currentCode signal st) = awaiting st /\
   inlineSuggestion (fetchSuggestions currentCode signal st) = []) \/
  (awaiting (fetchSuggestions currentCode signal st) = awaiting st ++ [Some signal] /\
   isLoading (fetchSuggestions currentCode signal st) = true /\
   error (fetchSuggestions currentCode signal st) = None /\
   inlineSuggestion (fetchSuggestions currentCode signal st) = inlineSuggestion st).
Proof.
  intros Hab. unfold fetchSuggestions, getCodeSuggestions_call.
  destruct (_ <? 3); [left; by auto|].
  destruct (missing_API_KEY _); [left|by right].
  match goal with |- context [fetchSuggestions_resume ?g ?r ?x] =>
    destruct (fetchSuggestions_resume_frame g r x) as (_ & -> & _) end.
  split; [done|].
  unfold fetchSuggestions_resume.
  change (aborted signal (set_error ?a (set_isLoading ?b st)))
    with (aborted signal st).
  rewrite Hab. simpl.
  change (aborted signal (set_inlineSuggestion ?a (set_error ?b
            (set_error ?c (set_isLoading ?d st))))) with (aborted signal st).
  by rewrite Hab.
Qed.

Lemma fetchSuggestions_resume_live signal r st :
  aborted signal st = false ->
  match r with
  | Fulfilled v =>
      fetchSuggestions_resume signal r st =
        set_isLoading false (set_inlineSuggestion v st)
  | Rejected _ => inlineSuggestion (fetchSuggestions_resume signal r st) = []
  end.
Proof.
  intros Hab. unfold fetchSuggestions_resume. destruct r as [v|t]; rewrite Hab; simpl.
  - change (aborted signal (set_inlineSuggestion v st)) with (aborted signal st).
    by rewrite Hab.
  - change (aborted signal (set_inlineSuggestion ?a (set_error ?b st)))
      with (aborted signal st).
    by rewrite Hab.
Qed.

Lemma listening_frame s s' :
  awaiting s' = awaiting s -> controllers s' = controllers s ->
  forall r, listening s' r <-> listening s r.
Proof. intros Ha Hc r. unfold listening, aborted. by rewrite Ha, Hc. Qed.

Lemma display_same s s' :
  awaiting s' = awaiting s -> controllers s' = controllers s ->
  isLoading s' = isLoading s -> error s' = error s ->
  (inlineSuggestion s' = inlineSuggestion s \/ inlineSuggestion s' = []) ->
  (no_fetch_pending s -> no_fetch_pending s') ->
  display_consistent s -> display_consistent s'.
Proof.
  intros Ha Hc Hl He Hi Hn [H1 H2].
  pose proof (listening_frame s s' Ha Hc) as Hlisten.
  split.
  - intros r Hr%Hlisten. destruct (H1 r Hr) as (? & ? & ? & Hu).
    rewrite Hl, He. repeat split; auto.
    intros r' Hr'%Hlisten. auto.
  - intros Hs. destruct Hi as [Hi|Hi]; [|congruence]. rewrite Hi in Hs.
    destruct (H2 Hs) as (? & ? & ? & Hno). rewrite Hl, He.
    repeat split; auto. intros r Hr%Hlisten. by apply (Hno r).
Qed.

Lemma display_silent s' :
  inlineSuggestion s' = [] -> (forall r, ~ listening s' r) -> display_consistent s'.
Proof.
  intros Hi Hno. split; [|done]. intros r Hr. by destruct (Hno r).
Qed.

Lemma display_step s e s' :
  app_wf s -> display_consistent s -> step s e = Some s' ->
  display_consistent s'.
Proof.
  intros Hwf Hd Hstep.
  assert (code s' <> code s -> forall r, ~ listening s' r) as Hnew.
  { intros Hcode r (sig & Hr & Hab).
    assert (awaiting s !! r = Some (Some sig)) as Hr0.
    { destruct (app_edit e) eqn:Hedit.
      - by destruct (edit_frame s e s' Hedit Hstep) as (_ & _ & <- & _).
      - destruct e as [value|key|ms|r0 o]; try done.
        + injection Hstep as <-. by rewrite elapse_code in Hcode.
        + simpl in Hstep. destruct (awaiting s !! r0) as [[sig0|]|]; [|done..].
          injection Hstep as <-.
          match type of Hcode with context [fetchSuggestions_resume ?g ?r ?x] =>
            destruct (fetchSuggestions_resume_frame g r x) as ((Hc'&_)&_) end.
          by rewrite Hc' in Hcode. }
    pose proof (new_cycle_aborts s e s' r sig Hwf Hr0 Hstep Hcode) as Ht.
    unfold aborted in Hab. apply bool_decide_eq_false in Hab. done. }
  destruct e as [value|key|ms|r o].
  - assert (inlineSuggestion s' = []) as Hi.
    { injection Hstep as <-.
      by destruct (rerender_frame (code s) (handleCodeChange value s))
        as (_ & -> & _). }
    destruct (decide (value = code s)) as [->|Hne].
    + simpl in Hstep. rewrite rerender_same in Hstep by done.
      injection Hstep as <-. apply (display_same s); auto.
    + apply display_silent; [done|]. apply Hnew.
      injection Hstep as <-.
      by destruct (rerender_frame (code s) (handleCodeChange value s)) as (-> & _).
  - destruct (JS.eqb key (JS.lit "Tab") && JS.truthy (inlineSuggestion s)) eqn:E.
    + apply andb_true_iff in E as [->%eqb_true Hs%truthy_true].
      fold tab in Hstep. pose proof Hstep as Hstep'.
      rewrite step_accept in Hstep' by done. injection Hstep' as <-.
      set (x := setTimeout _ 0 _) in *.
      destruct (effect_fields (run_cleanup x)) as (Hc & Hi & _).
      destruct (run_cleanup_fields x) as (Hc' & Hi' & _).
      apply display_silent; [by rewrite Hi, Hi'|]. apply Hnew.
      rewrite Hc, Hc'. simpl. intros Heq. apply (f_equal length) in Heq.
      rewrite length_app in Heq. destruct (inlineSuggestion s); [done|].
      simpl in Heq. lia.
    + simpl in Hstep. unfold handleKeyDown in Hstep. rewrite E in Hstep.
      simpl in Hstep. rewrite rerender_same in Hstep by done.
      by injection Hstep as <-.
  - injection Hstep as <-.
    assert (app_wf (run_timers (length (timers s)) (now s + ms) s) /\
            display_consistent (run_timers (length (timers s)) (now s + ms) s))
      as [_ H].
    2: { eapply display_same; [..|exact H]; auto. }
    apply (run_timers_invariant (fun x => app_wf x /\ display_consistent x));
      [|done].
    clear. intros s2 id t [Hwf Hd] Hid _.
    split; [by apply wf_timeout|].
    set (x := clearTimeout id (set_now (now s2 `max` due t) s2)).
    destruct t as [d [currentCode controller|position]]; cbn [callback due fire].
    + destruct (wf_fetch _ _ Hwf _ _ _ _ Hid) as (_ & _ & Hlive).
      assert (aborted controller x = false) as Hab.
      { unfold aborted. apply bool_decide_eq_false. simpl. by rewrite Hlive. }
      destruct Hd as [H1 H2].
      assert (forall r, ~ listening s2 r) as Hnone.
      { intros r Hr. destruct (H1 r Hr) as (_ & _ & Hn & _).
        by destruct (Hn _ _ _ _ Hid). }
      assert (inlineSuggestion s2 = []) as Hempty.
      { destruct (inlineSuggestion s2) eqn:E; [done|].
        destruct H2 as (_ & _ & Hn & _); [done|]. by destruct (Hn _ _ _ _ Hid). }
      destruct (fetchSuggestions_frame currentCode controller x)
        as ((_ & _ & _ & _ & _ & _ & Ht & Hcs) & _).
      assert (no_fetch_pending (fetchSuggestions currentCode controller x)) as Hn.
      { intros j d' text c'. rewrite Ht. simpl.
        intros [(_ & [=] & _)|[Hj Hl]]%list_lookup_insert_Some.
        destruct (wf_fetch _ _ Hwf _ _ _ _ Hl) as (Hj' & _).
        destruct (wf_fetch _ _ Hwf _ _ _ _ Hid) as (Hid' & _). congruence. }
      destruct (fetchSuggestions_cases currentCode controller x Hab)
        as [[Ha Hi]|(Ha & Hl & He & Hi)].
      * apply display_silent; [done|]. intros r Hr.
        apply (listening_frame x) in Hr; [|done..]. by apply (Hnone r).
      * assert (forall r, listening (fetchSuggestions currentCode controller x) r ->
                  r = length (awaiting s2)) as Hone.
        { intros r (sig & Hr & Hs). rewrite Ha in Hr.
          apply lookup_snoc_Some in Hr as [[_ Hr]|[-> _]]; [|done].
          destruct (Hnone r). exists sig. split; [done|].
          unfold aborted in *. by rewrite Hcs in Hs. }
        split.
        -- intros r Hr. repeat split; try done.
           intros r' Hr'. by rewrite (Hone r Hr), (Hone r' Hr').
        -- rewrite Hi. intros Hs. by destruct Hs.
    + unfold x. simpl. destruct (editorRef s2); simpl.
      all: apply (display_same s2); auto.
      all: by apply (clear_no_fetch id (set_now (now s2 `max` d) s2)).
  - simpl in Hstep. destruct (awaiting s !! r) as [[sig|]|] eqn:Hr; [|done..].
    injection Hstep as <-.
    set (x := set_awaiting _ s).
    assert (forall r', listening x r' -> r' <> r /\ listening s r') as Hsub.
    { intros r' (sig' & Hr' & Hab). simpl in Hr'.
      apply list_lookup_insert_Some in Hr' as [(_ & [=] & _)|[Hne Hr']].
      split; [done|]. by exists sig'. }
    destruct Hd as [H1 H2].
    destruct (aborted sig s) eqn:Hab.
    + rewrite fetchSuggestions_resume_aborted by done. split.
      * intros r' [Hne Hr']%Hsub. destruct (H1 r' Hr') as (? & ? & ? & Hu).
        repeat split; try done. intros r'' [_ Hr'']%Hsub. auto.
      * intros Hs. destruct (H2 Hs) as (? & ? & ? & Hno).
        repeat split; try done. intros r' [_ Hr']%Hsub. by apply (Hno r').
    + assert (listening s r) as Hlisten by by exists sig.
      destruct (H1 r Hlisten) as (_ & He & Hn & Hu).
      destruct (fetchSuggestions_resume_frame sig (getCodeSuggestions_resume o) x)
        as ((_ & _ & _ & _ & _ & _ & Ht & Hcs) & Ha & _).
      assert (forall r', ~ listening
                (fetchSuggestions_resume sig (getCodeSuggestions_resume o) x) r')
        as Hno.
      { intros r' Hr'. apply (listening_frame x) in Hr'; [|done..].
        apply Hsub in Hr' as [Hne Hr']. by apply Hne, Hu. }
      pose proof (fetchSuggestions_resume_live sig (getCodeSuggestions_resume o) x Hab)
        as Hlive.
      destruct (getCodeSuggestions_resume o) as [v|t].
      * split; [intros r' Hr'; by destruct (Hno r')|].
        intros _. rewrite Hlive in Hno |- *. by repeat split.
      * by apply display_silent.
Qed.

(** X10: while a suggestion is on display the editor is at rest: the
    loading flag is down, no error is shown, no fetch timer is pending and
    no call is out that could still change what is shown. *)
Theorem suggestion_on_display_is_final st :
  reachable st -> inlineSuggestion st <> [] ->
  isLoading st = false /\ error st = None /\ no_fetch_pending st /\
  forall r sig, awaiting st !! r = Some (Some sig) -> aborted sig st = true.
Proof.
  intros (k & evs & Hrun) Hs.
  assert (app_wf st /\ display_consistent st) as [_ [_ H2]].
  { apply (app_run_invariant (fun s => app_wf s /\ display_consistent s)
             (mount k) evs st); [| |done].
    - intros s e s' [Hwf Hd] Hstep.
      split; [by eapply wf_step|by eapply display_step].
    - split; [apply wf_mount|]. apply display_silent; [done|].
      by intros r (sig & Hr & _). }
  destruct (H2 Hs) as (? & ? & ? & Hno). repeat split; try done.
  intros r sig Hr. destruct (aborted sig st) eqn:E; [done|].
  destruct (Hno r). by exists sig.
Qed.

End AppFurther.

(** * Further properties of the plugin *)

Section PluginFurther.
Context {Session Pos : Type}.
Variable getTextRange : Session -> Pos -> jsstring.
Variable getModeId : Session -> jsstring.
Import Plugin.
Implicit Types (st x : @Plugin.state Session Pos).

Local Abbreviation on_timeout := (Plugin.on_timeout getTextRange getModeId).
Local Abbreviation run_timers := (Plugin.run_timers getTextRange getModeId).
Local Abbreviation elapse := (Plugin.elapse getTextRange getModeId).
Local Abbreviation step := (Plugin.step getTextRange getModeId).
Local Abbreviation run := (Plugin.run getTextRange getModeId).
Local Abbreviation reachable := (Plugin.reachable getTextRange getModeId).

Lemma plugin_run_invariant (P : state -> Prop) st evs st' :
  (forall x e x', P x -> step x e = Some x' -> P x') ->
  P st -> run st evs = Some st' -> P st'.
Proof.
  intros Hstep. revert st. induction evs as [|e evs IH]; intros st HP; simpl.
  - by intros [= <-].
  - destruct (Plugin.step _ _ st e) as [st1|] eqn:E; [|done]. eauto.
Qed.

Lemma plugin_run_invariant_forall (P : state -> Prop) (F : event -> Prop)
    st evs st' :
  (forall x e x', P x -> F e -> step x e = Some x' -> P x') ->
  P st -> Forall F evs -> run st evs = Some st' -> P st'.
Proof.
  intros Hstep. revert st. induction evs as [|e evs IH]; intros st HP HF; simpl.
  - by intros [= <-].
  - apply Forall_cons in HF as [He HF].
    destruct (Plugin.step _ _ st e) as [st1|] eqn:E; [|done]. eauto.
Qed.

Lemma plugin_reachable_run st evs st' :
  reachable st -> run st evs = Some st' -> reachable st'.
Proof.
  intros (s0 & evs0 & H0) H. exists s0, (evs0 ++ evs).
  by rewrite plugin_run_app, H0.
Qed.

(** *** The timer callback, case by case *)

Lemma on_timeout_unfold cl st :
  on_timeout cl st =
    let st2 := fresh_controller st in
    let session := sessions st2 (cl_session cl) in
    let codeBeforeCursor := getTextRange session (cl_pos cl) in
    if length (JS.trim codeBeforeCursor) <? 10 then
      set_isLoading false (resolve (cl_resolve cl) [] st2)
    else
      let st3 := toast thinking st2 in
      match getCodeSuggestion_call st3 codeBeforeCursor (getModeId session) with
      | inl e => completion_resume (Rejected (JS.ErrorObject e)) (cl_resolve cl) st3
      | inr call =>
          set_awaiting
            (awaiting st3 ++
               [Some {| rq_signal := length (controllers st);
                        rq_resolve := cl_resolve cl |}])
            (set_calls (calls st3 ++ [call]) st3)
      end.
Proof.
  unfold Plugin.on_timeout, fresh_controller.
  destruct (isLoading st); [destruct (abortController st)|]; simpl;
    by rewrite ?length_insert.
Qed.

Lemma fresh_controller_fields st :
  let st2 := fresh_controller st in
  ai st2 = ai st /\ debounceTimeout st2 = debounceTimeout st /\
  providers st2 = providers st /\ alerts st2 = alerts st /\
  toasts st2 = toasts st /\ sessions st2 = sessions st /\
  promises st2 = promises st /\ now st2 = now st /\ timers st2 = timers st /\
  awaiting st2 = awaiting st /\ calls st2 = calls st /\
  isLoading st2 = true /\
  abortController st2 = Some (length (controllers st)) /\
  length (controllers st2) = S (length (controllers st)) /\
  controllers st2 !! length (controllers st) = Some false.
Proof.
  unfold fresh_controller.
  destruct (isLoading st); [destruct (abortController st)|]; simpl;
    rewrite ?length_insert, ?length_app; simpl; repeat split; try done; try lia.
  all: rewrite ?length_insert; try lia.
  all: rewrite lookup_app_r by (rewrite ?length_insert; lia).
  all: by rewrite ?length_insert, Nat.sub_diag.
Qed.

Lemma resolve_alerts p items st : alerts (resolve p items st) = alerts st.
Proof. unfold resolve. by repeat case_match. Qed.

Lemma catch_block_more t p st :
  alerts (catch_block t p st) = alerts st /\
  isLoading (catch_block t p st) = isLoading st /\
  (toasts (catch_block t p st) = toasts st \/
   exists m, toasts (catch_block t p st) = toasts st ++ [JS.lit "Gemini Error: " ++ m]).
Proof.
  destruct (catch_block_cases t p st) as [->|[->|[m ->]]]; [by auto| |];
    rewrite resolve_alerts;
    match goal with |- context [resolve p [] ?x] =>
      destruct (resolve_frame p [] x) as (_&_&_&->&_&_&_&_&_&_&_&->&_) end;
    simpl; eauto.
Qed.

Lemma completion_resume_more r p st :
  alerts (completion_resume r p st) = alerts st /\
  isLoading (completion_resume r p st) = false /\
  (toasts (completion_resume r p st) = toasts st \/
   exists m,
     toasts (completion_resume r p st) = toasts st ++ [JS.lit "Gemini Error: " ++ m]).
Proof.
  unfold completion_resume.
  match goal with |- context [set_isLoading false ?y] =>
    change (alerts y = alerts st /\ false = false /\
            (toasts y = toasts st \/
             exists m, toasts y = toasts st ++ [JS.lit "Gemini Error: " ++ m])) end.
  assert (forall items, alerts (resolve p items st) = alerts st /\ false = false /\
            (toasts (resolve p items st) = toasts st \/
             exists m, toasts (resolve p items st) =
                         toasts st ++ [JS.lit "Gemini Error: " ++ m])) as Hres.
  { intros items. rewrite resolve_alerts.
    destruct (resolve_frame p items st) as (_&_&_&_&_&_&_&_&_&_&_&->&_). auto. }
  assert (forall t, alerts (catch_block t p st) = alerts st /\ false = false /\
            (toasts (catch_block t p st) = toasts st \/
             exists m, toasts (catch_block t p st) =
                         toasts st ++ [JS.lit "Gemini Error: " ++ m])) as Hcatch.
  { intros t. by destruct (catch_block_more t p st) as (? & _ & ?). }
  destruct r as [suggestion|t]; [|done].
  destruct (JS.truthy suggestion); [|done].
  destruct (abortController st) as [c|]; [|done].
  by destruct (negb _).
Qed.

Lemma on_timeout_more cl st :
  alerts (on_timeout cl st) = alerts st /\
  abortController (on_timeout cl st) = Some (length (controllers st)) /\
  length (controllers (on_timeout cl st)) = S (length (controllers st)) /\
  (isLoading (on_timeout cl st) = true ->
   exists rq, awaiting (on_timeout cl st) = awaiting st ++ [Some rq]).
Proof.
  rewrite on_timeout_unfold. cbv zeta.
  destruct (fresh_controller_fields st)
    as (_ & _ & _ & Hal & _ & _ & _ & _ & _ & Haw & _ & _ & Hab & Hlen & _).
  set (st2 := fresh_controller st) in *. clearbody st2.
  destruct (_ <? 10).
  - simpl. rewrite resolve_alerts.
    destruct (resolve_frame (cl_resolve cl) [] st2)
      as (_ & -> & _ & _ & _ & _ & _ & _ & -> & _).
    by repeat split.
  - unfold getCodeSuggestion_call.
    change (ai (toast thinking st2)) with (ai st2). destruct (ai st2).
    + simpl. repeat split; try done. intros _. eexists. by rewrite Haw.
    + match goal with |- context [completion_resume ?r ?p ?x] =>
        destruct (completion_resume_more r p x) as (-> & -> & _);
        destruct (completion_resume_frame r p x) as (_ & _ & _ & -> & ->) end.
      by repeat split.
Qed.

(** With the client in place the callback makes no call and shows nothing,
    or it shows the notice and makes one call. *)
Lemma on_timeout_announces cl st client :
  ai st = Some client ->
  (toasts (on_timeout cl st) = toasts st /\ calls (on_timeout cl st) = calls st) \/
  (exists call,
     toasts (on_timeout cl st) = toasts st ++ [thinking] /\
     calls (on_timeout cl st) = calls st ++ [call]).
Proof.
  intros Hclient. rewrite on_timeout_unfold. cbv zeta.
  destruct (fresh_controller_fields st)
    as (Hai & _ & _ & _ & Hto & _ & _ & _ & _ & _ & Hca & _).
  set (st2 := fresh_controller st) in *. clearbody st2.
  destruct (_ <? 10).
  - left. simpl.
    destruct (resolve_frame (cl_resolve cl) [] st2)
      as (_&_&_&_&_&_&_&_&_&_&->&->&_).
    done.
  - right. unfold getCodeSuggestion_call.
    change (ai (toast thinking st2)) with (ai st2). rewrite Hai, Hclient.
    eexists. simpl. by rewrite Hto, Hca.
Qed.

(** *** The notice of a request *)

Lemma count_thinking_snoc (l : list jsstring) (t : jsstring) :
  length (filter (fun t => t = thinking) (l ++ [t])) =
    length (filter (fun t => t = thinking) l) +
      (if decide (t = thinking) then 1 else 0).
Proof.
  rewrite filter_app, length_app. f_equal.
  rewrite filter_cons. by destruct (decide _).
Qed.

Lemma error_toast_is_no_notice (m : jsstring) :
  JS.lit "Gemini Error: " ++ m <> thinking.
Proof. vm_compute. discriminate. Qed.

(** X11: the notice "Gemini is thinking..." is shown once for each call
    that goes out, and only then. *)
Theorem thinking_toast_per_call st :
  reachable st ->
  length (filter (fun t => t = thinking) (toasts st)) = length (calls st).
Proof.
  intros (s0 & evs & Hrun).
  assert (plugin_wf st /\
          length (filter (fun t => t = thinking) (toasts st)) = length (calls st))
    as [_ H]; [|exact H].
  apply (plugin_run_invariant (fun x =>
    plugin_wf x /\
    length (filter (fun t => t = thinking) (toasts x)) = length (calls x))
    _ _ _) in Hrun; [done| |].
  2: { split; [|done].
       apply (plugin_reachable_wf getTextRange getModeId). by exists s0, []. }
  clear. intros x e x' [Hwf Hx] Hstep.
  split; [by eapply pwf_step|].
  destruct e as [settings| |s content|s pos|ms|r o]; simpl in Hstep.
  - injection Hstep as <-. unfold init.
    destruct settings as [[[|c k]|]|]; simpl; try done.
    rewrite count_thinking_snoc, Hx.
    destruct (decide _) as [Heq|_]; [|lia]. by vm_compute in Heq.
  - injection Hstep as <-. unfold destroy, clearTimeout.
    by destruct (abortController x); simpl; destruct (debounceTimeout x).
  - by injection Hstep as <-.
  - destruct (0 <? providers x); [|done]. injection Hstep as <-.
    unfold provideCompletions, clearTimeout. simpl.
    by destruct (debounceTimeout x).
  - injection Hstep as <-. unfold Plugin.elapse. simpl.
    assert (plugin_wf (run_timers (length (timers x)) (now x + ms) x) /\
            length (filter (fun t => t = thinking)
                      (toasts (run_timers (length (timers x)) (now x + ms) x))) =
              length (calls (run_timers (length (timers x)) (now x + ms) x)))
      as [_ H]; [|exact H].
    apply (plugin_run_timers_invariant _ _ (fun y =>
      plugin_wf y /\
      length (filter (fun t => t = thinking) (toasts y)) = length (calls y)));
      [|done].
    clear. intros y id t [Hwf Hy] Hid _.
    split; [by apply pwf_timeout|].
    assert (exists client, ai y = Some client) as [client Hclient].
    { pose proof (pw_client _ Hwf) as Hc. destruct (ai y); [by eexists|].
      destruct Hc as [_ Hnil]. by rewrite Hnil in Hid. }
    match goal with |- context [Plugin.on_timeout _ _ ?cl ?z] =>
      destruct (on_timeout_announces cl z client Hclient)
        as [[-> ->]|(call & -> & ->)] end; [done|].
    rewrite count_thinking_snoc, length_app, decide_True by done.
    simpl in *. lia.
  - destruct (awaiting x !! r) as [[rq|]|]; [|done..]. injection Hstep as <-.
    match goal with |- context [completion_resume ?a ?p ?z] =>
      destruct (completion_resume_more a p z) as (_ & _ & [->|[m ->]]);
      destruct (completion_resume_frame a p z) as (_ & _ & -> & _) end;
      [done|].
    rewrite count_thinking_snoc, decide_False
      by apply error_toast_is_no_notice.
    simpl in *. lia.
Qed.

(** *** The loading flag *)

(** X12: while [#isLoading] is up, a call is out and not yet settled. *)
Theorem loading_means_in_flight st :
  reachable st -> isLoading st = true ->
  exists r rq, awaiting st !! r = Some (Some rq).
Proof.
  intros (s0 & evs & Hrun).
  apply (plugin_run_invariant (fun x =>
    isLoading x = true -> exists r rq, awaiting x !! r = Some (Some rq))
    (constructed s0) evs st); [|done|done].
  clear. intros x e x' Hx Hstep.
  destruct e as [settings| |s content|s pos|ms|r o]; simpl in Hstep.
  - injection Hstep as <-. unfold init.
    by destruct settings as [[[|c k]|]|].
  - injection Hstep as <-. unfold destroy, clearTimeout.
    by destruct (abortController x); simpl; destruct (debounceTimeout x).
  - by injection Hstep as <-.
  - destruct (0 <? providers x); [|done]. injection Hstep as <-.
    unfold provideCompletions, clearTimeout. simpl.
    by destruct (debounceTimeout x).
  - injection Hstep as <-. unfold Plugin.elapse. simpl.
    apply (plugin_run_timers_invariant _ _ (fun y =>
      isLoading y = true -> exists r rq, awaiting y !! r = Some (Some rq)));
      [|done].
    clear. intros y id t Hy Hid _ Hload.
    match goal with |- context [Plugin.on_timeout _ _ ?cl ?z] =>
      destruct (on_timeout_more cl z) as (_ & _ & _ & Haw) end.
    destruct (Haw Hload) as [rq ->].
    exists (length (awaiting y)), rq. simpl.
    by rewrite lookup_app_r, Nat.sub_diag.
  - destruct (awaiting x !! r) as [[rq|]|]; [|done..]. injection Hstep as <-.
    match goal with |- context [completion_resume ?a ?p ?z] =>
      by destruct (completion_resume_more a p z) as (_ & -> & _) end.
Qed.

(** *** After [destroy] *)

Lemma controller_allocated st :
  reachable st ->
  match abortController st with
  | Some c => c < length (controllers st)
  | None => True
  end.
Proof.
  intros (s0 & evs & Hrun).
  apply (plugin_run_invariant (fun x =>
    match abortController x with
    | Some c => c < length (controllers x)
    | None => True
    end) (constructed s0) evs st); [|done|done].
  clear. intros x e x' Hx Hstep.
  destruct e as [settings| |s content|s pos|ms|r o]; simpl in Hstep.
  - injection Hstep as <-. unfold init.
    by destruct settings as [[[|c k]|]|].
  - injection Hstep as <-. unfold destroy, clearTimeout.
    destruct (abortController x) as [c|] eqn:E; simpl;
      destruct (debounceTimeout x); simpl; rewrite ?E, ?length_insert; done.
  - by injection Hstep as <-.
  - destruct (0 <? providers x); [|done]. injection Hstep as <-.
    unfold provideCompletions, clearTimeout. simpl.
    by destruct (debounceTimeout x).
  - injection Hstep as <-. unfold Plugin.elapse. simpl.
    apply (plugin_run_timers_invariant _ _ (fun y =>
      match abortController y with
      | Some c => c < length (controllers y)
      | None => True
      end)); [|done].
    clear. intros y id t Hy Hid _.
    match goal with |- context [Plugin.on_timeout _ _ ?cl ?z] =>
      destruct (on_timeout_more cl z) as (_ & -> & -> & _) end.
    lia.
  - destruct (awaiting x !! r) as [[rq|]|]; [|done..]. injection Hstep as <-.
    match goal with |- context [completion_resume ?a ?p ?z] =>
      by destruct (completion_resume_frame a p z) as (_ & _ & _ & -> & ->) end.
Qed.

Lemma completion_resume_silenced r p st :
  match abortController st with
  | Some c => controllers st !! c = Some true
  | None => True
  end ->
  forall q,
    promises (completion_resume r p st) !! q = promises st !! q \/
    promises (completion_resume r p st) !! q = Some (Some []).
Proof.
  intros Hab q. unfold completion_resume.
  match goal with |- context [set_isLoading false ?y] =>
    change (promises y !! q = promises st !! q \/
            promises y !! q = Some (Some [])) end.
  assert (forall x, promises x = promises st ->
            promises (resolve p [] x) !! q = promises st !! q \/
            promises (resolve p [] x) !! q = Some (Some [])) as Hempty.
  { intros x Hx. destruct (resolve_lookup p [] x q) as [->|(_ & _ & ->)];
      [left; by rewrite Hx|by right]. }
  assert (forall t,
            promises (catch_block t p st) !! q = promises st !! q \/
            promises (catch_block t p st) !! q = Some (Some [])) as Hcatch.
  { intros t. destruct (catch_block_cases t p st) as [->|[->|[m ->]]];
      [by left|by apply Hempty..]. }
  destruct r as [suggestion|t]; [|done].
  destruct (JS.truthy suggestion); [|by apply Hempty].
  destruct (abortController st) as [c|]; [|done].
  unfold aborted. rewrite bool_decide_eq_true_2 by done. by apply Hempty.
Qed.

Lemma silenced_step before x e x' :
  silenced before x -> (forall s pos, e <> ProvideCompletions s pos) ->
  step x e = Some x' -> silenced before x'.
Proof.
  intros (Hnone & Hab & Hcalls & Hp) He Hstep.
  destruct e as [settings| |s content|s pos|ms|r o]; simpl in Hstep.
  - injection Hstep as <-. unfold init.
    by destruct settings as [[[|c k]|]|].
  - injection Hstep as <-. unfold destroy, clearTimeout, silenced.
    destruct (abortController x) as [c|] eqn:E; simpl;
      destruct (debounceTimeout x); simpl; rewrite ?E; repeat split; try done.
    all: try by apply insert_true_mono.
    all: intros i u [(_ & [=] & _)|[_ Hl]]%list_lookup_insert_Some;
      by destruct (Hnone _ _ Hl).
  - by injection Hstep as <-.
  - by destruct (He s pos).
  - injection Hstep as <-. rewrite plugin_elapse_quiet; [done|].
    intros i u Hl. by destruct (Hnone _ _ Hl).
  - destruct (awaiting x !! r) as [[rq|]|]; [|done..]. injection Hstep as <-.
    match goal with |- context [completion_resume ?a ?p ?z] =>
      destruct (completion_resume_frame a p z)
        as ((_ & _ & _ & _ & _ & Ht & _) & _ & Hc & Hcs & Hac);
      pose proof (completion_resume_silenced a p z Hab) as Hq end.
    unfold silenced. rewrite Ht, Hc, Hcs, Hac. repeat split; try done.
    intros q items Hl. destruct (Hq q) as [Heq|Heq]; rewrite Heq in Hl.
    + by apply Hp.
    + right. congruence.
Qed.

Lemma nothing_pending {C} (ts : list (option (timer C))) :
  (forall id t, ts !! id <> Some (Some t)) -> pending ts = 0.
Proof.
  induction ts as [|[t|] ts IH]; intros H; simpl; [done| |].
  - by destruct (H 0 t).
  - apply IH. intros id t. apply (H (S id) t).
Qed.

(** X13: after [destroy], until the host invokes the provider again, no
    call goes out, no timer is pending, and whatever the calls still out
    settle to, the promises they hold are resolved with no candidate. *)
Theorem destroy_silences st evs st' :
  reachable st -> no_invocation evs -> run st (Destroy :: evs) = Some st' ->
  calls st' = calls st /\ pending (timers st') = 0 /\
  forall p items,
    promises st' !! p = Some (Some items) ->
    promises st !! p = Some (Some items) \/ items = [].
Proof.
  intros Hreach Hquiet Hrun.
  pose proof (plugin_reachable_wf _ _ _ Hreach) as Hwf.
  pose proof (controller_allocated _ Hreach) as Halloc.
  change (run (destroy st) evs = Some st') in Hrun.
  assert (silenced st st') as (Hnone & _ & Hcalls & Hp).
  { apply (plugin_run_invariant_forall (silenced st)
             (fun e => forall s pos, e <> ProvideCompletions s pos)
             (destroy st) evs st'); [by eauto using silenced_step| |done|done].
    unfold destroy, clearTimeout, silenced.
    destruct (abortController st) as [c|] eqn:E; simpl;
      destruct (debounceTimeout st) as [h|] eqn:Eh; simpl; rewrite ?E;
      repeat split; try by auto.
    all: try by apply list_lookup_insert_eq.
    all: intros i u Hl;
      try (apply list_lookup_insert_Some in Hl as [(_ & [=] & _)|[Hne Hl]]);
      destruct (pw_timer _ Hwf _ _ Hl) as [Hd _]; congruence. }
  split; [done|]. split; [by apply nothing_pending|done].
Qed.

(** *** What [destroy] leaves in place *)

Lemma destroy_fields st :
  ai (destroy st) = ai st /\ providers (destroy st) = providers st /\
  sessions (destroy st) = sessions st /\ calls (destroy st) = calls st /\
  now (destroy st) = now st /\ alerts (destroy st) = alerts st.
Proof.
  unfold destroy, clearTimeout.
  by destruct (abortController st); simpl; destruct (debounceTimeout st).
Qed.

(** Once the pending timer is due, the passing of time makes the calls of
    its callback, on the text the session then holds. *)
Lemma plugin_timer_fires st h t ms client :
  plugin_wf st -> ai st = Some client ->
  timers st !! h = Some (Some t) -> due t <= now st + ms ->
  calls (elapse ms st) =
    calls st ++
      plugin_calls getTextRange getModeId
        (cl_session (callback t), sessions st (cl_session (callback t)),
         cl_pos (callback t)).
Proof.
  intros Hwf Hclient Hh Hdue.
  assert (forall i u, timers st !! i = Some (Some u) -> i = h) as Honly.
  { intros i u Hl. destruct (pw_timer _ Hwf _ _ Hl) as [? _],
      (pw_timer _ Hwf _ _ Hh) as [? _]. congruence. }
  rewrite (plugin_elapse_due _ _ ms st h t Hh Honly Hdue).
  set (x := set_timers _ _).
  change (calls (on_timeout (callback t) x) = calls x ++
            plugin_calls getTextRange getModeId
              (cl_session (callback t), sessions x (cl_session (callback t)),
               cl_pos (callback t))).
  by apply (on_timeout_calls _ _ _ _ client).
Qed.

(** X14: [destroy] leaves the provider registered and the client in place:
    when the host asks for completions again, the request is debounced and
    sent as before. *)
Theorem destroy_keeps_provider st s pos :
  reachable st -> 0 < providers st ->
  exists st1,
    run st [Destroy; ProvideCompletions s pos] = Some st1 /\
    calls st1 = calls st /\
    forall ms, 700 <= ms ->
      calls (elapse ms st1) =
        calls st ++ plugin_calls getTextRange getModeId (s, sessions st s, pos).
Proof.
  intros Hreach Hreg.
  pose proof (plugin_reachable_wf _ _ _ Hreach) as Hwf.
  assert (plugin_wf (destroy st)) as Hwfx
    by exact (pwf_step getTextRange getModeId st Destroy _ Hwf eq_refl).
  destruct (destroy_fields st) as (Hai & Hpr & Hse & Hca & Hnow & _).
  set (x := destroy st) in *.
  exists (provideCompletions s pos x).
  assert (run st [Destroy; ProvideCompletions s pos] =
            Some (provideCompletions s pos x)) as Hrun.
  { simpl. fold x. rewrite Hpr.
    by replace (0 <? providers st) with true by (symmetry; by apply Nat.ltb_lt). }
  split; [done|].
  destruct (provideCompletions_fields s pos x Hwfx)
    as (cleared & Hlen & _ & _ & Ht & _ & _ & _ & Hca1 & Hnow1 & Hse1 & Hai1 & _).
  assert (plugin_wf (provideCompletions s pos x)) as Hwf1
    by (apply pwf_provideCompletions; [done|by rewrite Hpr]).
  set (st1 := provideCompletions s pos x) in *. clearbody st1.
  split; [congruence|]. intros ms Hms.
  assert (exists client, ai st = Some client) as [client Hclient].
  { pose proof (pw_client _ Hwf) as Hc. destruct (ai st); [by eexists|].
    destruct Hc as [Hz _]. lia. }
  rewrite (plugin_timer_fires st1 (length (timers x))
             {| due := now x + 700;
                callback := {| cl_session := s; cl_pos := pos;
                               cl_resolve := length (promises x) |} |}
             ms client Hwf1); simpl.
  - by rewrite Hca1, Hca, Hse1, Hse.
  - congruence.
  - by rewrite Ht, lookup_app_r, Hlen, Nat.sub_diag by lia.
  - lia.
Qed.

(** *** When the text is read *)

(** X15: the text sent is the one the session holds when the timer fires,
    cut at the position given when the provider was invoked: an edit the
    host makes during the 700 ms is part of what is sent. *)
Theorem snippet_is_read_when_timer_fires st s pos gap content ms :
  reachable st -> 0 < providers st -> gap < 700 -> 700 <= gap + ms ->
  exists st1,
    run st [ProvideCompletions s pos; Elapse gap; HostEdit s content] = Some st1 /\
    calls st1 = calls st /\
    calls (elapse ms st1) =
      calls st ++ plugin_calls getTextRange getModeId (s, content, pos).
Proof.
  intros Hreach Hreg Hgap Hms.
  pose proof (plugin_reachable_wf _ _ _ Hreach) as Hwf.
  destruct (provideCompletions_fields s pos st Hwf)
    as (cleared & Hlen & Hnone & _ & Ht & _ & _ & _ & Hca1 & Hnow1 & Hse1 & Hai1 & _).
  assert (plugin_wf (provideCompletions s pos st)) as Hwf1
    by by apply pwf_provideCompletions.
  set (x1 := provideCompletions s pos st) in *.
  assert (elapse gap x1 = set_now (now x1 + gap) x1) as Hquiet.
  { apply plugin_elapse_quiet. intros i u. rewrite Ht.
    intros [[_ Hl]|[_ [= <-]]]%lookup_snoc_Some; [by destruct (Hnone _ _ Hl)|].
    cbn [due]. rewrite Hnow1. lia. }
  set (x3 := set_sessions
               (fun i => if bool_decide (i = s) then content else sessions x1 i)
               (set_now (now x1 + gap) x1)).
  assert (run st [ProvideCompletions s pos; Elapse gap; HostEdit s content] =
            Some x3) as Hrun.
  { cbn [Plugin.run Plugin.step].
    replace (0 <? providers st) with true by (symmetry; by apply Nat.ltb_lt).
    fold x1. by rewrite Hquiet. }
  assert (calls x3 = calls st) as Hca3 by exact Hca1.
  assert (sessions x3 s = content) as Hse3
    by (unfold x3; cbn [sessions set_sessions]; by rewrite bool_decide_eq_true_2).
  assert (timers x3 = timers x1) as Ht3 by done.
  assert (now x3 = now st + gap) as Hnow3
    by (change (now x1 + gap = now st + gap); by rewrite Hnow1).
  assert (ai x3 = ai st) as Hai3 by exact Hai1.
  assert (plugin_wf x3) as Hwf3.
  { destruct Hwf1 as [H1 H2 H3 H4 H5 H6]. by split. }
  exists x3. split; [done|]. split; [done|]. clearbody x3.
  assert (exists client, ai st = Some client) as [client Hclient].
  { pose proof (pw_client _ Hwf) as Hc. destruct (ai st); [by eexists|].
    destruct Hc as [Hz _]. lia. }
  rewrite (plugin_timer_fires x3 (length (timers st))
             {| due := now st + 700;
                callback := {| cl_session := s; cl_pos := pos;
                               cl_resolve := length (promises st) |} |}
             ms client Hwf3); cbn [callback cl_session cl_pos due].
  - by rewrite Hca3, Hse3.
  - congruence.
  - by rewrite Ht3, Ht, lookup_app_r, Hlen, Nat.sub_diag by lia.
  - lia.
Qed.

(** *** Registration *)

Lemma registration_step x e x' :
  step x e = Some x' ->
  providers x' = providers x + (if init_with_key e then 1 else 0) /\
  length (alerts x') = length (alerts x) + (if init_without_key e then 1 else 0).
Proof.
  intros Hstep.
  destruct e as [settings| |s content|s pos|ms|r o]; simpl in Hstep.
  - injection Hstep as <-. unfold init.
    destruct settings as [[[|c k]|]|]; simpl; rewrite ?length_app; simpl; lia.
  - injection Hstep as <-.
    destruct (destroy_fields x) as (_ & -> & _ & _ & _ & ->). simpl. lia.
  - injection Hstep as <-. simpl. lia.
  - destruct (0 <? providers x); [|done]. injection Hstep as <-.
    unfold provideCompletions, clearTimeout. simpl.
    destruct (debounceTimeout x); simpl; lia.
  - injection Hstep as <-. unfold Plugin.elapse. simpl.
    assert (providers (run_timers (length (timers x)) (now x + ms) x) = providers x /\
            alerts (run_timers (length (timers x)) (now x + ms) x) = alerts x)
      as [-> ->]; [|lia].
    apply (plugin_run_timers_invariant _ _ (fun y =>
      providers y = providers x /\ alerts y = alerts x)); [|done].
    intros y id t [Hp Ha] _ _.
    match goal with |- context [Plugin.on_timeout _ _ ?cl ?z] =>
      destruct (on_timeout_more cl z) as (-> & _);
      destruct (on_timeout_frame getTextRange getModeId cl z) as ((_ & _ & -> & _) & _) end.
    done.
  - destruct (awaiting x !! r) as [[rq|]|]; [|done..]. injection Hstep as <-.
    match goal with |- context [completion_resume ?a ?p ?z] =>
      destruct (completion_resume_more a p z) as (-> & _);
      destruct (completion_resume_frame a p z) as ((_ & _ & -> & _) & _) end.
    simpl. lia.
Qed.

(** X16: every [init] either finds a key, and registers the provider once
    more, or finds none, and raises one alert; nothing takes a registration
    back, [destroy] included. *)
Theorem providers_accumulate sessions0 evs st :
  run (constructed sessions0) evs = Some st ->
  providers st = count_events init_with_key evs /\
  length (alerts st) = count_events init_without_key evs.
Proof.
  assert (forall evs x,
            run x evs = Some st ->
            providers st = providers x + count_events init_with_key evs /\
            length (alerts st) = length (alerts x) + count_events init_without_key evs)
    as Hgen.
  { clear. induction evs as [|e evs IH]; intros x; simpl.
    - intros [= <-]. lia.
    - destruct (Plugin.step _ _ x e) as [x1|] eqn:E; [|done]. intros Hrun.
      destruct (IH _ Hrun) as [-> ->].
      destruct (registration_step _ _ _ E) as [-> ->]. lia. }
  intros Hrun. by destruct (Hgen _ _ Hrun) as [-> ->].
Qed.

(** *** One timer *)

Lemma pending_unique {C} (ts : list (option (timer C))) :
  (forall i j t u, ts !! i = Some (Some t) -> ts !! j = Some (Some u) -> i = j) ->
  pending ts <= 1.
Proof.
  induction ts as [|[t|] ts IH]; intros H; simpl; [lia| |].
  - rewrite nothing_pending; [lia|].
    intros i u Hl. by specialize (H 0 (S i) t u eq_refl Hl).
  - apply IH. intros i j t u Hi Hj.
    by specialize (H (S i) (S j) t u Hi Hj) as [= ->].
Qed.

(** X17: at most one timer of the plugin is pending at any time, and it is
    the one [#debounceTimeout] names. *)
Theorem at_most_one_timer_pending st :
  reachable st ->
  pending (timers st) <= 1 /\
  forall id t, timers st !! id = Some (Some t) -> debounceTimeout st = Some id.
Proof.
  intros Hwf%plugin_reachable_wf. split.
  - apply pending_unique. intros i j t u Hi Hj.
    destruct (pw_timer _ Hwf _ _ Hi) as [? _], (pw_timer _ Hwf _ _ Hj) as [? _].
    congruence.
  - intros id t Hl. by destruct (pw_timer _ Hwf _ _ Hl).
Qed.

(** *** The language name and the caption *)

Lemma includes_char (s : jsstring) (c : N) : JS.includes s [c] = true <-> c ∈ s.
Proof.
  induction s as [|a s IH]; simpl.
  - split; [done|]. by intros ?%elem_of_nil.
  - rewrite elem_of_cons, orb_true_iff, andb_true_iff, N.eqb_eq, IH.
    destruct s; simpl; tauto.
Qed.

Lemma last_segment_spec (s : jsstring) :
  (slash ∉ JS.last_segment s) /\
  exists front,
    s = front ++ JS.last_segment s /\ (front = [] \/ last front = Some slash).
Proof.
  induction s as [|c r (Hno & front & Hr & Hfront)]; simpl.
  { split; [by intros ?%elem_of_nil|]. exists []. auto. }
  destruct (JS.includes r [47%N]) eqn:E.
  - apply includes_char in E. split; [done|].
    exists (c :: front). split; [simpl; congruence|]. right.
    destruct Hfront as [->|Hl].
    + simpl in Hr. rewrite <- Hr in Hno. done.
    + destruct front; [done|]. done.
  - assert (slash ∉ r) as Hnr.
    { intros Hin%includes_char. unfold slash in Hin. congruence. }
    destruct (c =? 47)%N eqn:Ec.
    + apply N.eqb_eq in Ec as ->. split; [done|]. exists [slash]. auto.
    + apply N.eqb_neq in Ec. split.
      * intros [?|?]%elem_of_cons; [by unfold slash in *|done].
      * exists []. auto.
Qed.

(** X18: the language the plugin names in a call is the part of the
    session's mode id after its last slash (the whole id when it has none)
    and holds no slash; the snippet goes out as it was read. *)
Theorem language_name_is_last_segment st snippet language call :
  getCodeSuggestion_call st snippet language = inr call ->
  call_snippet call = snippet /\
  exists front name,
    call_language call = Some name /\ language = front ++ name /\
    (slash ∉ name) /\ (front = [] \/ last front = Some slash).
Proof.
  unfold getCodeSuggestion_call. destruct (ai st); [|done]. intros [= <-].
  split; [done|].
  destruct (last_segment_spec language) as (Hno & front & Hl & Hfront).
  by exists front, (JS.last_segment language).
Qed.

Lemma first_line_spec (s : jsstring) :
  (line_feed ∉ JS.first_line s) /\ exists k, JS.first_line s = take k s.
Proof.
  induction s as [|c r (Hno & k & Hk)]; simpl.
  { split; [by intros ?%elem_of_nil|]. by exists 0. }
  destruct (c =? 10)%N eqn:Ec.
  - split; [by intros ?%elem_of_nil|]. by exists 0.
  - apply N.eqb_neq in Ec. split.
    + intros [?|?]%elem_of_cons; [by unfold line_feed in *|done].
    + exists (S k). simpl. by rewrite Hk.
Qed.

(** X19: a candidate handed to the host comes alone, inserts a text that
    is not empty, and its caption is at most 53 code units: a prefix of at
    most 50 units of the text, without a line feed, and three dots. *)
Theorem caption_fits_one_line st p items c :
  reachable st -> promises st !! p = Some (Some items) -> c ∈ items ->
  items = [c] /\ value c <> [] /\ length (caption c) <= 53 /\
  (line_feed ∉ caption c) /\
  exists k, k <= 50 /\ caption c = take k (value c) ++ JS.lit "...".
Proof.
  intros Hwf%plugin_reachable_wf Hp Hc.
  destruct (pw_items _ Hwf _ _ Hp) as [->|(suggestion & Hne & ->)].
  { by apply elem_of_nil in Hc. }
  apply list_elem_of_singleton in Hc as ->.
  destruct (first_line_spec suggestion) as (Hno & k & Hk).
  split; [done|]. split; [done|].
  cbn [caption value completion_item]. unfold JS.substring0.
  split; [|split].
  - rewrite length_app, length_take. change (length (JS.lit "...")) with 3. lia.
  - intros [Hin|Hin]%elem_of_app.
    + apply elem_of_take in Hin as (i & Hi & _).
      apply Hno. by eapply list_elem_of_lookup_2.
    + unfold line_feed in Hin. vm_compute in Hin.
      repeat (apply elem_of_cons in Hin as [?|Hin]; [done|]).
      by apply elem_of_nil in Hin.
  - exists (50 `min` k). split; [lia|]. by rewrite Hk, take_take.
Qed.

(** *** What an answer becomes *)

Lemma resolved_with p items a st :
  promises st !! p = Some None ->
  promises (set_isLoading false (resolve p items (set_awaiting a st))) !! p =
    Some (Some items) /\
  isLoading (set_isLoading false (resolve p items (set_awaiting a st))) = false /\
  toasts (set_isLoading false (resolve p items (set_awaiting a st))) = toasts st.
Proof.
  intros Hp. split; [by apply (resolve_pending p items (set_awaiting a st))|].
  split; [done|].
  change (toasts (resolve p items (set_awaiting a st)) = toasts (set_awaiting a st)).
  by destruct (resolve_frame p items (set_awaiting a st))
    as (_&_&_&_&_&_&_&_&_&_&_&->&_).
Qed.

(** X20: when a call is answered with a text that is not empty, the call's
    own signal is not aborted and neither is the controller the plugin
    holds, the invocation is answered with one candidate made from the
    whole text; the loading flag goes down and nothing is announced. *)
Theorem live_answer_is_delivered st r rq text c st' :
  reachable st -> awaiting st !! r = Some (Some rq) -> text <> [] ->
  aborted (rq_signal rq) st = false ->
  abortController st = Some c -> aborted c st = false ->
  step st (Settle r (Response (Some text))) = Some st' ->
  promises st' !! rq_resolve rq = Some (Some [completion_item text]) /\
  isLoading st' = false /\ toasts st' = toasts st.
Proof.
  intros Hwf%plugin_reachable_wf Hr Htext%truthy_true Hown Hc Hlatest.
  unfold Plugin.step. rewrite Hr. intros [= <-].
  change (aborted (rq_signal rq) (set_awaiting ?a st))
    with (aborted (rq_signal rq) st).
  rewrite Hown. unfold getCodeSuggestion_resume. rewrite Htext.
  unfold completion_resume. rewrite Htext.
  change (abortController (set_awaiting ?a st)) with (abortController st).
  rewrite Hc.
  change (aborted c (set_awaiting ?a st)) with (aborted c st). rewrite Hlatest.
  apply resolved_with. exact (pw_awaiting _ Hwf _ _ Hr).
Qed.

(** X21: an answer without a text or with an empty one, an answer to a
    call whose own signal is aborted, and an answer that arrives while the
    controller the plugin holds is aborted all end the same way: the
    invocation is answered with no candidate, and nothing is announced. *)
Theorem dropped_answer_yields_no_candidate st r rq text st' :
  reachable st -> awaiting st !! r = Some (Some rq) ->
  text = None \/ text = Some [] \/ aborted (rq_signal rq) st = true \/
    (exists c, abortController st = Some c /\ aborted c st = true) ->
  step st (Settle r (Response text)) = Some st' ->
  promises st' !! rq_resolve rq = Some (Some []) /\
  isLoading st' = false /\ toasts st' = toasts st.
Proof.
  intros Hwf%plugin_reachable_wf Hr Hcase.
  unfold Plugin.step. rewrite Hr. intros [= <-].
  pose proof (pw_awaiting _ Hwf _ _ Hr) as Hp.
  change (aborted (rq_signal rq) (set_awaiting ?a st))
    with (aborted (rq_signal rq) st).
  assert (forall x,
            completion_resume (Fulfilled []) (rq_resolve rq) x =
              set_isLoading false (resolve (rq_resolve rq) [] x)) as Hempty by done.
  unfold getCodeSuggestion_resume.
  destruct (aborted (rq_signal rq) st) eqn:Hown.
  { rewrite Hempty. by apply resolved_with. }
  destruct text as [t|]; [|rewrite Hempty; by apply resolved_with].
  destruct (JS.truthy t) eqn:Ht; [|rewrite Hempty; by apply resolved_with].
  destruct Hcase as [?|[[= ->]|[?|(c & Hc & Hlatest)]]]; try done.
  unfold completion_resume. rewrite Ht.
  change (abortController (set_awaiting ?a st)) with (abortController st).
  rewrite Hc.
  change (aborted c (set_awaiting ?a st)) with (aborted c st). rewrite Hlatest.
  by apply resolved_with.
Qed.

End PluginFurther.

(** * The two copies of the client under the editor *)

Lemma friendly_service1 : friendly_service GeminiService1.service.
Proof.
  intros [text|t] t'; simpl.
  - by destruct (negb _).
  - intros [= <-]. by eexists.
Qed.

Lemma friendly_service2 : friendly_service GeminiService2.service.
Proof.
  intros [[text|]|t] t'; simpl; try done.
  - by destruct (JS.truthy text).
  - intros [= <-]. by eexists.
Qed.

(** X22: with either copy of the client, the error the editor shows is
    always one of the three messages the client raises; the editor's own
    fallback, "An unknown error occurred.", is never shown. *)
Theorem shown_error_is_a_client_message (st : App.state) :
  App.reachable (service := GeminiService1.service) st \/
  App.reachable (service := GeminiService2.service) st ->
  (App.error st = None \/
   exists m, App.error st = Some m /\ m ∈ service_messages) /\
  App.error st <> Some (JS.lit "An unknown error occurred.").
Proof.
  intros Hreach.
  assert (App.error st = None \/
          exists m, App.error st = Some m /\ m ∈ service_messages) as H.
  { destruct Hreach as [H|H].
    - exact (error_known (service := GeminiService1.service) st
               friendly_service1 H).
    - exact (error_known (service := GeminiService2.service) st
               friendly_service2 H). }
  split; [done|].
  destruct H as [->|(m & -> & Hm)]; [done|]. intros [= ->].
  unfold service_messages in Hm.
  repeat (apply elem_of_cons in Hm as [Hm|Hm]; [by vm_compute in Hm|]).
  by apply elem_of_nil in Hm.
Qed.

(** X23: a suggestion on display never begins with white space, and with
    the copy of the client that trims both ends it never ends with white
    space either; an answer of white space only is never displayed. *)
Theorem displayed_suggestion_is_trimmed (st : App.state) :
  (App.reachable (service := GeminiService1.service) st ->
   starts_clean (App.inlineSuggestion st)) /\
  (App.reachable (service := GeminiService2.service) st ->
   starts_clean (App.inlineSuggestion st) /\
   ends_clean (App.inlineSuggestion st)).
Proof.
  split.
  - apply (suggestion_invariant (service := GeminiService1.service)
             starts_clean); [done|].
    intros [[t|]|t] v; simpl; try done.
    + destruct (negb _); intros [= <-]; [done|].
      by destruct (trimStart_split t) as (_ & _ & _ & ?).
    + by intros [= <-].
  - apply (suggestion_invariant (service := GeminiService2.service)
             (fun s => starts_clean s /\ ends_clean s)); [done|].
    intros [[t|]|t] v; simpl; try done.
    + destruct (JS.truthy t); intros [= <-]; [|done].
      by destruct (trim_split t) as (_ & _ & _ & _ & _ & ? & ?).
    + by intros [= <-].
Qed.

(** X24: when a call the editor still listens to is answered with a text,
    the text becomes the suggestion on display, trimmed as the copy of the
    client in use trims it, and the loading flag goes down; the text in the
    editor and the error stay as they are. *)
Theorem live_answer_is_displayed (st : App.state) (r sig : nat) (t : jsstring) :
  App.awaiting st !! r = Some (Some sig) -> App.aborted sig st = false ->
  (fun st' => (App.code st', App.inlineSuggestion st', App.isLoading st',
               App.error st'))
    <$> App.step (service := GeminiService1.service) st
          (App.Settle r (Response (Some t))) =
    Some (App.code st, JS.trimStart t, false, App.error st) /\
  (fun st' => (App.code st', App.inlineSuggestion st', App.isLoading st',
               App.error st'))
    <$> App.step (service := GeminiService2.service) st
          (App.Settle r (Response (Some t))) =
    Some (App.code st, JS.trim t, false, App.error st).
Proof.
  intros Hr Hab.
  assert (forall service v,
            getCodeSuggestions_resume (GeminiService := service)
              (Response (Some t)) = Fulfilled v ->
            (fun st' => (App.code st', App.inlineSuggestion st', App.isLoading st',
                         App.error st'))
              <$> App.step (service := service) st
                    (App.Settle r (Response (Some t))) =
              Some (App.code st, v, false, App.error st)) as Hgen.
  { intros service v Hv. simpl. rewrite Hr, Hv.
    pose proof (fetchSuggestions_resume_live sig (Fulfilled v)
                  (App.set_awaiting (<[r:=None]> (App.awaiting st)) st) Hab) as Hlive.
    simpl in Hlive. by rewrite Hlive. }
  split; apply Hgen; simpl.
  - destruct (JS.trimStart t); done.
  - destruct t as [|c t]; [done|]. done.
Qed.

(** * The components *)

(** X25: what [App] hands to [Editor] changes with the user's input only:
    typing sets the textarea to what was typed; a key press leaves the text
    laid out in the backdrop as it is (Tab moves the suggestion into the
    textarea, any other key changes nothing); the passing of time and the
    settlement of a call never touch the textarea. *)
Theorem textarea_changes_by_input_only
    {service : GeminiService} (st : App.state) (e : App.event) (st' : App.state) :
  App.step st e = Some st' ->
  match e with
  | App.Change value => Editor.textarea_value (editor_of st') = value
  | App.KeyDown key =>
      Editor.backdrop_text (editor_of st') = Editor.backdrop_text (editor_of st) /\
      (Editor.textarea_value (editor_of st') = Editor.textarea_value (editor_of st) \/
       key = tab /\
       Editor.textarea_value (editor_of st') = Editor.backdrop_text (editor_of st))
  | _ => Editor.textarea_value (editor_of st') = Editor.textarea_value (editor_of st)
  end.
Proof.
  unfold editor_of, Editor.backdrop_text. simpl.
  destruct e as [value|key|ms|r o]; simpl.
  - intros [= <-].
    by destruct (rerender_frame (App.code st) (App.handleCodeChange value st))
      as (-> & _).
  - intros [= <-].
    match goal with |- context [App.rerender ?p ?x] =>
      destruct (rerender_frame p x) as (-> & -> & _) end.
    unfold App.handleKeyDown.
    destruct (JS.eqb key (JS.lit "Tab") && _) eqn:E; simpl.
    + apply andb_true_iff in E as [->%eqb_true _].
      rewrite app_nil_r. split; [done|]. by right.
    + split; [done|by left].
  - intros [= <-]. apply elapse_code.
  - destruct (App.awaiting st !! r) as [[sig|]|]; [|done..]. intros [= <-].
    match goal with |- context [App.fetchSuggestions_resume ?g ?r ?x] =>
      by destruct (fetchSuggestions_resume_frame g r x) as ((-> & _) & _) end.
Qed.

(** X26: the list of suggestions renders nothing exactly when it has
    nothing to show; when it renders, the box is never empty; while loading
    it shows no button, and otherwise one button for each suggestion, in
    order, each handing its own suggestion to the click handler. *)
Theorem suggestions_list_shows_something (p : SuggestionsList.props) :
  (SuggestionsList.render p = None <->
   SuggestionsList.suggestions p = [] /\ SuggestionsList.isLoading p = false /\
   SuggestionsList.error_truthy (SuggestionsList.error p) = false) /\
  forall v,
    SuggestionsList.render p = Some v ->
    (SuggestionsList.thinking v = true \/ SuggestionsList.error_line v <> None \/
     SuggestionsList.buttons v <> []) /\
    (SuggestionsList.thinking v = true -> SuggestionsList.buttons v = []) /\
    (SuggestionsList.thinking v = false ->
     forall index,
       SuggestionsList.click p index = SuggestionsList.suggestions p !! index).
Proof.
  unfold SuggestionsList.click, SuggestionsList.render.
  destruct p as [[|s l] [|] [[|c m]|]]; simpl; split.
  all: try (split; [done|]; by intros (? & ? & ?)).
  all: try (split; [done|]; by intros _).
  all: intros v [= <-]; simpl; repeat split; auto; try done.
  all: try (right; left; done); try (right; right; done).
Qed.

(** * The further properties at work on concrete runs *)

Lemma app_requesting_reachable :
  App.reachable (service := GeminiService2.service) app_requesting.
Proof.
  exists (Some (JS.lit "key")), [App.Elapse 500]. vm_compute. reflexivity.
Defined.

Lemma no_key_no_call_witness :
  missing_API_KEY None = true /\
  App.timers (App.mount None) !! 0 =
    Some (Some {| due := 500; callback := App.FetchTask App.initial_code 0 |}) /\
  3 <= length (JS.trim App.initial_code) /\
  App.calls (App.mount None) = [] /\
  App.error (App.elapse 500 (App.mount None)) =
    Some (JS.lit "API_KEY environment variable is not set.").
Proof.
  assert (missing_API_KEY None = true) as Hk by reflexivity.
  assert (App.run (service := GeminiService2.service) (App.mount None) [] =
            Some (App.mount None)) as Hrun by reflexivity.
  assert (App.timers (App.mount None) !! 0 =
            Some (Some {| due := 500;
                          callback := App.FetchTask App.initial_code 0 |})) as Hh
    by (vm_compute; reflexivity).
  assert (500 <= App.now (App.mount None) + 500) as Hd by (vm_compute; lia).
  assert (3 <= length (JS.trim App.initial_code)) as Hlong by (vm_compute; lia).
  destruct (no_key_no_call (service := GeminiService2.service)
              None [] (App.mount None) Hk Hrun) as (Hc & _ & H).
  destruct (H 0 500 App.initial_code 0 500 Hh Hd Hlong) as (_ & _ & He).
  split; [exact Hk|]. split; [exact Hh|]. split; [exact Hlong|].
  split; [exact Hc|exact He].
Defined.

Lemma shown_error_is_a_client_message_witness :
  App.error app_keyless =
    Some (JS.lit "API_KEY environment variable is not set.") /\
  App.error app_keyless <> Some (JS.lit "An unknown error occurred.").
Proof.
  assert (App.reachable (service := GeminiService2.service) app_keyless) as Hreach.
  { exists None, [App.Elapse 500]. vm_compute. reflexivity. }
  split; [vm_compute; reflexivity|].
  exact (proj2 (shown_error_is_a_client_message app_keyless (or_intror Hreach))).
Defined.

Lemma short_edit_freezes_status_witness :
  App.isLoading app_requesting = true /\
  JS.lit "a" <> App.code app_requesting /\
  length (JS.trim (JS.lit "a")) < 3 /\
  App.run (service := GeminiService2.service) app_requesting
    (App.Change (JS.lit "a") :: stalled_events) = Some app_stalled /\
  App.isLoading app_stalled = App.isLoading app_requesting /\
  App.calls app_stalled = App.calls app_requesting.
Proof.
  assert (App.isLoading app_requesting = true) as Hl by (vm_compute; reflexivity).
  assert (JS.lit "a" <> App.code app_requesting) as Hne
    by (vm_compute; discriminate).
  assert (length (JS.trim (JS.lit "a")) < 3) as Hshort by (vm_compute; lia).
  assert (no_change stalled_events) as Hquiet.
  { unfold no_change, stalled_events.
    repeat (constructor; [intros value; discriminate|]). constructor. }
  assert (App.run (service := GeminiService2.service) app_requesting
            (App.Change (JS.lit "a") :: stalled_events) = Some app_stalled) as Hrun
    by (vm_compute; reflexivity).
  destruct (short_edit_freezes_status (service := GeminiService2.service)
              app_requesting (JS.lit "a") stalled_events app_stalled
              app_requesting_reachable Hne Hshort Hquiet Hrun)
    as (_ & _ & H3 & _ & H5).
  split; [exact Hl|]. split; [exact Hne|]. split; [exact Hshort|].
  split; [exact Hrun|]. split; [exact H3|exact H5].
Defined.

Lemma response_answers_current_text_witness :
  App.inlineSuggestion app_suggesting <> [] /\
  exists r,
    call_snippet <$> App.calls app_suggesting !! r = Some (App.code app_suggesting).
Proof.
  assert (App.inlineSuggestion app_suggesting <> []) as Hs
    by (vm_compute; discriminate).
  split; [exact Hs|].
  exact (proj1 (response_answers_current_text (service := GeminiService2.service)
                  app_suggesting app_suggesting_reachable) Hs).
Defined.

Lemma calls_bounded_by_edits_witness :
  App.run (service := GeminiService2.service) (App.mount (Some (JS.lit "key")))
    [App.Elapse 500] = Some app_requesting /\
  length (App.calls app_requesting) <= S (app_edits [App.Elapse 500]).
Proof.
  assert (App.run (service := GeminiService2.service)
            (App.mount (Some (JS.lit "key"))) [App.Elapse 500] =
          Some app_requesting) as Hrun by (vm_compute; reflexivity).
  split; [exact Hrun|].
  exact (calls_bounded_by_edits (service := GeminiService2.service)
           (Some (JS.lit "key")) [App.Elapse 500] app_requesting Hrun).
Defined.

Lemma accepted_suggestion_is_sent_on_witness :
  App.inlineSuggestion app_suggesting <> [] /\
  exists st1,
    App.step (service := GeminiService2.service) app_suggesting (App.KeyDown tab)
      = Some st1 /\
    App.calls (App.elapse 500 st1) =
      App.calls app_suggesting ++
        app_calls (App.env_API_KEY app_suggesting)
          (App.code app_suggesting ++ App.inlineSuggestion app_suggesting).
Proof.
  assert (App.inlineSuggestion app_suggesting <> []) as Hs
    by (vm_compute; discriminate).
  split; [exact Hs|].
  destruct (accepted_suggestion_is_sent_on (service := GeminiService2.service)
              app_suggesting app_suggesting_reachable Hs) as (st1 & H1 & _ & H3).
  exists st1. split; [exact H1|]. exact (H3 500 (le_n _)).
Defined.

Lemma exactly_one_live_controller_witness :
  exists c,
    App.requestAbortController app_suggesting = Some c /\
    App.aborted c app_suggesting = false.
Proof.
  destruct (exactly_one_live_controller (service := GeminiService2.service)
              app_suggesting app_suggesting_reachable) as (c & H1 & H2 & _).
  exists c. split; [exact H1|exact H2].
Defined.

Lemma loading_hides_error_witness :
  App.isLoading app_requesting = true /\ App.error app_requesting = None.
Proof.
  assert (App.isLoading app_requesting = true) as Hl by (vm_compute; reflexivity).
  split; [exact Hl|].
  exact (loading_hides_error (service := GeminiService2.service)
           app_requesting app_requesting_reachable Hl).
Defined.

Lemma suggestion_on_display_is_final_witness :
  App.inlineSuggestion app_suggesting <> [] /\
  App.isLoading app_suggesting = false /\ App.error app_suggesting = None.
Proof.
  assert (App.inlineSuggestion app_suggesting <> []) as Hs
    by (vm_compute; discriminate).
  destruct (suggestion_on_display_is_final (service := GeminiService2.service)
              app_suggesting app_suggesting_reachable Hs) as (H1 & H2 & _).
  split; [exact Hs|]. split; [exact H1|exact H2].
Defined.

Lemma displayed_suggestion_is_trimmed_witness :
  starts_clean (App.inlineSuggestion app_suggesting) /\
  ends_clean (App.inlineSuggestion app_suggesting).
Proof.
  exact (proj2 (displayed_suggestion_is_trimmed app_suggesting)
           app_suggesting_reachable).
Defined.

Lemma app_discards_superseded_result_witness :
  App.awaiting app_requesting !! 0 = Some (Some 0) /\
  App.step (service := GeminiService2.service) app_requesting
    (App.Change (JS.lit "let x")) = Some app_retyped /\
  App.code app_retyped <> App.code app_requesting /\
  App.run (service := GeminiService2.service) app_retyped [App.Elapse 100] =
    Some app_retyped_later /\
  exists st3,
    App.step (service := GeminiService2.service) app_retyped_later
      (App.Settle 0 (Response (Some (JS.lit "x")))) = Some st3 /\
    App.visible st3 = App.visible app_retyped_later.
Proof.
  assert (App.awaiting app_requesting !! 0 = Some (Some 0)) as Hr
    by (vm_compute; reflexivity).
  assert (App.step (service := GeminiService2.service) app_requesting
            (App.Change (JS.lit "let x")) = Some app_retyped) as Hstep
    by (vm_compute; reflexivity).
  assert (App.code app_retyped <> App.code app_requesting) as Hcode
    by (vm_compute; discriminate).
  assert (App.run (service := GeminiService2.service) app_retyped
            [App.Elapse 100] = Some app_retyped_later) as Hrun
    by (vm_compute; reflexivity).
  assert (exists st3,
            App.step (service := GeminiService2.service) app_retyped_later
              (App.Settle 0 (Response (Some (JS.lit "x")))) = Some st3)
    as [st3 Hsettle].
  { eexists. vm_compute. reflexivity. }
  split; [exact Hr|]. split; [exact Hstep|]. split; [exact Hcode|].
  split; [exact Hrun|]. exists st3. split; [exact Hsettle|].
  exact (app_discards_superseded_result (service := GeminiService2.service)
           app_requesting (App.Change (JS.lit "let x")) app_retyped
           [App.Elapse 100] app_retyped_later 0 0
           (Response (Some (JS.lit "x"))) st3
           app_requesting_reachable Hr Hstep Hcode Hrun Hsettle).
Defined.

Lemma textarea_changes_by_input_only_witness :
  exists st1,
    App.step (service := GeminiService2.service) app_suggesting (App.KeyDown tab)
      = Some st1 /\
    Editor.backdrop_text (editor_of st1) =
      Editor.backdrop_text (editor_of app_suggesting).
Proof.
  assert (exists st1,
            App.step (service := GeminiService2.service) app_suggesting
              (App.KeyDown tab) = Some st1) as [st1 Hstep].
  { eexists. vm_compute. reflexivity. }
  exists st1. split; [exact Hstep|].
  exact (proj1 (textarea_changes_by_input_only (service := GeminiService2.service)
                  app_suggesting (App.KeyDown tab) st1 Hstep)).
Defined.

Lemma thinking_toast_per_call_witness :
  Plugin.calls plugin_requesting =
    [{| call_snippet := JS.lit "function greet(name) {";
        call_language := Some (JS.lit "javascript") |}] /\
  length (filter (fun t => t = thinking) (Plugin.toasts plugin_requesting)) =
    length (Plugin.calls plugin_requesting).
Proof.
  split; [vm_compute; reflexivity|].
  exact (thinking_toast_per_call flat_getTextRange flat_getModeId
           plugin_requesting plugin_requesting_reachable).
Defined.

Lemma loading_means_in_flight_witness :
  Plugin.isLoading plugin_requesting = true /\
  exists r rq, Plugin.awaiting plugin_requesting !! r = Some (Some rq).
Proof.
  assert (Plugin.isLoading plugin_requesting = true) as Hl
    by (vm_compute; reflexivity).
  split; [exact Hl|].
  exact (loading_means_in_flight flat_getTextRange flat_getModeId
           plugin_requesting plugin_requesting_reachable Hl).
Defined.

Lemma destroy_silences_witness :
  Plugin.run flat_getTextRange flat_getModeId plugin_requesting
    (Plugin.Destroy :: silent_events) = Some plugin_destroyed /\
  Plugin.promises plugin_destroyed !! 0 = Some (Some []) /\
  Plugin.calls plugin_destroyed = Plugin.calls plugin_requesting /\
  pending (Plugin.timers plugin_destroyed) = 0.
Proof.
  assert (no_invocation silent_events) as Hquiet.
  { unfold no_invocation, silent_events.
    repeat (constructor; [intros s pos; discriminate|]). constructor. }
  assert (Plugin.run flat_getTextRange flat_getModeId plugin_requesting
            (Plugin.Destroy :: silent_events) = Some plugin_destroyed) as Hrun
    by (vm_compute; reflexivity).
  destruct (destroy_silences flat_getTextRange flat_getModeId plugin_requesting
              silent_events plugin_destroyed plugin_requesting_reachable
              Hquiet Hrun) as (H1 & H2 & _).
  split; [exact Hrun|]. split; [vm_compute; reflexivity|].
  split; [exact H1|exact H2].
Defined.

Lemma destroy_keeps_provider_witness :
  0 < Plugin.providers plugin_started /\
  exists st1,
    Plugin.run flat_getTextRange flat_getModeId plugin_started
      [Plugin.Destroy; Plugin.ProvideCompletions 0 22] = Some st1 /\
    Plugin.calls (Plugin.elapse flat_getTextRange flat_getModeId 700 st1) =
      Plugin.calls plugin_started ++
        plugin_calls flat_getTextRange flat_getModeId
          (0, Plugin.sessions plugin_started 0, 22).
Proof.
  assert (0 < Plugin.providers plugin_started) as Hreg by (vm_compute; lia).
  split; [exact Hreg|].
  destruct (destroy_keeps_provider flat_getTextRange flat_getModeId
              plugin_started 0 22 plugin_started_reachable Hreg)
    as (st1 & H1 & _ & H3).
  exists st1. split; [exact H1|]. exact (H3 700 (le_n _)).
Defined.

Lemma snippet_is_read_when_timer_fires_witness :
  0 < Plugin.providers plugin_started /\ 100 < 700 /\ 700 <= 100 + 600 /\
  plugin_calls flat_getTextRange flat_getModeId (0, answer_42, 22) =
    [{| call_snippet := JS.lit "const answer = 42;";
        call_language := Some (JS.lit "typescript") |}] /\
  exists st1,
    Plugin.run flat_getTextRange flat_getModeId plugin_started
      [Plugin.ProvideCompletions 0 22; Plugin.Elapse 100;
       Plugin.HostEdit 0 answer_42] = Some st1 /\
    Plugin.calls (Plugin.elapse flat_getTextRange flat_getModeId 600 st1) =
      Plugin.calls plugin_started ++
        plugin_calls flat_getTextRange flat_getModeId (0, answer_42, 22).
Proof.
  assert (0 < Plugin.providers plugin_started) as Hreg by (vm_compute; lia).
  assert (100 < 700) as Hgap by lia.
  assert (700 <= 100 + 600) as Hms by lia.
  split; [exact Hreg|]. split; [exact Hgap|]. split; [exact Hms|].
  split; [vm_compute; reflexivity|].
  destruct (snippet_is_read_when_timer_fires flat_getTextRange flat_getModeId
              plugin_started 0 22 100 answer_42 600 plugin_started_reachable
              Hreg Hgap Hms) as (st1 & H1 & _ & H3).
  exists st1. split; [exact H1|exact H3].
Defined.

Lemma providers_accumulate_witness :
  Plugin.run flat_getTextRange flat_getModeId (Plugin.constructed (fun _ => greet))
    init_events = Some plugin_reinitialised /\
  count_events init_with_key init_events = 2 /\
  count_events init_without_key init_events = 1 /\
  Plugin.providers plugin_reinitialised = count_events init_with_key init_events /\
  length (Plugin.alerts plugin_reinitialised) =
    count_events init_without_key init_events.
Proof.
  assert (Plugin.run flat_getTextRange flat_getModeId
            (Plugin.constructed (fun _ => greet)) init_events =
          Some plugin_reinitialised) as Hrun by (vm_compute; reflexivity).
  split; [exact Hrun|]. split; [reflexivity|]. split; [reflexivity|].
  exact (providers_accumulate flat_getTextRange flat_getModeId
           (fun _ => greet) init_events plugin_reinitialised Hrun).
Defined.

Lemma at_most_one_timer_pending_witness :
  pending (Plugin.timers plugin_answered) <= 1 /\
  Plugin.timers plugin_answered !! 0 = Some None.
Proof.
  split; [|vm_compute; reflexivity].
  exact (proj1 (at_most_one_timer_pending flat_getTextRange flat_getModeId
                  plugin_answered plugin_answered_reachable)).
Defined.

Lemma language_name_is_last_segment_witness :
  Plugin.getCodeSuggestion_call plugin_started (JS.lit "let x")
    (JS.lit "ace/mode/javascript") =
    inr {| call_snippet := JS.lit "let x";
           call_language := Some (JS.lit "javascript") |} /\
  exists front name,
    Some (JS.lit "javascript") = Some name /\
    JS.lit "ace/mode/javascript" = front ++ name /\ (slash ∉ name).
Proof.
  assert (Plugin.getCodeSuggestion_call plugin_started (JS.lit "let x")
            (JS.lit "ace/mode/javascript") =
          inr {| call_snippet := JS.lit "let x";
                 call_language := Some (JS.lit "javascript") |}) as Hcall
    by (vm_compute; reflexivity).
  split; [exact Hcall|].
  destruct (language_name_is_last_segment plugin_started (JS.lit "let x")
              (JS.lit "ace/mode/javascript") _ Hcall)
    as (_ & front & name & H1 & H2 & H3 & _).
  exists front, name. split; [exact H1|]. split; [exact H2|exact H3].
Defined.

Lemma caption_fits_one_line_witness :
  Plugin.promises plugin_answered !! 1 =
    Some (Some [Plugin.completion_item (JS.lit "foo")]) /\
  length (Plugin.caption (Plugin.completion_item (JS.lit "foo"))) <= 53 /\
  (line_feed ∉ Plugin.caption (Plugin.completion_item (JS.lit "foo"))).
Proof.
  assert (Plugin.promises plugin_answered !! 1 =
            Some (Some [Plugin.completion_item (JS.lit "foo")])) as Hl
    by (vm_compute; reflexivity).
  split; [exact Hl|].
  destruct (caption_fits_one_line flat_getTextRange flat_getModeId
              plugin_answered 1 [Plugin.completion_item (JS.lit "foo")]
              (Plugin.completion_item (JS.lit "foo"))
              plugin_answered_reachable Hl (list_elem_of_here _ _))
    as (_ & _ & H3 & H4 & _).
  split; [exact H3|exact H4].
Defined.

Lemma answered_when_settled_witness :
  Plugin.awaiting plugin_requesting !! 0 =
    Some (Some {| Plugin.rq_signal := 0; Plugin.rq_resolve := 0 |}) /\
  Plugin.step flat_getTextRange flat_getModeId plugin_requesting
    (Plugin.Settle 0 (Response (Some (JS.lit "foo")))) = Some plugin_first_answered /\
  (exists items,
     Plugin.promises plugin_first_answered !! 0 = Some (Some items) /\
     well_formed_items items) /\
  caught (JS.Object None (Some (JS.lit "quota exceeded"))) /\
  exists st',
    Plugin.step flat_getTextRange flat_getModeId plugin_requesting
      (Plugin.Settle 0 (Failure (JS.Object None (Some (JS.lit "quota exceeded")))))
      = Some st' /\
    exists items,
      Plugin.promises st' !! 0 = Some (Some items) /\ well_formed_items items.
Proof.
  assert (Plugin.awaiting plugin_requesting !! 0 =
            Some (Some {| Plugin.rq_signal := 0; Plugin.rq_resolve := 0 |})) as Hr
    by (vm_compute; reflexivity).
  assert (forall t, Response (Some (JS.lit "foo")) = Failure t -> caught t) as Ho
    by discriminate.
  assert (Plugin.step flat_getTextRange flat_getModeId plugin_requesting
            (Plugin.Settle 0 (Response (Some (JS.lit "foo")))) =
          Some plugin_first_answered) as Hstep by (vm_compute; reflexivity).
  assert (caught (JS.Object None (Some (JS.lit "quota exceeded")))) as Hc
    by (right; eexists; reflexivity).
  assert (forall t,
            Failure (JS.Object None (Some (JS.lit "quota exceeded"))) = Failure t ->
            caught t) as Ho'
    by (intros t Ht; injection Ht as <-; exact Hc).
  destruct (Plugin.step flat_getTextRange flat_getModeId plugin_requesting
              (Plugin.Settle 0
                 (Failure (JS.Object None (Some (JS.lit "quota exceeded"))))))
    as [st'|] eqn:Hstep'; [|vm_compute in Hstep'; discriminate Hstep'].
  split; [exact Hr|]. split; [exact Hstep|]. split.
  - exact (answered_when_settled flat_getTextRange flat_getModeId plugin_requesting
             0 {| Plugin.rq_signal := 0; Plugin.rq_resolve := 0 |}
             (Response (Some (JS.lit "foo"))) plugin_first_answered
             plugin_requesting_reachable Hr Ho Hstep).
  - split; [exact Hc|]. exists st'. split; [reflexivity|].
    exact (answered_when_settled flat_getTextRange flat_getModeId plugin_requesting
             0 {| Plugin.rq_signal := 0; Plugin.rq_resolve := 0 |}
             (Failure (JS.Object None (Some (JS.lit "quota exceeded")))) st'
             plugin_requesting_reachable Hr Ho' Hstep').
Defined.

Lemma live_answer_is_delivered_witness :
  Plugin.awaiting plugin_requesting !! 0 = Some (Some first_request) /\
  JS.lit "foo" <> [] /\
  Plugin.abortController plugin_requesting = Some 0 /\
  Plugin.aborted 0 plugin_requesting = false /\
  Plugin.step flat_getTextRange flat_getModeId plugin_requesting
    (Plugin.Settle 0 (Response (Some (JS.lit "foo")))) = Some plugin_first_answered /\
  Plugin.promises plugin_first_answered !! Plugin.rq_resolve first_request =
    Some (Some [Plugin.completion_item (JS.lit "foo")]).
Proof.
  assert (Plugin.awaiting plugin_requesting !! 0 = Some (Some first_request)) as Hr
    by (vm_compute; reflexivity).
  assert (JS.lit "foo" <> []) as Ht by (vm_compute; discriminate).
  assert (Plugin.aborted (Plugin.rq_signal first_request) plugin_requesting = false)
    as Hown by (vm_compute; reflexivity).
  assert (Plugin.abortController plugin_requesting = Some 0) as Hc
    by (vm_compute; reflexivity).
  assert (Plugin.aborted 0 plugin_requesting = false) as Hlatest
    by (vm_compute; reflexivity).
  assert (Plugin.step flat_getTextRange flat_getModeId plugin_requesting
            (Plugin.Settle 0 (Response (Some (JS.lit "foo")))) =
          Some plugin_first_answered) as Hstep by (vm_compute; reflexivity).
  split; [exact Hr|]. split; [exact Ht|]. split; [exact Hc|].
  split; [exact Hlatest|]. split; [exact Hstep|].
  exact (proj1 (live_answer_is_delivered flat_getTextRange flat_getModeId
                  plugin_requesting 0 first_request (JS.lit "foo") 0
                  plugin_first_answered plugin_requesting_reachable
                  Hr Ht Hown Hc Hlatest Hstep)).
Defined.

Lemma dropped_answer_yields_no_candidate_witness :
  Plugin.awaiting plugin_cancelled !! 0 = Some (Some first_request) /\
  Plugin.aborted (Plugin.rq_signal first_request) plugin_cancelled = true /\
  Plugin.step flat_getTextRange flat_getModeId plugin_cancelled
    (Plugin.Settle 0 (Response (Some (JS.lit "foo")))) =
    Some plugin_cancelled_answered /\
  Plugin.promises plugin_cancelled_answered !! Plugin.rq_resolve first_request =
    Some (Some []).
Proof.
  assert (Plugin.reachable flat_getTextRange flat_getModeId plugin_cancelled)
    as Hreach.
  { exists (fun _ => greet),
      [Plugin.Init (Some (Some (JS.lit "key"))); Plugin.ProvideCompletions 0 22;
       Plugin.Elapse 700; Plugin.Destroy].
    vm_compute. reflexivity. }
  assert (Plugin.awaiting plugin_cancelled !! 0 = Some (Some first_request)) as Hr
    by (vm_compute; reflexivity).
  assert (Plugin.aborted (Plugin.rq_signal first_request) plugin_cancelled = true)
    as Hown by (vm_compute; reflexivity).
  assert (Plugin.step flat_getTextRange flat_getModeId plugin_cancelled
            (Plugin.Settle 0 (Response (Some (JS.lit "foo")))) =
          Some plugin_cancelled_answered) as Hstep by (vm_compute; reflexivity).
  split; [exact Hr|]. split; [exact Hown|]. split; [exact Hstep|].
  exact (proj1 (dropped_answer_yields_no_candidate flat_getTextRange flat_getModeId
                  plugin_cancelled 0 first_request (Some (JS.lit "foo"))
                  plugin_cancelled_answered Hreach Hr
                  (or_intror (or_intror (or_introl Hown))) Hstep)).
Defined.

Lemma live_answer_is_displayed_witness :
  App.awaiting app_requesting !! 0 = Some (Some 0) /\
  App.aborted 0 app_requesting = false /\
  (fun st' => (App.code st', App.inlineSuggestion st', App.isLoading st',
               App.error st'))
    <$> App.step (service := GeminiService2.service) app_requesting
          (App.Settle 0 (Response (Some (JS.lit " x ")))) =
    Some (App.code app_requesting, JS.trim (JS.lit " x "), false,
          App.error app_requesting) /\
  JS.trim (JS.lit " x ") = JS.lit "x".
Proof.
  assert (App.awaiting app_requesting !! 0 = Some (Some 0)) as Hr
    by (vm_compute; reflexivity).
  assert (App.aborted 0 app_requesting = false) as Hab
    by (vm_compute; reflexivity).
  split; [exact Hr|]. split; [exact Hab|]. split.
  - exact (proj2 (live_answer_is_displayed app_requesting 0 0 (JS.lit " x ")
                    Hr Hab)).
  - vm_compute. reflexivity.
Defined.

Lemma suggestions_list_shows_something_witness :
  SuggestionsList.render two_suggestions = Some two_buttons /\
  SuggestionsList.click two_suggestions 1 = Some (JS.lit "bar()").
Proof.
  assert (SuggestionsList.render two_suggestions = Some two_buttons) as Hr
    by reflexivity.
  split; [exact Hr|].
  destruct (proj2 (suggestions_list_shows_something two_suggestions) two_buttons Hr)
    as (_ & _ & H).
  exact (H eq_refl 1).
Defined.
